(** * Shallow embedding of the sprite-extraction pipeline of code-py-samurai

    Python modules embedded here:
    - tools/pipeline/frame_order.py       (distance matrix, ordering, ping-pong)
    - tools/pipeline/phase1_extract.py    (grid assignment, cell merging)
    - tools/pipeline/extract_grid_cells.py (separator line centres)
    - tools/pipeline/extract_orochi.py    (best line subset)
    - tools/phase56_normalize_assemble.py (frame normalisation)

    Python floats are embedded as exact rationals [Q] wherever the claims
    are about the ordering of computed quantities; the frame normaliser,
    whose behaviour depends on NaN and infinities, uses primitive floats. *)

From Stdlib Require Import List ZArith QArith Lia Permutation Bool Sorted.
From Stdlib Require Import Qabs Qround Floats Lqa.
Import ListNotations.

Open Scope Z_scope.

(** ** Python exceptions and a small error monad *)

Inductive exc : Type :=
| IndexError
| ValueError
| OverflowError
| ZeroDivisionError
| MemoryError
| DecompressionBombError  (** PIL.Image.DecompressionBombError *)
| OutOfFuel.  (** the fuel of a [while] loop ran out (modelling only) *)

Inductive result (A : Type) : Type :=
| Ok : A -> result A
| Err : exc -> result A.
Arguments Ok {A} _.
Arguments Err {A} _.

Definition bind {A B} (m : result A) (k : A -> result B) : result B :=
  match m with
  | Ok a => k a
  | Err e => Err e
  end.

Notation "x <- m ;; k" := (bind m (fun x => k))
  (at level 61, m at next level, right associativity).

(** [for x in xs: body] threading a state through a body that may raise. *)
Fixpoint fold_res {A B} (f : A -> B -> result A) (xs : list B) (a : A)
  : result A :=
  match xs with
  | [] => Ok a
  | x :: t => a' <- f a x ;; fold_res f t a'
  end.

(** Python's [lst[i]] for a non-negative index. *)
Definition py_get {A} (l : list A) (i : nat) : result A :=
  match nth_error l i with
  | Some v => Ok v
  | None => Err IndexError
  end.

(** Python's [lst[i]] for any integer index (negative counts from the end). *)
Definition py_index {A} (l : list A) (i : Z) : result A :=
  if i <? 0 then
    (if Z.of_nat (length l) + i <? 0 then Err IndexError
     else py_get l (Z.to_nat (Z.of_nat (length l) + i)))
  else py_get l (Z.to_nat i).

(** Strict comparison of rationals as a boolean, Python's [a < b]. *)
Definition Qltb (a b : Q) : bool := negb (Qle_bool b a).

(** ** frame_order.py *)

(** [round_up_to_multiple(value, multiple)]; [//] by zero raises. *)
Definition round_up_to_multiple (value multiple : Z) : result Z :=
  if multiple =? 0 then Err ZeroDivisionError
  else Ok ((value + multiple - 1) / multiple * multiple).

(** A distance matrix ([np.ndarray] of shape (n, n)) as a list of rows. *)
Definition matrix := list (list Q).

(** [D[i][j]]. *)
Definition getD (D : matrix) (i j : nat) : result Q :=
  row <- py_get D i ;; py_get row j.

(** [path_length]: [sum(D[path[i]][path[i+1]] for i in range(len(path)-1))],
    summed left to right from 0. *)
Fixpoint path_length_from (D : matrix) (acc : Q) (path : list nat)
  : result Q :=
  match path with
  | a :: ((b :: _) as t) =>
      d <- getD D a b ;; path_length_from D (acc + d)%Q t
  | _ => Ok acc
  end.

Definition path_length (D : matrix) (path : list nat) : result Q :=
  path_length_from D 0%Q path.

(** [best[:i] + best[i : j + 1][::-1] + best[j + 1 :]]. *)
Definition reverse_segment (best : list nat) (i j : nat) : list nat :=
  firstn i best ++ rev (firstn (S j - i) (skipn i best)) ++ skipn (S j) best.

(** State of the 2-opt [while] loop body: [(best, best_len, improved)]. *)
Definition topt_state : Type := (list nat * Q * bool)%type.

(** Body of the inner [for j] loop. *)
Definition two_opt_inner (D : matrix) (i : nat) (st : topt_state) (j : nat)
  : result topt_state :=
  let '(best, best_len, improved) := st in
  let candidate := reverse_segment best i j in
  cand_len <- path_length D candidate ;;
  if Qltb cand_len best_len then Ok (candidate, cand_len, true)
  else Ok st.

(** Body of the outer [for i] loop:
    [for j in range(i + 1, len(best) - 1)]. *)
Definition two_opt_outer (D : matrix) (st : topt_state) (i : nat)
  : result topt_state :=
  let '(best, _, _) := st in
  fold_res (two_opt_inner D i) (seq (S i) (length best - S (S i))) st.

(** One pass: [improved = False; for i in range(1, len(best) - 2): ...]. *)
Definition two_opt_pass (D : matrix) (best : list nat) (best_len : Q)
  : result topt_state :=
  fold_res (two_opt_outer D) (seq 1 (length best - 3)) (best, best_len, false).

(** [while improved: ...] with explicit fuel. *)
Fixpoint two_opt_loop (fuel : nat) (D : matrix) (best : list nat)
  (best_len : Q) : result (list nat) :=
  match fuel with
  | O => Err OutOfFuel
  | S fuel' =>
      st <- two_opt_pass D best best_len ;;
      let '(best', best_len', improved) := st in
      if improved then two_opt_loop fuel' D best' best_len' else Ok best'
  end.

Definition two_opt_improve (fuel : nat) (D : matrix) (path : list nat)
  : result (list nat) :=
  best_len <- path_length D path ;; two_opt_loop fuel D path best_len.

(** [lst[i] = v] for a non-negative index (raises out of range). *)
Fixpoint list_set {A} (l : list A) (i : nat) (v : A) : list A :=
  match l, i with
  | [], _ => []
  | _ :: t, O => v :: t
  | x :: t, S i' => x :: list_set t i' v
  end.

Definition py_set {A} (l : list A) (i : nat) (v : A) : result (list A) :=
  if Nat.ltb i (length l) then Ok (list_set l i v) else Err IndexError.

(** [D[i][j] = v] on a 2-D array. *)
Definition set2 (D : matrix) (i j : nat) (v : Q) : result matrix :=
  row <- py_get D i ;; row' <- py_set row j v ;; py_set D i row'.

(** [np.zeros((n, n))]. *)
Definition zeros (n : nat) : matrix := repeat (repeat 0%Q n) n.

Definition sumQ (l : list Q) : Q := fold_left Qplus l 0%Q.

(** [float(np.mean(np.abs(a - b)))] for two aligned (same-shape, flattened)
    fields. Fields of different shapes make numpy raise; an empty field
    would make numpy return NaN, while [Qdiv] by 0 gives 0 here (the theorems
    below only use fields with at least one pixel). *)
Definition mad (a b : list Q) : Q :=
  (sumQ (map (fun '(u, v) => Qabs (u - v)) (combine a b))
   / inject_Z (Z.of_nat (length a)))%Q.

Definition mean_abs_diff (a b : list Q) : result Q :=
  if Nat.eqb (length a) (length b) then Ok (mad a b) else Err ValueError.

(** [compute_distance_matrix(dts)]. *)
Definition cdm_inner (dts : list (list Q)) (i : nat) (D : matrix) (j : nat)
  : result matrix :=
  a <- py_get dts i ;; b <- py_get dts j ;;
  d <- mean_abs_diff a b ;;
  D1 <- set2 D i j d ;; set2 D1 j i d.

Definition compute_distance_matrix (dts : list (list Q)) : result matrix :=
  let n := length dts in
  fold_res
    (fun D i => fold_res (cdm_inner dts i) (seq (S i) (n - S i)) D)
    (seq 0 n) (zeros n).

(** [find_farthest_pair(D)]: state [(best_d, best)]. *)
Definition ffp_inner (D : matrix) (i : nat) (st : Q * (nat * nat)) (j : nat)
  : result (Q * (nat * nat)) :=
  let '(best_d, best) := st in
  d <- getD D i j ;;
  if Qltb best_d d then Ok (d, (i, j)) else Ok st.

Definition find_farthest_pair (D : matrix) : result (nat * nat) :=
  let n := length D in
  st <- fold_res
          (fun st i => fold_res (ffp_inner D i) (seq (S i) (n - S i)) st)
          (seq 0 n) ((-1)%Q, (0%nat, 1%nat)) ;;
  Ok (snd st).

(** [min(remaining, key=lambda x: D[current][x])]: the first element with
    the least key, in iteration order. A set of small non-negative ints
    iterates in ascending order in CPython, so [remaining] is kept as an
    ascending list. *)
Fixpoint min_by_from (D : matrix) (current best : nat) (best_key : Q)
  (xs : list nat) : result nat :=
  match xs with
  | [] => Ok best
  | x :: t =>
      k <- getD D current x ;;
      if Qltb k best_key then min_by_from D current x k t
      else min_by_from D current best best_key t
  end.

Definition min_by (D : matrix) (current : nat) (xs : list nat) : result nat :=
  match xs with
  | [] => Err ValueError
  | x :: t => k <- getD D current x ;; min_by_from D current x k t
  end.

(** [remaining.remove(x)]. *)
Definition set_remove (x : nat) (s : list nat) : list nat :=
  filter (fun y => negb (Nat.eqb y x)) s.

(** [while remaining: ...] of [nearest_neighbor_path]; each iteration removes
    one element, so [length remaining] iterations suffice. *)
Fixpoint nn_loop (fuel : nat) (D : matrix) (current : nat)
  (remaining path : list nat) : result (list nat) :=
  match remaining with
  | [] => Ok path
  | _ :: _ =>
      match fuel with
      | O => Err OutOfFuel
      | S fuel' =>
          nearest <- min_by D current remaining ;;
          nn_loop fuel' D nearest (set_remove nearest remaining)
            (path ++ [nearest])
      end
  end.

Definition nearest_neighbor_path (D : matrix) (start end_ : nat)
  : result (list nat) :=
  let n := length D in
  let remaining :=
    filter (fun x => negb (Nat.eqb x start) && negb (Nat.eqb x end_))
      (seq 0 n) in
  path <- nn_loop (length remaining) D start remaining [start] ;;
  Ok (path ++ [end_]).

Definition order_frames (fuel : nat) (D : matrix) : result (list nat) :=
  ac <- find_farthest_pair D ;;
  path <- nearest_neighbor_path D (fst ac) (snd ac) ;;
  two_opt_improve fuel D path.

(** Python's [round(x)] on a finite value: round half to even. *)
Definition py_round (q : Q) : Z :=
  let f := Qfloor q in
  match Qcompare (q - inject_Z f) (1 # 2) with
  | Lt => f
  | Gt => f + 1
  | Eq => if Z.even f then f else f + 1
  end.

(** [range(b)] for an integer [b]. *)
Definition zrange (b : Z) : list Z := map Z.of_nat (seq 0 (Z.to_nat b)).

Definition Qdivz (a b : Z) : Q := (inject_Z a / inject_Z b)%Q.

(** [select_ping_pong(ordered, cycle_length)]. *)
Definition select_ping_pong (ordered : list nat) (cycle_length : Z)
  : result (list nat) :=
  let n := Z.of_nat (length ordered) in
  if n <=? cycle_length then Ok ordered
  else if cycle_length =? 3 then
    let mid := py_round (Qdivz (n - 1) 2) in
    a <- py_index ordered 0 ;; b <- py_index ordered mid ;;
    c <- py_index ordered (-1) ;; Ok [a; b; c]
  else if cycle_length =? 4 then
    let b1_pos := py_round (Qdivz (n - 1) 3) in
    let b2_pos := py_round (Qdivz (2 * (n - 1)) 3) in
    a <- py_index ordered 0 ;; b1 <- py_index ordered b1_pos ;;
    c <- py_index ordered (-1) ;; b2 <- py_index ordered b2_pos ;;
    Ok [a; b1; c; b2]
  else
    let half := cycle_length / 2 in
    outbound <- fold_res
      (fun acc k =>
         let pos := if 1 <? half then py_round (Qdivz (k * (n - 1)) (half - 1))
                    else 0 in
         v <- py_index ordered pos ;; Ok (acc ++ [v]))
      (zrange half) [] ;;
    inbound <- fold_res
      (fun acc k =>
         let pos := py_round (inject_Z (n - 1)
                              - Qdivz (k * (n - 1)) (cycle_length - half))%Q in
         idx <- py_index ordered pos ;;
         if existsb (Nat.eqb idx) outbound then Ok acc else Ok (acc ++ [idx]))
      (zrange (cycle_length - half)) [] ;;
    Ok (outbound ++ inbound).

(** ** phase1_extract.py *)

(** [CellInfo]: integer box and float centre (source image coordinates). *)
Record CellInfo : Type := mkCell {
  x : Z; y : Z; w : Z; h : Z; center_x : Q; center_y : Q }.

Definition ROW_GAP_THRESHOLD : Z := 200.

(** Python's stable [sorted(l, key=k)] / [l.sort(key=k)], as an insertion
    sort that places an element after every earlier one of equal key. *)
Fixpoint insert_by (k : CellInfo -> Q) (c : CellInfo) (l : list CellInfo)
  : list CellInfo :=
  match l with
  | [] => [c]
  | d :: t => if Qltb (k c) (k d) then c :: d :: t else d :: insert_by k c t
  end.

Definition sort_by (k : CellInfo -> Q) (l : list CellInfo) : list CellInfo :=
  fold_left (fun acc c => insert_by k c acc) l [].

(** The row-forming loop over [sorted_by_y[1:]]: [rows[-1]] is [cur],
    the rows before it are [done]. *)
Fixpoint cluster_rows (prev : CellInfo) (cur : list CellInfo)
  (done : list (list CellInfo)) (rest : list CellInfo)
  : list (list CellInfo) :=
  match rest with
  | [] => done ++ [cur]
  | c :: t =>
      let gap := (center_y c - center_y prev)%Q in
      if Qltb (inject_Z ROW_GAP_THRESHOLD) gap
      then cluster_rows c [c] (done ++ [cur]) t
      else cluster_rows c (cur ++ [c]) done t
  end.

(** [rows] as formed from the cells sorted by [center_y]. *)
Definition row_clusters (cells : list CellInfo) : list (list CellInfo) :=
  match sort_by center_y cells with
  | [] => []
  | s0 :: t => cluster_rows s0 [s0] [] t
  end.

(** [current[j + 1].x - (current[j].x + current[j].w)]. *)
Definition cell_gap (a b : CellInfo) : Z := x b - (x a + w a).

(** Body of the [for j] scan of [_merge_cells_to_count]; [None] is
    [float("inf")]. State: [(min_gap, merge_idx)]. *)
Definition mcc_scan (current : list CellInfo) (st : option Z * nat) (j : nat)
  : result (option Z * nat) :=
  b <- py_get current (S j) ;; a <- py_get current j ;;
  let gap := cell_gap a b in
  match fst st with
  | None => Ok (Some gap, j)
  | Some min_gap => if gap <? min_gap then Ok (Some gap, j) else Ok st
  end.

(** The [CellInfo] containing both [a] and [b]. *)
Definition merge_cells (a b : CellInfo) : CellInfo :=
  let merged_x := Z.min (x a) (x b) in
  let merged_y := Z.min (y a) (y b) in
  let merged_x2 := Z.max (x a + w a) (x b + w b) in
  let merged_y2 := Z.max (y a + h a) (y b + h b) in
  mkCell merged_x merged_y (merged_x2 - merged_x) (merged_y2 - merged_y)
    (Qdivz (merged_x + merged_x2) 2) (Qdivz (merged_y + merged_y2) 2).

(** One iteration of the [while] loop of [_merge_cells_to_count]. *)
Definition mcc_step (current : list CellInfo) : result (list CellInfo) :=
  st <- fold_res (mcc_scan current) (seq 0 (length current - 1)) (None, 0%nat) ;;
  let merge_idx := snd st in
  a <- py_get current merge_idx ;; b <- py_get current (S merge_idx) ;;
  Ok (firstn merge_idx current ++ [merge_cells a b] ++
      skipn (S (S merge_idx)) current).

(** [while len(current) > target: ...]; each iteration removes one cell, so
    [1 + len(cells)] iterations suffice. *)
Fixpoint mcc_loop (fuel : nat) (current : list CellInfo) (target : Z)
  : result (list CellInfo) :=
  if Z.of_nat (length current) <=? target then Ok current
  else match fuel with
       | O => Err OutOfFuel
       | S fuel' => c' <- mcc_step current ;; mcc_loop fuel' c' target
       end.

Definition merge_cells_to_count (cells : list CellInfo) (target : Z)
  : result (list CellInfo) :=
  mcc_loop (S (length cells)) cells target.

(** The lines printed by [assign_cells_to_grid]. *)
Inductive log_line : Type :=
| LMerging (row : nat) (detected : nat) (expected : Z)
| LWarning (row : nat) (detected : nat) (expected : Z).

(** [for i, (row, expected) in enumerate(zip(rows, frames_per_row)): ...] *)
Definition assign_step (st : list (list CellInfo) * list log_line)
  (ire : nat * (list CellInfo * Z))
  : result (list (list CellInfo) * list log_line) :=
  let '(rows, logs) := st in
  let '(i, (row, expected)) := ire in
  if expected <? Z.of_nat (length row) then
    merged <- merge_cells_to_count row expected ;;
    rows' <- py_set rows i merged ;;
    Ok (rows', logs ++ [LMerging i (length row) expected])
  else if Z.of_nat (length row) <? expected then
    Ok (rows, logs ++ [LWarning i (length row) expected])
  else Ok st.

(** [assign_cells_to_grid(cells, expected_rows, frames_per_row)]: the grid
    and the lines it prints. *)
Definition assign_cells_to_grid (cells : list CellInfo) (expected_rows : Z)
  (frames_per_row : list Z)
  : result (list (list CellInfo) * list log_line) :=
  match cells with
  | [] => Err ValueError
  | _ :: _ =>
      let rows := row_clusters cells in
      if negb (Z.of_nat (length rows) =? expected_rows) then Err ValueError
      else
        let rows := map (sort_by center_x) rows in
        fold_res assign_step
          (combine (seq 0 (length rows)) (combine rows frames_per_row))
          (rows, [])
  end.

(** ** extract_grid_cells.py *)

(** [above = ratio > threshold]. *)
Definition above (ratio : list Q) (threshold : Q) : list bool :=
  map (fun r => Qltb threshold r) ratio.

(** Body of [for i in range(len(above))]; state [(centers, in_run, start)]. *)
Definition flc_step (ab : list bool) (st : list Z * bool * Z) (i : Z)
  : list Z * bool * Z :=
  let '(centers, in_run, start) := st in
  let a := nth (Z.to_nat i) ab false in
  if a && negb in_run then (centers, true, i)
  else if negb a && in_run then (centers ++ [(start + i) / 2], false, start)
  else st.

(** The centres of the runs, before merging. *)
Definition run_centers (ratio : list Q) (threshold : Q) : list Z :=
  let ab := above ratio threshold in
  let n := Z.of_nat (length ab) in
  let '(centers, in_run, start) := fold_left (flc_step ab) (zrange n) ([], false, 0) in
  if in_run then centers ++ [(start + n) / 2] else centers.

(** [for c in centers[1:]: ...] with [merged = done + [last]]. *)
Fixpoint merge_centers (merge_gap : Z) (done : list Z) (last : Z) (cs : list Z)
  : list Z :=
  match cs with
  | [] => done ++ [last]
  | c :: t =>
      if c - last <? merge_gap then merge_centers merge_gap done ((last + c) / 2) t
      else merge_centers merge_gap (done ++ [last]) c t
  end.

(** [_find_line_centers(ratio, threshold, merge_gap=...)]. *)
Definition find_line_centers (ratio : list Q) (threshold : Q) (merge_gap : Z)
  : list Z :=
  let centers := run_centers ratio threshold in
  match centers with
  | [] | [_] => centers
  | c0 :: t => merge_centers merge_gap [] c0 t
  end.

(** Body of [for c in range(...)] of [compute_cell_rects]: one cell
    appended to [row]. *)
Definition ccr_cell (x_bounds y_bounds : list Z) (r : Z)
  (row : list (Z * Z * Z * Z)) (c : Z) : result (list (Z * Z * Z * Z)) :=
  y0 <- py_index y_bounds r ;; y1 <- py_index y_bounds (r + 1) ;;
  x0 <- py_index x_bounds c ;; x1 <- py_index x_bounds (c + 1) ;;
  let margin := 3 in
  Ok (row ++ [(x0 + margin, y0 + margin, x1 - x0 - 2 * margin, y1 - y0 - 2 * margin)]).

(** Body of [for r in range(...)]: one row appended to [grid]. *)
Definition ccr_row (x_bounds y_bounds : list Z) (expected_cols : Z)
  (grid : list (list (Z * Z * Z * Z))) (r : Z) : result (list (list (Z * Z * Z * Z))) :=
  row <- fold_res (ccr_cell x_bounds y_bounds r)
           (zrange (Z.min expected_cols (Z.of_nat (length x_bounds) - 1))) [] ;;
  Ok (grid ++ [row]).

(** [compute_cell_rects(img_h, img_w, row_seps, col_seps, expected_rows,
    expected_cols)]; the warnings printed to stderr are not modelled. *)
Definition compute_cell_rects (img_h img_w : Z) (row_seps col_seps : list Z)
  (expected_rows expected_cols : Z) : result (list (list (Z * Z * Z * Z))) :=
  let y_bounds := [0] ++ row_seps ++ [img_h] in
  let x_bounds := [0] ++ col_seps ++ [img_w] in
  fold_res (ccr_row x_bounds y_bounds expected_cols)
    (zrange (Z.min expected_rows (Z.of_nat (length y_bounds) - 1))) [].

(** Modelled from the claim's words (not from the source): detected centres
    that are adjacent and closer than [merge_gap] end up in one line, so the
    number of lines is one plus the number of adjacent pairs at least
    [merge_gap] apart. *)
Fixpoint spec_line_count_from (merge_gap : Z) (prev : Z) (cs : list Z) : nat :=
  match cs with
  | [] => 1%nat
  | c :: t =>
      if c - prev <? merge_gap then spec_line_count_from merge_gap c t
      else S (spec_line_count_from merge_gap c t)
  end.

Definition spec_line_count (merge_gap : Z) (cs : list Z) : nat :=
  match cs with
  | [] => 0%nat
  | c :: t => spec_line_count_from merge_gap c t
  end.

(** ** phase1_extract.py: grid fallbacks and helpers *)

(** [_find_bright_bands(projection, threshold, min_size)]: body of
    [for i in range(len(active))]; state [(bands, in_band, start)]. *)
Definition fbb_step (active : list bool) (min_size : Z) (st : list (Z * Z) * bool * Z)
  (i : Z) : list (Z * Z) * bool * Z :=
  let '(bands, in_band, start) := st in
  let a := nth (Z.to_nat i) active false in
  if a && negb in_band then (bands, true, i)
  else if negb a && in_band then
    ((if min_size <=? i - start then bands ++ [(start, i)] else bands), false, start)
  else st.

Definition find_bright_bands (projection : list Q) (threshold : Q) (min_size : Z)
  : list (Z * Z) :=
  let active := above projection threshold in
  let n := Z.of_nat (length active) in
  let '(bands, in_band, start) :=
    fold_left (fbb_step active min_size) (zrange n) ([], false, 0) in
  if in_band && (min_size <=? n - start) then bands ++ [(start, n)] else bands.

(** [_uniform_grid(rows, cols, img_w, img_h)]; [//] by zero raises. *)
Definition uniform_grid (rows cols img_w img_h : Z) : result (list (list CellInfo)) :=
  if cols =? 0 then Err ZeroDivisionError else
  let cell_w := img_w / cols in
  if rows =? 0 then Err ZeroDivisionError else
  let cell_h := img_h / rows in
  Ok (map (fun r =>
         map (fun c =>
                let x := c * cell_w in
                let y := r * cell_h in
                mkCell x y cell_w cell_h (inject_Z x + Qdivz cell_w 2)
                  (inject_Z y + Qdivz cell_h 2))
           (zrange cols))
        (zrange rows)).

(** [_fill_positions(existing, target, _cell_size, total_size)]. *)
Definition fill_positions (existing : list Q) (target _cell_size total_size : Z)
  : result (list Q) :=
  let len := Z.of_nat (length existing) in
  spacing <- (if 2 <=? len then
                last_v <- py_index existing (-1) ;; first_v <- py_index existing 0 ;;
                Ok ((last_v - first_v) / inject_Z (len - 1))%Q
              else if target =? 0 then Err ZeroDivisionError
              else Ok (Qdivz total_size target)) ;;
  let first := match existing with v :: _ => v | [] => (spacing / 2)%Q end in
  Ok (map (fun i => first + inject_Z i * spacing)%Q (zrange target)).

(** Python's [sorted] on numbers, as an insertion sort. *)
Fixpoint insertQ (v : Q) (l : list Q) : list Q :=
  match l with
  | [] => [v]
  | u :: t => if Qltb v u then v :: u :: t else u :: insertQ v t
  end.

Definition sortQ (l : list Q) : list Q := fold_left (fun acc v => insertQ v acc) l [].

(** [np.mean(c)]. *)
Definition np_mean (c : list Q) : Q := (sumQ c / inject_Z (Z.of_nat (length c)))%Q.

(** The loop [for i in range(1, len(sorted_vals))] of [_cluster_positions]:
    [clusters[-1]] is [cur], the clusters before it are [done]. *)
Fixpoint cluster_gaps (prev : Q) (cur : list Q) (done : list (list Q)) (rest : list Q)
  : list (list Q) :=
  match rest with
  | [] => done ++ [cur]
  | v :: t =>
      if Qltb 100 (v - prev) then cluster_gaps v [v] (done ++ [cur]) t
      else cluster_gaps v (cur ++ [v]) done t
  end.

(** [_cluster_positions(values, expected)]. *)
Definition cluster_positions (values : list Q) (expected : Z) : result (list Q) :=
  let sorted_vals := sortQ values in
  if Z.of_nat (length sorted_vals) <=? expected then Ok sorted_vals
  else
    v0 <- py_get sorted_vals 0 ;;
    Ok (map np_mean (cluster_gaps v0 [v0] [] (tl sorted_vals))).

(** Python's [int(q)] on a finite float: truncation toward zero. *)
Definition Qtrunc (q : Q) : Z := if Qle_bool 0 q then Qfloor q else - Qfloor (- q).

(** [np.median(l)]: the middle of the sorted values, or the mean of the
    two middle ones for an even count. *)
Definition np_median (l : list Q) : Q :=
  let s := sortQ l in
  let n := length s in
  if Nat.odd n then nth (n / 2) s 0%Q
  else ((nth (n / 2 - 1) s 0 + nth (n / 2) s 0) / 2)%Q.

(** [int(np.median(l))]; numpy's median of no values is NaN, on which [int]
    raises [ValueError]. *)
Definition int_median (l : list Q) : result Z :=
  match l with
  | [] => Err ValueError
  | _ :: _ => Ok (Qtrunc (np_median l))
  end.

(** Python's slice [l[:k]]. *)
Definition py_take {A} (l : list A) (k : Z) : list A :=
  if k <? 0 then firstn (Z.to_nat (Z.of_nat (length l) + k)) l
  else firstn (Z.to_nat k) l.

(** [_infer_grid_from_cells(cells, expected_rows, expected_cols, img_width,
    img_height)]. The sorted sets [xs] and [ys] it computes are not used
    afterwards and cannot raise, so they are left out. *)
Definition infer_grid_from_cells (cells : list CellInfo) (expected_rows expected_cols : Z)
  (img_width img_height : Z) : result (list (list CellInfo)) :=
  match cells with
  | [] => uniform_grid expected_rows expected_cols img_width img_height
  | _ :: _ =>
      median_w <- int_median (map (fun c => inject_Z (w c)) cells) ;;
      median_h <- int_median (map (fun c => inject_Z (h c)) cells) ;;
      row_ys <- cluster_positions (map center_y cells) expected_rows ;;
      col_xs <- cluster_positions (map center_x cells) expected_cols ;;
      row_ys <- (if Z.of_nat (length row_ys) <? expected_rows
                 then fill_positions row_ys expected_rows median_h img_height
                 else Ok row_ys) ;;
      col_xs <- (if Z.of_nat (length col_xs) <? expected_cols
                 then fill_positions col_xs expected_cols median_w img_width
                 else Ok col_xs) ;;
      Ok (map (fun ry =>
                 map (fun cx =>
                        let x := Z.max 0 (Qtrunc (cx - Qdivz median_w 2)) in
                        let y := Z.max 0 (Qtrunc (ry - Qdivz median_h 2)) in
                        mkCell x y median_w median_h cx ry)
                   (py_take col_xs expected_cols))
            (py_take row_ys expected_rows))
  end.

(** [_detect_tile_grid(arr, expected_rows, expected_cols)]. The brightness
    profiles numpy computes from [arr] are the inputs of the model:
    [h_proj] is [np.mean(brightness, axis=1)] and [v_proj ys ye] is
    [np.mean(brightness[ys:ye, :], axis=0)], as rationals. (The NaN means
    of an empty slice compare false with a threshold, as zeros do.) The
    diagnostic [print] calls are left out. *)
Section DetectTileGrid.

Variable h_proj : list Q.
Variable v_proj : Z -> Z -> list Q.

(** The loop [for ys, ye in row_bands] choosing [best_cols]. *)
Fixpoint pick_best_cols (expected_cols : Z) (row_bands : list (Z * Z))
    (best_cols : list (Z * Z)) : list (Z * Z) :=
  match row_bands with
  | [] => best_cols
  | (ys, ye) :: t =>
      let cols := find_bright_bands (v_proj ys ye) (inject_Z 55) 30 in
      if Z.of_nat (length cols) =? expected_cols then cols
      else pick_best_cols expected_cols t
             (if (length best_cols <? length cols)%nat then cols else best_cols)
  end.

(** [first_x + i * (spacing + 20)] is computed in floats; on the small
    values of an image it is exact, hence a rational. *)
Definition detect_tile_grid (h w expected_rows expected_cols : Z)
    : result (list (list CellInfo)) :=
  let detected_rows := find_bright_bands h_proj (inject_Z 60) 50 in
  row_bands <- (if Z.of_nat (length detected_rows) =? expected_rows then Ok detected_rows
                else if expected_rows =? 0 then Err ZeroDivisionError
                else let band_h := h / expected_rows in
                     Ok (map (fun i => (i * band_h, (i + 1) * band_h)) (zrange expected_rows))) ;;
  let picked := pick_best_cols expected_cols row_bands [] in
  best_cols <- (if Z.of_nat (length picked) =? expected_cols then Ok picked
                else match picked with
                     | (first_x, _) :: _ =>
                         let spacing := np_median (map (fun '(s, e) => inject_Z (e - s)) picked) in
                         Ok (map (fun i =>
                                    (Qtrunc (inject_Z first_x + inject_Z i * (spacing + inject_Z 20)),
                                     Qtrunc (inject_Z first_x + inject_Z i * (spacing + inject_Z 20)
                                             + spacing)))
                               (zrange expected_cols))
                     | [] =>
                         if expected_cols =? 0 then Err ZeroDivisionError
                         else let band_w := w / expected_cols in
                              Ok (map (fun i => (i * band_w, (i + 1) * band_w)) (zrange expected_cols))
                     end) ;;
  Ok (map (fun '(ys, ye) =>
             map (fun '(xs, xe) =>
                    mkCell xs ys (xe - xs) (ye - ys) (Qdivz (xs + xe) 2) (Qdivz (ys + ye) 2))
               best_cols)
          row_bands).

End DetectTileGrid.

(** ** extract_orochi.py *)

(** [itertools.combinations(l, k)], in its lexicographic order. *)
Fixpoint combinations {A : Type} (l : list A) (k : nat) : list (list A) :=
  match k with
  | O => [[]]
  | S k' =>
      match l with
      | [] => []
      | x :: t => map (cons x) (combinations t k') ++ combinations t k
      end
  end.

(** [intervals]: [points[i] - points[i - 1]] for [i] in [range(1, len(points))]. *)
Fixpoint intervals (points : list Z) : list Z :=
  match points with
  | a :: ((b :: _) as t) => (b - a) :: intervals t
  | _ => []
  end.

Definition sumQz (xs : list Z) : Q := fold_right (fun x acc => inject_Z x + acc)%Q 0%Q xs.

(** [np.var(xs)], the population variance ([ddof=0]); here [xs] is never
    empty, [points] having at least two elements. *)
Definition np_var (xs : list Z) : Q :=
  let m := inject_Z (Z.of_nat (length xs)) in
  let mean := (sumQz xs / m)%Q in
  (fold_right (fun x acc => (inject_Z x - mean) * (inject_Z x - mean) + acc) 0 xs / m)%Q.

Definition combo_score (total : Z) (combo : list Z) : Q :=
  np_var (intervals ([0] ++ combo ++ [total])).

(** Loop body; [None] stands for [float("inf")]. *)
Definition sbl_step (total : Z) (st : option Q * list Z) (combo : list Z)
  : option Q * list Z :=
  let '(best_score, best) := st in
  let score := combo_score total combo in
  match best_score with
  | None => (Some score, combo)
  | Some bs => if Qltb score bs then (Some score, combo) else st
  end.

(** [_select_best_lines(candidates, expected, total)]; a negative
    [expected] makes [combinations] raise [ValueError]. The printed warning
    is not modelled. *)
Definition select_best_lines (candidates : list Z) (expected total : Z)
  : result (list Z) :=
  let n := Z.of_nat (length candidates) in
  if n =? expected then Ok candidates
  else if n <? expected then Ok candidates
  else if expected <? 0 then Err ValueError
  else
    let '(_, best) :=
      fold_left (sbl_step total) (combinations candidates (Z.to_nat expected))
        (None, firstn (Z.to_nat expected) candidates) in
    Ok best.

(** ** phase56_normalize_assemble.py *)

Definition CANVAS_SIZE : Z := 80.

(** Python's [round(x)] on a float: [ValueError] on NaN, [OverflowError] on
    an infinity, otherwise the nearest integer, ties to even. *)
Definition sf_to_Q (s : bool) (m : positive) (e : Z) : Q :=
  let q := if 0 <=? e then inject_Z (Zpos m * 2 ^ e) else (Zpos m # Z.to_pos (2 ^ (- e))) in
  if s then (- q)%Q else q.

Definition py_round_float (f : float) : result Z :=
  match Prim2SF f with
  | S754_nan => Err ValueError
  | S754_infinity _ => Err OverflowError
  | S754_zero _ => Ok 0
  | S754_finite s m e => Ok (py_round (sf_to_Q s m e))
  end.

(** Python's [int(x)] on a float: truncation toward zero; [ValueError] on
    NaN, [OverflowError] on an infinity. *)
Definition py_int_float (f : float) : result Z :=
  match Prim2SF f with
  | S754_nan => Err ValueError
  | S754_infinity _ => Err OverflowError
  | S754_zero _ => Ok 0
  | S754_finite s m e => Ok (Qtrunc (sf_to_Q s m e))
  end.

(** [float(n)] for a Python int (image sizes, far below [2^63]). *)
Definition float_of_Z (z : Z) : float :=
  if z <? 0 then PrimFloat.opp (PrimFloat.of_uint63 (Uint63.of_Z (- z)))
  else PrimFloat.of_uint63 (Uint63.of_Z z).

(** An RGBA pixel and an RGBA image, rows from top to bottom. *)
Record px := mkPx { pr : Z; pg : Z; pb : Z; pa : Z }.

Definition px0 : px := mkPx 0 0 0 0.

Record image := mkImage { iw : Z; ih : Z; rows : list (list px) }.

(** Pixel access; outside the image PIL's crop reads zeros. *)
Definition getpx (im : image) (x y : Z) : px :=
  if (0 <=? x) && (x <? iw im) && (0 <=? y) && (y <? ih im)
  then nth (Z.to_nat x) (nth (Z.to_nat y) (rows im) []) px0
  else px0.

Definition build (w h : Z) (f : Z -> Z -> px) : image :=
  mkImage w h (map (fun y => map (fun x => f x y) (zrange w)) (zrange h)).

Definition map_px (f : px -> px) (im : image) : image :=
  mkImage (iw im) (ih im) (map (map f) (rows im)).

(** [img.split()[-1].getbbox()]: the bounding box of the non-zero alpha
    values, [None] when there is none. *)
Definition alpha_getbbox (im : image) : option (Z * Z * Z * Z) :=
  fold_left (fun acc y =>
    fold_left (fun acc x =>
      if pa (getpx im x y) =? 0 then acc
      else match acc with
           | None => Some (x, y, x + 1, y + 1)
           | Some (x0, y0, x1, y1) =>
               Some (Z.min x0 x, Z.min y0 y, Z.max x1 (x + 1), Z.max y1 (y + 1))
           end) (zrange (iw im)) acc) (zrange (ih im)) None.

(** [content_bbox(img)]. *)
Definition content_bbox (im : image) : Z * Z * Z * Z :=
  match alpha_getbbox im with
  | None => (0, 0, iw im, ih im)
  | Some bbox => bbox
  end.


(** libImaging's [DIV255] and [MULDIV255]. *)
Definition div255 (v : Z) : Z := let tmp := v + 128 in Z.shiftr (Z.shiftr tmp 8 + tmp) 8.












(** [Image.new("RGBA", (w, h), (0, 0, 0, 0))]. *)
Definition new_image (w h : Z) : image := build w h (fun _ _ => px0).

(** libImaging's [BLEND], used by [paste_mask_RGBA]. *)
Definition blend (mask in1 in2 : Z) : Z := div255 (in1 * (255 - mask) + in2 * mask).

(** [canvas.paste(im, (px, py), im)]: blend with [im]'s alpha, clipped to
    the canvas. *)
Definition paste_mask (canvas im : image) (x0 y0 : Z) : image :=
  build (iw canvas) (ih canvas) (fun X Y =>
    let c := getpx canvas X Y in
    if (x0 <=? X) && (X <? x0 + iw im) && (y0 <=? Y) && (Y <? y0 + ih im) then
      let s := getpx im (X - x0) (Y - y0) in
      let m := pa s in
      mkPx (blend m (pr c) (pr s)) (blend m (pg c) (pg s))
           (blend m (pb c) (pb s)) (blend m (pa c) (pa s))
    else c).

(** *** Pillow's checks on the sizes it is given *)













(** [_dominant_edge_color(img)]: the loop over [enumerate(img.getdata())]
    collecting the opaque pixels of the border ([len(p) == 4] always holds
    for RGBA). [i % w] raises [ZeroDivisionError] when [w] is 0. *)
Definition edge_pixels (im : image) : result (list px) :=
  let pixels := concat (rows im) in
  let w := iw im in
  let h := ih im in
  fold_res (fun acc (ip : Z * px) =>
    let '(i, p) := ip in
    if w =? 0 then Err ZeroDivisionError
    else
      let x := i mod w in
      let y := i / w in
      if (x =? 0) || (x =? w - 1) || (y =? 0) || (y =? h - 1) then
        if 128 <? pa p then Ok (acc ++ [p]) else Ok acc
      else Ok acc)
    (combine (zrange (Z.of_nat (length pixels))) pixels) [].

Definition sum_ch (f : px -> Z) (l : list px) : Z := fold_right (fun p acc => f p + acc) 0 l.

Definition dominant_edge_color (im : image) : result (Z * Z * Z * Z) :=
  edge <- edge_pixels im ;;
  match edge with
  | [] => Ok (0, 0, 0, 255)
  | _ :: _ =>
      let n := Z.of_nat (length edge) in
      Ok (sum_ch pr edge / n, sum_ch pg edge / n, sum_ch pb edge / n, 255)
  end.

(** [enumerate(l)]. *)
Definition enumerate {A} (l : list A) : list (Z * A) :=
  combine (zrange (Z.of_nat (length l))) l.

(** [assemble_sprite_sheet(frames)] of phase 5-6. *)
Definition assemble_sprite_sheet (frames : list image) : image :=
  let n := Z.of_nat (length frames) in
  let sheet := new_image (CANVAS_SIZE * n) CANVAS_SIZE in
  fold_left (fun sheet (ifr : Z * image) =>
      let '(i, frame) := ifr in paste_mask sheet frame (i * CANVAS_SIZE) 0)
    (enumerate frames) sheet.

(** ** extract_orochi.py and extract_grid_cells.py: image helpers *)











Module Orochi.

(** [_find_line_centers(ratio, threshold)] of extract_orochi.py: the same
    loop as in extract_grid_cells.py, without the merging. *)
Definition find_line_centers (ratio : list Q) (threshold : Q) : list Z :=
  let ab := above ratio threshold in
  let n := Z.of_nat (length ab) in
  let '(centers, in_run, start) := fold_left (flc_step ab) (zrange n) ([], false, 0) in
  if in_run then centers ++ [(start + n) / 2] else centers.

(** The double nearest to [0.3], [5404319552844595 * 2^-54]. *)
Definition float_0_3 : Q := Qmake 5404319552844595 18014398509481984.

(** [detect_red_lines(arr, expected_h, expected_v)]. The red-pixel ratios
    numpy computes from [arr] are the inputs of the model: [h_ratio] is
    [red_mask.mean(axis=1)] and [v_ratio] is [red_mask.mean(axis=0)], as
    rationals, so their lengths are the height and the width of [arr].
    [0x1.999999999999ap-5] is the double nearest to [0.05]. The diagnostic
    [print] calls are left out. *)
Definition detect_red_lines (h_ratio v_ratio : list Q) (expected_h expected_v : Z)
    : result (list Z * list Z) :=
  let h := Z.of_nat (length h_ratio) in
  let w := Z.of_nat (length v_ratio) in
  let all_h := find_line_centers h_ratio float_0_3 in
  let all_v := find_line_centers v_ratio float_0_3 in
  margin_h <- py_int_float (PrimFloat.mul (float_of_Z h) 0x1.999999999999ap-5%float) ;;
  margin_w <- py_int_float (PrimFloat.mul (float_of_Z w) 0x1.999999999999ap-5%float) ;;
  let h_internal := filter (fun y => (margin_h <? y) && (y <? h - margin_h)) all_h in
  let v_internal := filter (fun x => (margin_w <? x) && (x <? w - margin_w)) all_v in
  h_lines <- select_best_lines h_internal expected_h h ;;
  v_lines <- select_best_lines v_internal expected_v w ;;
  Ok (h_lines, v_lines).


(** The mask of [clean_cyan_residue] for one pixel. *)
Definition cyan_mask (threshold : Z) (p : px) : bool :=
  (pr p <? 80 + threshold) && (160 - threshold <? pg p) &&
  (160 - threshold <? pb p) && (0 <? pa p).

(** [clean_cyan_residue(img, threshold)] on an RGBA image: [arr[cyan_mask,
    3] = 0]. *)
Definition clean_cyan_residue (img : image) (threshold : Z) : image :=
  map_px (fun p => if cyan_mask threshold p then mkPx (pr p) (pg p) (pb p) 0 else p) img.

(** [assemble_sprite_sheet(frames)] of extract_orochi.py. *)
Definition assemble_sprite_sheet (frames : list image) : result image :=
  match frames with
  | [] => Err ValueError
  | f0 :: _ =>
      let h := ih f0 in
      let w := iw f0 in
      let sheet := new_image (w * Z.of_nat (length frames)) h in
      Ok (fold_left (fun sheet (ifr : Z * image) =>
              let '(i, frame) := ifr in paste_mask sheet frame (i * w) 0)
            (enumerate frames) sheet)
  end.


End Orochi.

(** ** Auxiliary definitions for the statements and proofs *)

(** [above[k]] for a position [k]. *)
Definition abit (ab : list bool) (k : Z) : bool := nth (Z.to_nat k) ab false.

(** [[s, e)] is a maximal run of positions above the threshold. *)
Definition is_run (ab : list bool) (s e : Z) : Prop :=
  0 <= s < e /\ e <= Z.of_nat (length ab) /\
  (forall k, s <= k < e -> abit ab k = true) /\
  (s = 0 \/ abit ab (s - 1) = false) /\
  (e = Z.of_nat (length ab) \/ abit ab e = false).

(** Consecutive elements at least [gap] apart. *)
Fixpoint spaced (gap : Z) (l : list Z) : Prop :=
  match l with
  | a :: ((b :: _) as t) => a + gap <= b /\ spaced gap t
  | _ => True
  end.

(** [sub] is a subsequence of [l]. *)
Inductive subseq {A : Type} : list A -> list A -> Prop :=
| subseq_nil : subseq [] []
| subseq_take x s l : subseq s l -> subseq (x :: s) (x :: l)
| subseq_skip x s l : subseq s l -> subseq s (x :: l).




(** A ratio profile with three single-pixel runs at 0, 9 and 18. *)
Definition ratio19 : list Q :=
  map (fun i => if orb (Nat.eqb i 0) (orb (Nat.eqb i 9) (Nat.eqb i 18)) then 1%Q else 0%Q)
    (seq 0 19).

(** Entry [M[i][j]] of a matrix (0 outside). *)
Definition mget (M : matrix) (i j : nat) : Q := nth j (nth i M []) 0%Q.

(** [(a, b)] comes before [(i, j)] in the row-major order of the loops. *)
Definition pair_before (a b i j : nat) : Prop := (a < i \/ (a = i /\ b < j))%nat.

(** Each step of [l] goes to the nearest of the nodes still to come
    (the last node excepted). *)
Definition greedy (D : matrix) (l : list nat) : Prop :=
  forall k m, (S k < m)%nat -> (m < length l)%nat ->
    (mget D (nth k l 0%nat) (nth (S k) l 0%nat) <= mget D (nth k l 0%nat) (nth m l 0%nat))%Q.

(** Invariant of the loops of [find_farthest_pair] once the pairs before
    [(i0, j0)] in row-major order are done. *)
Definition ffp_inv (D : matrix) (i0 j0 : nat) (st : Q * (nat * nat)) : Prop :=
  let n := length D in
  let '(bd, (bi, bj)) := st in
  ((forall a b, (a < b)%nat -> (b < n)%nat -> ~ pair_before a b i0 j0) /\
   bd = (-1)%Q /\ bi = 0%nat /\ bj = 1%nat) \/
  ((bi < bj)%nat /\ (bj < n)%nat /\ pair_before bi bj i0 j0 /\ bd = mget D bi bj /\
   (forall a b, (a < b)%nat -> (b < n)%nat -> pair_before a b i0 j0 -> (mget D a b <= bd)%Q) /\
   (forall a b, (a < b)%nat -> (b < n)%nat -> pair_before a b i0 j0 -> pair_before a b bi bj ->
      (mget D a b < bd)%Q)).

(** The search of one pass stays on the input path while nothing improves:
    every reversal [(i, j)] tried so far has length at least [bl0]. *)
Definition topt_done (D : matrix) (best0 : list nat) (bl0 : Q) (k : nat) : Prop :=
  forall i j, (1 <= i)%nat -> (i < k)%nat -> (i < j)%nat -> (S j < length best0)%nat ->
    exists cl, path_length D (reverse_segment best0 i j) = Ok cl /\ (bl0 <= cl)%Q.

(** Bands [(s, e)] in increasing order, each ending before the next starts. *)
Fixpoint bands_ordered (l : list (Z * Z)) : Prop :=
  match l with
  | b1 :: ((b2 :: _) as t) => snd b1 < fst b2 /\ bands_ordered t
  | _ => True
  end.

(** Consecutive clusters are separated by a gap of more than 100. *)
Fixpoint gapped (cs : list (list Q)) : Prop :=
  match cs with
  | c1 :: ((c2 :: _) as t) => (last c1 0 + 100 < hd 0 c2)%Q /\ gapped t
  | _ => True
  end.

(** [l[k]] for a position [k] known to be in range. *)
Definition nthz (l : list Z) (k : Z) : Z := nth (Z.to_nat k) l 0.


(** The pixel [paste_mask] writes: [s] blended over [c] with [s]'s alpha. *)
Definition blend_px (c s : px) : px :=
  mkPx (blend (pa s) (pr c) (pr s)) (blend (pa s) (pg c) (pg s))
       (blend (pa s) (pb c) (pb s)) (blend (pa s) (pa c) (pa s)).

(** A pixel pasted with its own alpha onto a transparent canvas. *)
Definition pasted_px (s : px) : px := blend_px px0 s.



(** A 2 x 2 image whose border holds three pixels with alpha above 128. *)
Definition edge_img : image :=
  mkImage 2 2 [[mkPx 10 20 30 255; mkPx 30 20 10 255]; [px0; mkPx 20 20 20 200]].

(** One step of [alpha_getbbox] at the point [(x, y)]. *)
Definition bbox_step (im : image) (acc : option (Z * Z * Z * Z)) (p : Z * Z)
    : option (Z * Z * Z * Z) :=
  let '(x, y) := p in
  if pa (getpx im x y) =? 0 then acc
  else match acc with
       | None => Some (x, y, x + 1, y + 1)
       | Some (x0, y0, x1, y1) =>
           Some (Z.min x0 x, Z.min y0 y, Z.max x1 (x + 1), Z.max y1 (y + 1))
       end.

(** The points of an image in the order [alpha_getbbox] visits them. *)
Definition scan_points (im : image) : list (Z * Z) :=
  flat_map (fun y => map (fun x => (x, y)) (zrange (iw im))) (zrange (ih im)).

(** What the bounding-box accumulator knows after visiting the points
    [L]: nothing non-zero so far, or a box holding every non-zero point
    of [L] with a non-zero point of [L] on each of its four sides. *)
Definition bbox_inv (im : image) (L : list (Z * Z)) (acc : option (Z * Z * Z * Z)) : Prop :=
  match acc with
  | None => forall x y, In (x, y) L -> pa (getpx im x y) = 0
  | Some (x0, y0, x1, y1) =>
      (forall x y, In (x, y) L -> pa (getpx im x y) <> 0 -> x0 <= x < x1 /\ y0 <= y < y1) /\
      (exists y, In (x0, y) L /\ pa (getpx im x0 y) <> 0) /\
      (exists y, In (x1 - 1, y) L /\ pa (getpx im (x1 - 1) y) <> 0) /\
      (exists x, In (x, y0) L /\ pa (getpx im x y0) <> 0) /\
      (exists x, In (x, y1 - 1) L /\ pa (getpx im x (y1 - 1)) <> 0)
  end.

(** A height profile with one bright band of 50 rows. *)
Definition tile_h_proj : list Q := repeat (inject_Z 100) 50.

(** Red-pixel ratios of a 40 x 40 image: red rows 1 and 20, red columns
    10, 20 and 30. *)
Definition red_h_ratio : list Q :=
  map (fun i => if (i =? 1) || (i =? 20) then 1%Q else 0%Q) (zrange 40).
Definition red_v_ratio : list Q :=
  map (fun i => if (i =? 10) || (i =? 20) || (i =? 30) then 1%Q else 0%Q) (zrange 40).

(** An [n] x [n] matrix. *)
Definition square (n : nat) (M : matrix) : Prop :=
  length M = n /\ forall a, (a < n)%nat -> length (nth a M []) = n.

(** Contents of [D] in [compute_distance_matrix] once the outer loop has
    finished the rows before [i] and the inner loop of row [i] has finished
    the columns before [t]. *)
Definition cdm_entry (dts : list (list Q)) (i t a b : nat) : Q :=
  if Nat.ltb a b && (Nat.ltb a i || (Nat.eqb a i && Nat.ltb b t)) then
    mad (nth a dts []) (nth b dts [])
  else if Nat.ltb b a && (Nat.ltb b i || (Nat.eqb b i && Nat.ltb a t)) then
    mad (nth b dts []) (nth a dts [])
  else 0%Q.

(** A placeholder cell for [nth]. *)
Definition cell0 : CellInfo := mkCell 0 0 0 0 0 0.

(** Gap between cell [j] and cell [j + 1] of a row. *)
Definition gap_at (current : list CellInfo) (j : nat) : Z :=
  cell_gap (nth j current cell0) (nth (S j) current cell0).

(** Rectangle [r] contains rectangle [a]. *)
Definition covers (r a : CellInfo) : Prop :=
  x r <= x a /\ x a + w a <= x r + w r /\
  y r <= y a /\ y a + h a <= y r + h r.

(** [k] successive applications of a step that may raise. *)
Fixpoint iter_res {A} (k : nat) (f : A -> result A) (a : A) : result A :=
  match k with
  | O => Ok a
  | S k' => a' <- f a ;; iter_res k' f a'
  end.

(** * Proofs *)

(** ** Generic lemmas on the error monad and lists *)

Lemma fold_res_inv {A B} (P : A -> Prop) (f : A -> B -> result A)
  (xs : list B) (a a' : A) :
  (forall s x s', In x xs -> P s -> f s x = Ok s' -> P s') ->
  P a -> fold_res f xs a = Ok a' -> P a'.
Proof.
  revert a. induction xs as [|x t IH]; simpl; intros a Hstep Ha Hrun.
  - injection Hrun as <-. exact Ha.
  - destruct (f a x) as [s|e] eqn:Hf; simpl in Hrun; [|discriminate].
    apply (IH s); auto.
    + intros s0 y s1 Hy. apply Hstep. now right.
    + apply (Hstep a x s); auto.
Qed.

(** The same, when each step is known to succeed. *)
Lemma fold_res_ok {A B} (P : A -> Prop) (f : A -> B -> result A)
  (xs : list B) (a : A) :
  (forall s x, In x xs -> P s -> exists s', f s x = Ok s' /\ P s') ->
  P a -> exists a', fold_res f xs a = Ok a' /\ P a'.
Proof.
  revert a. induction xs as [|x t IH]; simpl; intros a Hstep Ha.
  - eauto.
  - destruct (Hstep a x (or_introl eq_refl) Ha) as (s & Hf & Hs).
    rewrite Hf. simpl. apply IH; auto.
Qed.

Lemma py_get_ok {A} (l : list A) (i : nat) (v : A) :
  py_get l i = Ok v <-> nth_error l i = Some v.
Proof.
  unfold py_get. destruct (nth_error l i); split; intros H;
    try discriminate; congruence.
Qed.

Lemma py_get_nth {A} (l : list A) (i : nat) (d : A) :
  (i < length l)%nat -> py_get l i = Ok (nth i l d).
Proof.
  intros Hi. unfold py_get. now rewrite (nth_error_nth' l d Hi).
Qed.

Lemma py_get_oob {A} (l : list A) (i : nat) :
  (length l <= i)%nat -> py_get l i = Err IndexError.
Proof.
  intros Hi. unfold py_get. now rewrite (proj2 (nth_error_None l i) Hi).
Qed.

Lemma Qltb_true (a b : Q) : Qltb a b = true <-> (a < b)%Q.
Proof.
  unfold Qltb. rewrite negb_true_iff. split; intros H.
  - apply Qnot_le_lt. intros Hle. apply Qle_bool_iff in Hle. congruence.
  - destruct (Qle_bool b a) eqn:E; auto.
    apply Qle_bool_iff in E. exfalso. apply (Qlt_not_le a b); auto.
Qed.

Lemma Qltb_false (a b : Q) : Qltb a b = false <-> (b <= a)%Q.
Proof.
  unfold Qltb. rewrite negb_false_iff. apply Qle_bool_iff.
Qed.

(** ** 2-opt *)

Lemma reverse_segment_length (best : list nat) (i j : nat) :
  (i <= S j)%nat -> (S j <= length best)%nat ->
  length (reverse_segment best i j) = length best.
Proof.
  intros H1 H2. unfold reverse_segment.
  rewrite !length_app, length_rev, !length_firstn, !length_skipn. lia.
Qed.

Lemma reverse_segment_perm (best : list nat) (i j : nat) :
  (i <= S j)%nat -> Permutation (reverse_segment best i j) best.
Proof.
  intros H. unfold reverse_segment.
  rewrite <- (firstn_skipn i best) at 4. apply Permutation_app_head.
  rewrite <- (firstn_skipn (S j - i) (skipn i best)) at 2.
  rewrite skipn_skipn. replace (S j - i + i)%nat with (S j) by lia.
  apply Permutation_app_tail. apply Permutation_sym, Permutation_rev.
Qed.

Lemma last_skipn (l : list nat) (k : nat) (d : nat) :
  (k < length l)%nat -> last (skipn k l) d = last l d.
Proof.
  revert k. induction l as [|x t IH]; intros k Hk; simpl in Hk; [lia|].
  destruct k as [|k]; [reflexivity|].
  simpl skipn. rewrite IH by lia.
  destruct t; simpl in *; [lia|reflexivity].
Qed.

Lemma last_app_nonnil (l1 l2 : list nat) (d : nat) :
  l2 <> [] -> last (l1 ++ l2) d = last l2 d.
Proof.
  intros Hne. induction l1 as [|x t IH]; [reflexivity|].
  simpl. rewrite IH. destruct (t ++ l2) eqn:E; [|reflexivity].
  apply app_eq_nil in E. tauto.
Qed.

Lemma reverse_segment_ends (best : list nat) (i j : nat) (d : nat) :
  (1 <= i)%nat -> (S j < length best)%nat ->
  hd_error (reverse_segment best i j) = hd_error best /\
  last (reverse_segment best i j) d = last best d.
Proof.
  intros Hi Hj. unfold reverse_segment. split.
  - destruct i as [|i]; [lia|]. destruct best; [simpl in Hj; lia|reflexivity].
  - assert (Hne : skipn (S j) best <> []).
    { intros E. apply (f_equal (@length nat)) in E.
      rewrite length_skipn in E. simpl in E. lia. }
    rewrite app_assoc, last_app_nonnil by exact Hne.
    now apply last_skipn.
Qed.

Section TwoOpt.
Variable D : matrix.
(** A property of paths kept by every segment reversal the loops try. *)
Variable R : list nat -> Prop.
Hypothesis R_rev : forall best i j,
  (1 <= i)%nat -> (i < j)%nat -> (S j < length best)%nat ->
  R best -> R (reverse_segment best i j).
Variable l0 : Q.

Definition topt_inv (N : nat) (st : topt_state) : Prop :=
  let '(best, best_len, _) := st in
  length best = N /\ R best /\ path_length D best = Ok best_len /\
  (best_len <= l0)%Q.

Lemma two_opt_inner_inv (N i j : nat) (st st' : topt_state) :
  (1 <= i)%nat -> (i < j)%nat -> (S j < N)%nat ->
  topt_inv N st -> two_opt_inner D i st j = Ok st' -> topt_inv N st'.
Proof.
  intros Hi Hij HjN. destruct st as [[best bl] imp].
  intros (Hlen & HR & Hpl & Hle). unfold two_opt_inner.
  destruct (path_length D (reverse_segment best i j)) as [cl|e] eqn:Hc;
    simpl; [|discriminate].
  destruct (Qltb cl bl) eqn:Hlt; intros Hres; injection Hres as <-.
  - apply Qltb_true in Hlt. repeat split.
    + rewrite reverse_segment_length; lia.
    + apply R_rev; auto; lia.
    + exact Hc.
    + apply Qle_trans with bl; auto. now apply Qlt_le_weak.
  - repeat split; auto.
Qed.

Lemma two_opt_pass_inv (best : list nat) (bl : Q) (st : topt_state) :
  topt_inv (length best) (best, bl, false) ->
  two_opt_pass D best bl = Ok st -> topt_inv (length best) st.
Proof.
  intros Hinv Hrun. unfold two_opt_pass in Hrun.
  revert Hrun. apply fold_res_inv; auto.
  intros s i s' Hi Hs Hout. apply in_seq in Hi.
  destruct s as [[b bl'] imp]. unfold two_opt_outer in Hout.
  revert Hout. apply fold_res_inv; auto.
  intros s0 j s1 Hj Hs0. apply in_seq in Hj.
  destruct Hs as (Hb & _).
  apply (two_opt_inner_inv (length best) i j s0 s1); auto; lia.
Qed.

Lemma two_opt_loop_inv (fuel : nat) (best p : list nat) (bl : Q) :
  topt_inv (length best) (best, bl, false) ->
  two_opt_loop fuel D best bl = Ok p ->
  R p /\ length p = length best /\
  exists l, path_length D p = Ok l /\ (l <= l0)%Q.
Proof.
  revert best bl. induction fuel as [|fuel IH]; intros best bl Hinv Hrun;
    simpl in Hrun; [discriminate|].
  destruct (two_opt_pass D best bl) as [[[b' bl'] imp]|e] eqn:Hp;
    simpl in Hrun; [|discriminate].
  pose proof (two_opt_pass_inv best bl _ Hinv Hp) as (Hl & HR & Hpl & Hle).
  destruct imp.
  - rewrite <- Hl. apply (IH b' bl'); [repeat split; auto|exact Hrun].
  - injection Hrun as <-. eauto.
Qed.

Lemma two_opt_improve_inv (fuel : nat) (path p : list nat) :
  R path -> path_length D path = Ok l0 ->
  two_opt_improve fuel D path = Ok p ->
  R p /\ length p = length path /\
  exists l, path_length D p = Ok l /\ (l <= l0)%Q.
Proof.
  intros HR Hpl Hrun. unfold two_opt_improve in Hrun.
  rewrite Hpl in Hrun. simpl in Hrun.
  apply (two_opt_loop_inv fuel path p l0); [|exact Hrun].
  repeat split; auto. apply Qle_refl.
Qed.
End TwoOpt.

(** ** Nearest neighbour path and farthest pair *)

Lemma min_by_from_in (D : matrix) (cur best : nat) (bk : Q) (xs : list nat)
  (r : nat) :
  min_by_from D cur best bk xs = Ok r -> r = best \/ In r xs.
Proof.
  revert best bk. induction xs as [|x t IH]; simpl; intros best bk H.
  - injection H as <-. now left.
  - destruct (getD D cur x) as [k|e]; simpl in H; [|discriminate].
    destruct (Qltb k bk).
    + destruct (IH x k H) as [->|Hin]; auto.
    + destruct (IH best bk H) as [->|Hin]; auto.
Qed.

Lemma min_by_in (D : matrix) (cur : nat) (xs : list nat) (r : nat) :
  min_by D cur xs = Ok r -> In r xs.
Proof.
  destruct xs as [|x t]; simpl; [discriminate|].
  destruct (getD D cur x) as [k|e]; simpl; [|discriminate].
  intros H. destruct (min_by_from_in _ _ _ _ _ _ H) as [->|Hin]; auto.
Qed.

Lemma filter_all_true {A} (f : A -> bool) (l : list A) :
  (forall x, In x l -> f x = true) -> filter f l = l.
Proof.
  induction l as [|y t IH]; simpl; intros H; [reflexivity|].
  rewrite H by auto. f_equal. apply IH. auto.
Qed.

Lemma perm_set_remove (x : nat) (l : list nat) :
  NoDup l -> In x l -> Permutation l (x :: set_remove x l).
Proof.
  induction l as [|y t IH]; intros Hnd Hin; [destruct Hin|].
  inversion Hnd as [|? ? Hnot Hnd']; subst. unfold set_remove; simpl.
  destruct (Nat.eqb_spec y x) as [->|Hne]; simpl.
  - rewrite filter_all_true; [reflexivity|].
    intros z Hz. apply negb_true_iff, Nat.eqb_neq. intros ->. auto.
  - destruct Hin as [->|Hin]; [congruence|].
    apply perm_trans with (y :: x :: set_remove x t).
    + constructor. auto.
    + apply perm_swap.
Qed.

Lemma nn_loop_perm (D : matrix) (fuel cur : nat) (rem path res : list nat) :
  NoDup rem -> nn_loop fuel D cur rem path = Ok res ->
  Permutation res (path ++ rem).
Proof.
  revert cur rem path. induction fuel as [|fuel IH]; intros cur rem path Hnd H;
    destruct rem as [|r rs]; cbn [nn_loop] in H.
  - injection H as <-. now rewrite app_nil_r.
  - discriminate.
  - injection H as <-. now rewrite app_nil_r.
  - destruct (min_by D cur (r :: rs)) as [nearest|e] eqn:Hm;
      cbn [bind] in H; [|discriminate].
    apply min_by_in in Hm.
    apply IH in H; [|apply NoDup_filter; exact Hnd].
    rewrite H, <- app_assoc. simpl. apply Permutation_app_head.
    apply Permutation_sym, perm_set_remove; auto.
Qed.

Lemma filter_and {A} (f g : A -> bool) (l : list A) :
  filter g (filter f l) = filter (fun x => f x && g x) l.
Proof.
  induction l as [|x t IH]; simpl; [reflexivity|].
  destruct (f x); simpl; [|exact IH].
  destruct (g x); rewrite IH; reflexivity.
Qed.

Lemma perm_two (a c : nat) (l : list nat) :
  NoDup l -> In a l -> In c l -> a <> c ->
  Permutation l
    (a :: c :: filter (fun x => negb (Nat.eqb x a) && negb (Nat.eqb x c)) l).
Proof.
  intros Hnd Ha Hc Hac.
  apply perm_trans with (a :: set_remove a l); [apply perm_set_remove; auto|].
  constructor.
  assert (Hc' : In c (set_remove a l)).
  { apply filter_In. split; auto. apply negb_true_iff, Nat.eqb_neq. auto. }
  apply perm_trans with (c :: set_remove c (set_remove a l)).
  - apply perm_set_remove; auto. apply NoDup_filter. exact Hnd.
  - constructor. unfold set_remove. rewrite filter_and.
    reflexivity.
Qed.

Lemma nearest_neighbor_path_perm (D : matrix) (a c : nat) (p : list nat) :
  (a < length D)%nat -> (c < length D)%nat -> a <> c ->
  nearest_neighbor_path D a c = Ok p -> Permutation p (seq 0 (length D)).
Proof.
  intros Ha Hc Hac H. unfold nearest_neighbor_path in H.
  set (rem := filter _ (seq 0 (length D))) in H.
  destruct (nn_loop _ D a rem [a]) as [path|e] eqn:Hl; simpl in H;
    [|discriminate].
  injection H as <-.
  apply nn_loop_perm in Hl; [|apply NoDup_filter, seq_NoDup].
  rewrite Hl. apply Permutation_sym.
  apply perm_trans with (a :: c :: rem).
  - apply perm_two; try apply in_seq; auto using seq_NoDup; lia.
  - simpl. constructor. apply Permutation_cons_append.
Qed.

Lemma find_farthest_pair_range (D : matrix) (a c : nat) :
  (2 <= length D)%nat -> find_farthest_pair D = Ok (a, c) ->
  (a < c)%nat /\ (c < length D)%nat.
Proof.
  intros Hn H. unfold find_farthest_pair in H.
  destruct (fold_res _ _ _) as [[bd [a' c']]|e] eqn:Hf; simpl in H;
    [|discriminate].
  injection H as -> ->.
  set (P := fun st : Q * (nat * nat) =>
              (fst (snd st) < snd (snd st))%nat /\
              (snd (snd st) < length D)%nat).
  change (P (bd, (a, c))). revert Hf. apply fold_res_inv; [|simpl; unfold P; simpl; lia].
  intros s i s' Hi Hs. apply in_seq in Hi. apply fold_res_inv; auto.
  intros [d0 b0] j [d1 b1] Hj Hs0. apply in_seq in Hj.
  unfold ffp_inner. destruct (getD D i j) as [d|e]; simpl; [|discriminate].
  destruct (Qltb d0 d); intros Heq; injection Heq as <- <-; auto.
  unfold P; simpl; lia.
Qed.

Lemma order_frames_small (fuel : nat) (D : matrix) (p : list nat) :
  (length D <= 1)%nat -> Forall (fun row => length row = length D) D ->
  order_frames fuel D <> Ok p.
Proof.
  intros Hn Hsq. destruct D as [|row [|row' D']]; simpl in Hn; [| |lia].
  - discriminate.
  - inversion Hsq as [|? ? Hrow _]; subst. simpl in Hrow.
    destruct row as [|x [|y r]]; simpl in Hrow; try lia. discriminate.
Qed.

(** *** C3 *)

(** C3: whenever the 2-opt phase [two_opt_improve] returns a path, the total
    length of that path (as [path_length] computes it) is at most the total
    length of the input path, e.g. of the nearest-neighbour seed. *)
Theorem two_opt_improve_never_longer (fuel : nat) (D : matrix)
  (path p : list nat) (Hrun : two_opt_improve fuel D path = Ok p) :
  exists l l', path_length D path = Ok l /\ path_length D p = Ok l' /\
               (l' <= l)%Q.
Proof.
  pose proof Hrun as Hrun'. unfold two_opt_improve in Hrun'.
  destruct (path_length D path) as [l0|e] eqn:Hpl; simpl in Hrun';
    [|discriminate].
  destruct (two_opt_improve_inv D (fun _ => True) (fun _ _ _ _ _ _ _ => I)
              l0 fuel path p I Hpl Hrun) as (_ & _ & l' & Hl' & Hle).
  exists l0, l'. auto.
Qed.

Definition D4 : matrix :=
  [[0; 5; 1; 2]; [5; 0; 3; 1]; [1; 3; 0; 9]; [2; 1; 9; 0]]%Q.

Lemma two_opt_improve_never_longer_witness :
  two_opt_improve 10 D4 [2; 1; 0; 3]%nat = Ok [2; 0; 1; 3]%nat /\
  path_length D4 [2; 1; 0; 3]%nat = Ok 10%Q /\
  path_length D4 [2; 0; 1; 3]%nat = Ok 7%Q /\
  exists l l', path_length D4 [2; 1; 0; 3]%nat = Ok l /\
    path_length D4 [2; 0; 1; 3]%nat = Ok l' /\ (l' <= l)%Q.
Proof.
  split; [reflexivity|]. split; [reflexivity|]. split; [reflexivity|].
  exact (two_opt_improve_never_longer 10 D4 [2; 1; 0; 3]%nat [2; 0; 1; 3]%nat
           eq_refl).
Defined.

(** *** C10 *)

(** C10: whenever [two_opt_improve] returns a path, its first and its last
    element are those of the input path: the 2-opt moves only reverse
    segments strictly inside the path, so the endpoints A and C stay put. *)
Theorem two_opt_improve_keeps_endpoints (fuel : nat) (D : matrix)
  (path p : list nat) (Hlen : (2 <= length path)%nat)
  (Hrun : two_opt_improve fuel D path = Ok p) :
  length p = length path /\ hd_error p = hd_error path /\
  forall d, last p d = last path d.
Proof.
  pose proof Hrun as Hrun'. unfold two_opt_improve in Hrun'.
  destruct (path_length D path) as [l0|e] eqn:Hpl; simpl in Hrun';
    [|discriminate].
  set (R := fun b => hd_error b = hd_error path /\
                     forall d, last b d = last path d).
  assert (HR : forall best i j, (1 <= i)%nat -> (i < j)%nat ->
            (S j < length best)%nat -> R best ->
            R (reverse_segment best i j)).
  { intros best i j Hi Hij Hj [Hhd Hlast]. split.
    - rewrite <- Hhd. now apply (reverse_segment_ends best i j 0).
    - intros d. rewrite <- Hlast. now apply reverse_segment_ends. }
  destruct (two_opt_improve_inv D R HR l0 fuel path p) as (HRp & Hl & _).
  - split; reflexivity.
  - exact Hpl.
  - exact Hrun.
  - destruct HRp as [Hhd Hlast]. auto.
Qed.

Lemma two_opt_improve_keeps_endpoints_witness :
  two_opt_improve 10 D4 [2; 1; 0; 3]%nat = Ok [2; 0; 1; 3]%nat /\
  length [2; 0; 1; 3]%nat = length [2; 1; 0; 3]%nat /\
  hd_error [2; 0; 1; 3]%nat = hd_error [2; 1; 0; 3]%nat /\
  forall d, last [2; 0; 1; 3]%nat d = last [2; 1; 0; 3]%nat d.
Proof.
  split; [reflexivity|].
  apply (two_opt_improve_keeps_endpoints 10 D4 [2; 1; 0; 3]%nat
           [2; 0; 1; 3]%nat); [simpl; lia|reflexivity].
Defined.

(** *** C5 *)

(** C5: for an N x N distance matrix, whenever [order_frames]
    ([find_farthest_pair], [nearest_neighbor_path], [two_opt_improve])
    returns a list, that list is a permutation of [0 .. N-1]: every index
    occurs exactly once. (For N <= 1 it raises [IndexError].) *)
Theorem order_frames_permutation (fuel : nat) (D : matrix) (p : list nat)
  (Hsq : Forall (fun row => length row = length D) D)
  (Hrun : order_frames fuel D = Ok p) :
  Permutation p (seq 0 (length D)) /\ NoDup p.
Proof.
  assert (Hperm : Permutation p (seq 0 (length D))).
  { destruct (Nat.le_gt_cases (length D) 1) as [Hsmall|Hbig].
    - exfalso. exact (order_frames_small fuel D p Hsmall Hsq Hrun).
    - unfold order_frames in Hrun.
      destruct (find_farthest_pair D) as [[a c]|e] eqn:Hf; simpl in Hrun;
        [|discriminate].
      destruct (find_farthest_pair_range D a c) as [Hac Hc];
        [lia|exact Hf|].
      destruct (nearest_neighbor_path D a c) as [path|e] eqn:Hnn;
        simpl in Hrun; [|discriminate].
      apply nearest_neighbor_path_perm in Hnn; try lia.
      pose proof Hrun as Hrun'. unfold two_opt_improve in Hrun'.
      destruct (path_length D path) as [l0|e] eqn:Hpl; simpl in Hrun';
        [|discriminate].
      set (R := fun b => Permutation b (seq 0 (length D))).
      assert (HR : forall best i j, (1 <= i)%nat -> (i < j)%nat ->
                (S j < length best)%nat -> R best ->
                R (reverse_segment best i j)).
      { intros best i j _ Hij _ Hb. unfold R.
        rewrite reverse_segment_perm by lia. exact Hb. }
      apply (two_opt_improve_inv D R HR l0 fuel path p); auto. }
  split; auto.
  apply Permutation_NoDup with (seq 0 (length D)).
  - now apply Permutation_sym.
  - apply seq_NoDup.
Qed.

Lemma order_frames_permutation_witness :
  order_frames 10 D4 = Ok [2; 0; 1; 3]%nat /\
  Permutation [2; 0; 1; 3]%nat (seq 0 4) /\ NoDup [2; 0; 1; 3]%nat.
Proof.
  split; [reflexivity|].
  apply (order_frames_permutation 10 D4 [2; 0; 1; 3]%nat);
    [repeat constructor|reflexivity].
Defined.

(** ** Distance matrix *)

Lemma list_set_length {A} (l : list A) (i : nat) (v : A) :
  length (list_set l i v) = length l.
Proof.
  revert i. induction l as [|x t IH]; intros [|i]; simpl; auto.
Qed.

Lemma nth_list_set {A} (l : list A) (i k : nat) (v d : A) :
  (i < length l)%nat ->
  nth k (list_set l i v) d = if Nat.eqb k i then v else nth k l d.
Proof.
  revert i k. induction l as [|x t IH]; intros i k Hi; simpl in Hi; [lia|].
  destruct i as [|i], k as [|k]; simpl; auto.
  rewrite IH by lia. reflexivity.
Qed.

Lemma set2_spec (n : nat) (M : matrix) (i j : nat) (v : Q) :
  square n M -> (i < n)%nat -> (j < n)%nat ->
  exists M', set2 M i j v = Ok M' /\ square n M' /\
    forall a b, mget M' a b =
                if Nat.eqb a i && Nat.eqb b j then v else mget M a b.
Proof.
  intros [HlM Hrows] Hi Hj. unfold set2.
  rewrite (py_get_nth M i []) by lia. simpl.
  unfold py_set. rewrite (proj2 (Nat.ltb_lt j _)) by (rewrite Hrows; lia).
  simpl. rewrite (proj2 (Nat.ltb_lt i _)) by lia.
  eexists. split; [reflexivity|]. split; [split|].
  - now rewrite list_set_length.
  - intros a Ha. rewrite nth_list_set by lia.
    destruct (Nat.eqb a i); [rewrite list_set_length|]; auto.
  - intros a b. unfold mget. rewrite nth_list_set by lia.
    destruct (Nat.eqb_spec a i) as [->|Hne]; simpl; [|reflexivity].
    rewrite nth_list_set by (rewrite Hrows; lia). reflexivity.
Qed.

Lemma sumQ_from_nonneg (l : list Q) (acc : Q) :
  (0 <= acc)%Q -> Forall (fun q => 0 <= q)%Q l ->
  (0 <= fold_left Qplus l acc)%Q.
Proof.
  revert acc. induction l as [|x t IH]; simpl; intros acc Hacc Hl; auto.
  inversion Hl; subst. apply IH; auto.
  apply Qle_trans with (0 + 0)%Q; [apply Qle_refl|].
  now apply Qplus_le_compat.
Qed.

Lemma mad_nonneg (a b : list Q) : (0 <= mad a b)%Q.
Proof.
  unfold mad, Qdiv. apply Qmult_le_0_compat.
  - apply sumQ_from_nonneg; [apply Qle_refl|].
    apply Forall_forall. intros q Hq. apply in_map_iff in Hq.
    destruct Hq as ([u v] & <- & _). apply Qabs_nonneg.
  - apply Qinv_le_0_compat. unfold Qle. simpl. lia.
Qed.

Ltac cmp_cases :=
  repeat (match goal with
          | |- context [Nat.ltb ?x ?y] => destruct (Nat.ltb_spec x y)
          | |- context [Nat.eqb ?x ?y] => destruct (Nat.eqb_spec x y)
          end; cbn [andb orb negb]; try (exfalso; lia); try reflexivity;
          try (subst; reflexivity)).

Section DistanceMatrix.
Variable dts : list (list Q).
Variable m : nat.
Hypothesis Hshape : Forall (fun f => length f = m) dts.
Let n := length dts.

Definition cdm_inv (i t : nat) (M : matrix) : Prop :=
  square n M /\
  forall a b, (a < n)%nat -> (b < n)%nat -> mget M a b = cdm_entry dts i t a b.

Lemma cdm_inner_step (i j : nat) (M : matrix) :
  (i < j)%nat -> (j < n)%nat -> cdm_inv i j M ->
  exists M', cdm_inner dts i M j = Ok M' /\ cdm_inv i (S j) M'.
Proof.
  intros Hij Hj [Hsq Hval]. unfold cdm_inner.
  rewrite (py_get_nth dts i []) by lia. rewrite (py_get_nth dts j []) by lia.
  simpl. unfold mean_abs_diff.
  assert (Hli : length (nth i dts []) = m).
  { rewrite Forall_forall in Hshape. apply Hshape, nth_In. lia. }
  assert (Hlj : length (nth j dts []) = m).
  { rewrite Forall_forall in Hshape. apply Hshape, nth_In. lia. }
  rewrite Hli, Hlj, Nat.eqb_refl. simpl.
  destruct (set2_spec n M i j (mad (nth i dts []) (nth j dts [])))
    as (M1 & -> & Hsq1 & Hv1); auto; try lia. simpl.
  destruct (set2_spec n M1 j i (mad (nth i dts []) (nth j dts [])))
    as (M2 & -> & Hsq2 & Hv2); auto; try lia.
  exists M2. split; [reflexivity|]. split; auto.
  intros a b Ha Hb. rewrite Hv2, Hv1, Hval by auto.
  unfold cdm_entry. cmp_cases.
Qed.

Lemma cdm_inner_loop (i : nat) (k t : nat) (M : matrix) :
  (i < t)%nat -> (t + k = n)%nat -> cdm_inv i t M ->
  exists M', fold_res (cdm_inner dts i) (seq t k) M = Ok M' /\
             cdm_inv i n M'.
Proof.
  revert t M. induction k as [|k IH]; intros t M Hit Htk Hinv; simpl.
  - exists M. split; auto. now replace n with t by lia.
  - destruct (cdm_inner_step i t M) as (M1 & -> & Hinv1); auto; try lia.
    simpl. apply IH; auto; lia.
Qed.

Lemma cdm_inv_next_row (i : nat) (M : matrix) :
  cdm_inv i n M -> cdm_inv (S i) (S (S i)) M.
Proof.
  intros [Hsq Hval]. split; auto.
  intros a b Ha Hb. rewrite Hval by auto.
  unfold cdm_entry. cmp_cases.
Qed.

Lemma cdm_outer_loop (k s : nat) (M : matrix) :
  (s + k = n)%nat -> cdm_inv s (S s) M ->
  exists M', fold_res
               (fun D i => fold_res (cdm_inner dts i) (seq (S i) (n - S i)) D)
               (seq s k) M = Ok M' /\ cdm_inv n (S n) M'.
Proof.
  revert s M. induction k as [|k IH]; intros s M Hsk Hinv; simpl.
  - exists M. split; auto. now replace n with s by lia.
  - destruct (cdm_inner_loop s (n - S s) (S s) M) as (M1 & -> & Hinv1);
      auto; try lia.
    simpl. apply IH; [lia|]. now apply cdm_inv_next_row.
Qed.

Lemma compute_distance_matrix_entries :
  exists M, compute_distance_matrix dts = Ok M /\ square n M /\
    forall a b, (a < n)%nat -> (b < n)%nat ->
      mget M a b = if Nat.ltb a b then mad (nth a dts []) (nth b dts [])
                   else if Nat.ltb b a then mad (nth b dts []) (nth a dts [])
                   else 0%Q.
Proof.
  destruct (cdm_outer_loop n 0 (zeros n)) as (M & HM & Hsq & Hval); auto.
  - split; [split|].
    + unfold zeros. now rewrite repeat_length.
    + intros a Ha. unfold zeros. rewrite nth_repeat_lt by lia.
      apply repeat_length.
    + intros a b Ha Hb. unfold mget, zeros.
      rewrite nth_repeat_lt, nth_repeat_lt by lia.
      unfold cdm_entry. cmp_cases.
  - exists M. split; [exact HM|]. split; auto.
    intros a b Ha Hb. rewrite Hval by auto.
    unfold cdm_entry. cmp_cases.
Qed.
End DistanceMatrix.

(** *** C4 *)

(** C4: for N distance-transform fields of one common, non-empty shape,
    [compute_distance_matrix] returns an N x N matrix with a zero diagonal,
    symmetric ([D[i][j] = D[j][i]]) and with non-negative entries. *)
Theorem compute_distance_matrix_symmetric (dts : list (list Q)) (m : nat)
  (Hm : (0 < m)%nat) (Hshape : Forall (fun f => length f = m) dts) :
  exists D, compute_distance_matrix dts = Ok D /\ square (length dts) D /\
    forall i j, (i < length dts)%nat -> (j < length dts)%nat ->
      mget D i i = 0%Q /\ mget D i j = mget D j i /\ (0 <= mget D i j)%Q.
Proof.
  destruct (compute_distance_matrix_entries dts m Hshape)
    as (D & HD & Hsq & Hval).
  exists D. split; [exact HD|]. split; [exact Hsq|].
  intros i j Hi Hj. rewrite !Hval by auto.
  rewrite Nat.ltb_irrefl. split; [reflexivity|].
  destruct (Nat.ltb_spec i j), (Nat.ltb_spec j i); try lia;
    (split; [reflexivity|]); first [apply mad_nonneg | apply Qle_refl].
Qed.

Lemma compute_distance_matrix_symmetric_witness :
  compute_distance_matrix [[1; 2]; [3; 5]; [0; 0]]%Q =
    Ok [[0; 5 # 2; 3 # 2]; [5 # 2; 0; 8 # 2]; [3 # 2; 8 # 2; 0]]%Q /\
  exists D, compute_distance_matrix [[1; 2]; [3; 5]; [0; 0]]%Q = Ok D /\
    square 3 D /\
    forall i j, (i < 3)%nat -> (j < 3)%nat ->
      mget D i i = 0%Q /\ mget D i j = mget D j i /\ (0 <= mget D i j)%Q.
Proof.
  split; [reflexivity|].
  apply (compute_distance_matrix_symmetric [[1; 2]; [3; 5]; [0; 0]]%Q 2%nat).
  - lia.
  - repeat constructor.
Defined.

(** ** Ping-pong selection *)

Lemma py_round_third (a : Z) :
  0 <= a -> py_round (Qdivz a 3) = (a + 1) / 3.
Proof.
  intros Ha. unfold py_round, Qdivz, Qfloor, Qdiv, Qinv. simpl.
  unfold Qminus, Qplus, Qcompare, Qopp. simpl.
  pose proof (Z.div_mod a 3 ltac:(lia)) as Hdm.
  pose proof (Z.mod_pos_bound a 3 ltac:(lia)) as Hb.
  rewrite !Z.mul_1_r.
  match goal with |- context [Z.compare ?x ?y] =>
    destruct (Z.compare_spec x y) end.
  - lia.
  - apply Z.div_unique with (a mod 3 + 1); lia.
  - apply Z.div_unique with 0; lia.
Qed.

Lemma py_index_nth {A} (l : list A) (z : Z) (d : A) :
  0 <= z -> z < Z.of_nat (length l) ->
  py_index l z = Ok (nth (Z.to_nat z) l d).
Proof.
  intros H0 H1. unfold py_index.
  rewrite (proj2 (Z.ltb_ge z 0)) by lia. apply py_get_nth. lia.
Qed.

Lemma py_index_last {A} (l : list A) (d : A) :
  (1 <= length l)%nat -> py_index l (-1) = Ok (nth (length l - 1) l d).
Proof.
  intros H. unfold py_index. simpl.
  rewrite (proj2 (Z.ltb_ge (Z.of_nat (length l) + -1) 0)) by lia.
  replace (Z.to_nat (Z.of_nat (length l) + -1)) with (length l - 1)%nat
    by lia.
  apply py_get_nth. lia.
Qed.

(** *** C6 *)

(** C6: on an ordered path of length N > 4, [select_ping_pong] with cycle
    length 4 returns exactly
    [[path[0], path[round((N-1)/3)], path[N-1], path[round(2(N-1)/3)]]];
    on a path of N = 7 distinct frame indices the four selected indices are
    distinct and include [path[0]] and [path[N-1]]. *)
Theorem select_ping_pong_four (ordered : list nat)
  (Hn : (4 < length ordered)%nat) :
  select_ping_pong ordered 4 =
    Ok [nth 0 ordered 0%nat;
        nth (Z.to_nat (py_round (Qdivz (Z.of_nat (length ordered) - 1) 3)))
          ordered 0%nat;
        nth (length ordered - 1) ordered 0%nat;
        nth (Z.to_nat
               (py_round (Qdivz (2 * (Z.of_nat (length ordered) - 1)) 3)))
          ordered 0%nat] /\
  (length ordered = 7%nat -> NoDup ordered ->
   exists r, select_ping_pong ordered 4 = Ok r /\ length r = 4%nat /\
     NoDup r /\ In (nth 0 ordered 0%nat) r /\ In (nth 6 ordered 0%nat) r).
Proof.
  assert (Hsel : select_ping_pong ordered 4 =
    Ok [nth 0 ordered 0%nat;
        nth (Z.to_nat (py_round (Qdivz (Z.of_nat (length ordered) - 1) 3)))
          ordered 0%nat;
        nth (length ordered - 1) ordered 0%nat;
        nth (Z.to_nat
               (py_round (Qdivz (2 * (Z.of_nat (length ordered) - 1)) 3)))
          ordered 0%nat]).
  { unfold select_ping_pong.
    rewrite (proj2 (Z.leb_gt (Z.of_nat (length ordered)) 4)) by lia.
    cbn [Z.eqb Pos.eqb].
    rewrite (py_index_nth ordered 0 0%nat) by lia. cbn [bind].
    rewrite (py_index_nth ordered _ 0%nat);
      [|rewrite py_round_third by lia; apply Z.div_pos; lia
       |rewrite py_round_third by lia; apply Z.div_lt_upper_bound; lia].
    cbn [bind]. rewrite (py_index_last ordered 0%nat) by lia. cbn [bind].
    rewrite (py_index_nth ordered _ 0%nat);
      [reflexivity
      |rewrite py_round_third by lia; apply Z.div_pos; lia
      |rewrite py_round_third by lia; apply Z.div_lt_upper_bound; lia]. }
  split; [exact Hsel|].
  intros H7 Hnd. rewrite Hsel. eexists. split; [reflexivity|].
  rewrite H7.
  destruct ordered as [|x0 [|x1 [|x2 [|x3 [|x4 [|x5 [|x6 [|x7 t]]]]]]]];
    simpl in H7; try lia.
  rewrite !NoDup_cons_iff in Hnd. simpl in Hnd.
  vm_compute py_round. simpl.
  split; [reflexivity|]. split; [|tauto].
  rewrite !NoDup_cons_iff. simpl. intuition.
Qed.

Lemma select_ping_pong_four_witness :
  select_ping_pong [10; 11; 12; 13; 14; 15; 16]%nat 4 =
    Ok [10; 12; 16; 14]%nat /\
  (exists r, select_ping_pong [10; 11; 12; 13; 14; 15; 16]%nat 4 = Ok r /\
     length r = 4%nat /\ NoDup r /\ In 10%nat r /\ In 16%nat r).
Proof.
  split; [reflexivity|].
  apply (select_ping_pong_four [10; 11; 12; 13; 14; 15; 16]%nat);
    [simpl; lia|reflexivity|].
  repeat constructor; simpl; intuition lia.
Defined.

(** ** Merging cells of a row *)

Lemma fold_res_app {A B} (f : A -> B -> result A) (l1 l2 : list B) (a : A) :
  fold_res f (l1 ++ l2) a = bind (fold_res f l1 a) (fold_res f l2).
Proof.
  revert a. induction l1 as [|b t IH]; intros a; simpl; [reflexivity|].
  destruct (f a b); simpl; auto.
Qed.

Definition scan_inv (current : list CellInfo) (k : nat) (st : option Z * nat)
  : Prop :=
  match st with
  | (None, j) => k = 0%nat /\ j = 0%nat
  | (Some g, j) =>
      (j < k)%nat /\ g = gap_at current j /\
      (forall k', (k' < k)%nat -> g <= gap_at current k') /\
      (forall k', (k' < j)%nat -> g < gap_at current k')
  end.

Lemma mcc_scan_spec (current : list CellInfo) (k : nat) :
  (k < length current)%nat ->
  exists st, fold_res (mcc_scan current) (seq 0 k) (None, 0%nat) = Ok st /\
             scan_inv current k st.
Proof.
  induction k as [|k IH]; intros Hk.
  - exists (None, 0%nat). simpl. auto.
  - destruct IH as (st & Hst & Hinv); [lia|].
    rewrite seq_S, fold_res_app, Hst. simpl.
    unfold mcc_scan. rewrite (py_get_nth current (S k) cell0) by lia.
    rewrite (py_get_nth current k cell0) by lia. cbn [bind].
    fold (gap_at current k).
    destruct st as [[g|] j]; simpl in Hinv |- *.
    + destruct Hinv as (Hj & -> & Hle & Hlt).
      destruct (Z.ltb_spec (gap_at current k) (gap_at current j)).
      * eexists. split; [reflexivity|]. simpl.
        split; [lia|]. split; [reflexivity|]. split.
        -- intros k' Hk'. destruct (Nat.eq_dec k' k) as [->|Hne]; [lia|].
           specialize (Hle k'). lia.
        -- intros k' Hk'. destruct (Nat.eq_dec k' j) as [->|Hne]; [lia|].
           destruct (Nat.lt_ge_cases k' j); [specialize (Hlt k'); lia|].
           specialize (Hle k'). lia.
      * eexists. split; [reflexivity|]. simpl.
        split; [lia|]. split; [reflexivity|]. split; [|exact Hlt].
        intros k' Hk'. destruct (Nat.eq_dec k' k) as [->|Hne]; [lia|].
        apply Hle. lia.
    + destruct Hinv as [-> ->].
      eexists. split; [reflexivity|]. simpl.
      split; [lia|]. split; [reflexivity|]. split.
      * intros k' Hk'. replace k' with 0%nat by lia. lia.
      * intros k' Hk'. lia.
Qed.

Lemma merge_cells_covers (a b : CellInfo) :
  covers (merge_cells a b) a /\ covers (merge_cells a b) b.
Proof.
  unfold covers, merge_cells. cbv zeta. cbn [x y w h]. lia.
Qed.

Lemma mcc_step_spec (current : list CellInfo) :
  (2 <= length current)%nat ->
  exists j, (S j < length current)%nat /\
    (forall k, (S k < length current)%nat ->
       gap_at current j <= gap_at current k) /\
    (forall k, (k < j)%nat -> gap_at current j < gap_at current k) /\
    mcc_step current =
      Ok (firstn j current ++
          [merge_cells (nth j current cell0) (nth (S j) current cell0)] ++
          skipn (S (S j)) current).
Proof.
  intros Hlen.
  destruct (mcc_scan_spec current (length current - 1)) as (st & Hst & Hinv);
    [lia|].
  destruct st as [[g|] j]; simpl in Hinv; [|lia].
  destruct Hinv as (Hj & -> & Hle & Hlt).
  exists j. split; [lia|]. split.
  - intros k Hk. apply Hle. lia.
  - split; [exact Hlt|]. unfold mcc_step. rewrite Hst. cbn [bind snd].
    rewrite (py_get_nth current j cell0) by lia.
    rewrite (py_get_nth current (S j) cell0) by lia. reflexivity.
Qed.

Lemma mcc_step_length (current c' : list CellInfo) :
  (2 <= length current)%nat -> mcc_step current = Ok c' ->
  length c' = (length current - 1)%nat.
Proof.
  intros Hlen Hstep.
  destruct (mcc_step_spec current Hlen) as (j & Hj & _ & _ & Heq).
  rewrite Heq in Hstep.
  assert (Hc : c' = firstn j current ++
                    [merge_cells (nth j current cell0) (nth (S j) current cell0)]
                    ++ skipn (S (S j)) current) by congruence.
  rewrite Hc, !length_app, length_firstn, length_skipn. simpl. lia.
Qed.

Lemma mcc_loop_spec (target : Z) (k fuel : nat) (current : list CellInfo) :
  1 <= target -> Z.of_nat (length current) = target + Z.of_nat k ->
  (k < fuel)%nat ->
  exists res, mcc_loop fuel current target = Ok res /\
    iter_res k mcc_step current = Ok res /\
    Z.of_nat (length res) = target.
Proof.
  revert fuel current. induction k as [|k IH];
    intros fuel current Ht Hlen Hfuel; destruct fuel as [|fuel]; try lia.
  - exists current. simpl.
    rewrite (proj2 (Z.leb_le _ _)) by lia. repeat split; lia.
  - simpl. rewrite (proj2 (Z.leb_gt _ _)) by lia.
    destruct (mcc_step_spec current) as (j & Hj & _ & _ & Heq); [lia|].
    rewrite Heq. cbn [bind].
    apply IH; auto; [|lia].
    rewrite (mcc_step_length current) with (c' := _); [lia|lia|exact Heq].
Qed.

Lemma merge_cells_to_count_ok (cells : list CellInfo) (target : Z) :
  1 <= target -> target < Z.of_nat (length cells) ->
  exists res, merge_cells_to_count cells target = Ok res /\
    iter_res (length cells - Z.to_nat target) mcc_step cells = Ok res /\
    Z.of_nat (length res) = target.
Proof.
  intros Ht Hlen. unfold merge_cells_to_count.
  apply mcc_loop_spec; lia.
Qed.

(** *** C2 *)

(** C2: on a row with more cells than the target count (target >= 1),
    [_merge_cells_to_count] returns exactly [target] cells, obtained by
    [len(cells) - target] merge steps; each step merges the adjacent pair
    [j], [j + 1] whose horizontal gap is the smallest (the first such pair),
    and the merged rectangle contains both rectangles it replaces. *)
Theorem merge_cells_to_count_spec (cells : list CellInfo) (target : Z)
  (Ht : 1 <= target) (Hlen : target < Z.of_nat (length cells)) :
  (exists res, merge_cells_to_count cells target = Ok res /\
     iter_res (length cells - Z.to_nat target) mcc_step cells = Ok res /\
     Z.of_nat (length res) = target) /\
  (forall current, (2 <= length current)%nat ->
     exists j, (S j < length current)%nat /\
       (forall k, (S k < length current)%nat ->
          gap_at current j <= gap_at current k) /\
       (forall k, (k < j)%nat -> gap_at current j < gap_at current k) /\
       mcc_step current =
         Ok (firstn j current ++
             [merge_cells (nth j current cell0) (nth (S j) current cell0)] ++
             skipn (S (S j)) current) /\
       covers (merge_cells (nth j current cell0) (nth (S j) current cell0))
         (nth j current cell0) /\
       covers (merge_cells (nth j current cell0) (nth (S j) current cell0))
         (nth (S j) current cell0)).
Proof.
  split; [now apply merge_cells_to_count_ok|].
  intros current Hc.
  destruct (mcc_step_spec current Hc) as (j & Hj & Hle & Hlt & Heq).
  exists j. repeat split; auto; apply merge_cells_covers.
Qed.

Definition row_example : list CellInfo :=
  [mkCell 0 0 10 10 5 5; mkCell 12 0 10 10 17 5; mkCell 30 0 10 10 35 5;
   mkCell 41 0 10 10 46 5; mkCell 60 0 10 10 65 5].

Lemma merge_cells_to_count_spec_witness :
  merge_cells_to_count row_example 3 =
    Ok [mkCell 0 0 22 10 (22 # 2) (10 # 2); mkCell 30 0 21 10 (81 # 2) (10 # 2);
        mkCell 60 0 10 10 65 5] /\
  exists res, merge_cells_to_count row_example 3 = Ok res /\
    iter_res (length row_example - Z.to_nat 3) mcc_step row_example = Ok res /\
    Z.of_nat (length res) = 3.
Proof.
  split; [reflexivity|].
  exact (proj1 (merge_cells_to_count_spec row_example 3
                  ltac:(lia) ltac:(simpl; lia))).
Defined.

(** ** Grid assignment *)

Lemma insert_by_perm (k : CellInfo -> Q) (c : CellInfo) (l : list CellInfo) :
  Permutation (insert_by k c l) (c :: l).
Proof.
  induction l as [|d t IH]; simpl; [reflexivity|].
  destruct (Qltb (k c) (k d)); [reflexivity|].
  rewrite IH. apply perm_swap.
Qed.

Lemma sort_by_perm (k : CellInfo -> Q) (l : list CellInfo) :
  Permutation (sort_by k l) l.
Proof.
  unfold sort_by. rewrite <- (app_nil_l l) at 2.
  generalize (@nil CellInfo) as acc. induction l as [|c t IH]; intros acc.
  - simpl. now rewrite app_nil_r.
  - simpl. rewrite IH, insert_by_perm. simpl.
    apply Permutation_middle.
Qed.

Lemma sort_by_length (k : CellInfo -> Q) (l : list CellInfo) :
  length (sort_by k l) = length l.
Proof. apply Permutation_length, sort_by_perm. Qed.

Lemma combine_seq_enum {A B} (l1 : list A) (l2 : list B) (s : nat)
  (d1 : A) (d2 : B) :
  combine (seq s (length l1)) (combine l1 l2) =
  map (fun i => (i, (nth (i - s) l1 d1, nth (i - s) l2 d2)))
      (seq s (Nat.min (length l1) (length l2))).
Proof.
  revert l2 s. induction l1 as [|a t IH]; intros l2 s; [reflexivity|].
  destruct l2 as [|b u]; [reflexivity|].
  simpl. rewrite Nat.sub_diag. f_equal. rewrite IH.
  apply map_ext_in. intros i Hi. apply in_seq in Hi.
  replace (i - s)%nat with (S (i - S s)) by lia. reflexivity.
Qed.

Section AssignLoop.
Variable rows0 : list (list CellInfo).
Variable fpr : list Z.
Hypothesis Hfpr : Forall (fun e => 1 <= e) fpr.
Let L := length rows0.
Let M := Nat.min L (length fpr).

Definition assign_inv (t : nat) (st : list (list CellInfo) * list log_line)
  : Prop :=
  let '(rs, logs) := st in
  length rs = L /\
  (forall i, (t <= i)%nat -> nth i rs [] = nth i rows0 []) /\
  (forall i, (i < t)%nat ->
     Z.of_nat (length (nth i rs [])) =
       Z.min (Z.of_nat (length (nth i rows0 []))) (nth i fpr 0) /\
     (Z.of_nat (length (nth i rows0 [])) <> nth i fpr 0 ->
      exists d, In (LMerging i d (nth i fpr 0)) logs \/
                In (LWarning i d (nth i fpr 0)) logs)).

Lemma assign_step_ok (t : nat) (st : list (list CellInfo) * list log_line) :
  (t < M)%nat -> assign_inv t st ->
  exists st', assign_step st (t, (nth t rows0 [], nth t fpr 0)) = Ok st' /\
              assign_inv (S t) st'.
Proof.
  intros Ht. destruct st as [rs logs]. intros (Hlen & Hrest & Hdone).
  assert (He : 1 <= nth t fpr 0).
  { rewrite Forall_forall in Hfpr. apply Hfpr, nth_In. unfold M in Ht. lia. }
  set (row := nth t rows0 []). set (e := nth t fpr 0).
  assert (Hlog : forall i ev l, (i < t)%nat ->
            (exists d, In (LMerging i d ev) logs \/ In (LWarning i d ev) logs) ->
            exists d, In (LMerging i d ev) (logs ++ l) \/
                      In (LWarning i d ev) (logs ++ l)).
  { intros i ev l _ (d' & Hin). exists d'.
    destruct Hin; [left|right]; apply in_or_app; auto. }
  unfold assign_step.
  destruct (Z.ltb_spec e (Z.of_nat (length row))) as [Hgt|Hle].
  - destruct (merge_cells_to_count_ok row e) as (mrow & Hm & _ & Hml);
      auto.
    rewrite Hm. cbn [bind]. unfold py_set.
    rewrite (proj2 (Nat.ltb_lt t (length rs))) by (unfold M in Ht; lia).
    cbn [bind]. eexists. split; [reflexivity|].
    split; [rewrite list_set_length; auto|]. split.
    + intros i Hi. rewrite nth_list_set by (unfold M in Ht; lia).
      destruct (Nat.eqb_spec i t); [lia|]. apply Hrest. lia.
    + intros i Hi. rewrite nth_list_set by (unfold M in Ht; lia).
      destruct (Nat.eqb_spec i t) as [->|Hne].
      * split; [fold row e; lia|]. intros _.
        exists (length row). left. apply in_or_app. right. now left.
      * destruct (Hdone i) as [Hl Hlg]; [lia|]. split; auto.
        intros Hneq. apply (Hlog i); [lia|]. auto.
  - destruct (Z.ltb_spec (Z.of_nat (length row)) e) as [Hlt|Hge].
    + eexists. split; [reflexivity|].
      split; auto. split; [intros i Hi; apply Hrest; lia|].
      intros i Hi. destruct (Nat.eq_dec i t) as [->|Hne].
      * rewrite Hrest by lia. split; [fold row e; lia|]. intros _.
        exists (length row). right. apply in_or_app. right. now left.
      * destruct (Hdone i) as [Hl Hlg]; [lia|]. split; auto.
        intros Hneq. apply (Hlog i); [lia|]. auto.
    + eexists. split; [reflexivity|].
      split; auto. split; [intros i Hi; apply Hrest; lia|].
      intros i Hi. destruct (Nat.eq_dec i t) as [->|Hne].
      * rewrite Hrest by lia. split; [fold row e; lia|].
        intros Hneq. exfalso. fold row e in Hneq. lia.
      * apply Hdone. lia.
Qed.

Lemma assign_loop_ok (k t : nat) (st : list (list CellInfo) * list log_line) :
  (t + k = M)%nat -> assign_inv t st ->
  exists st',
    fold_res assign_step
      (map (fun i => (i, (nth i rows0 [], nth i fpr 0))) (seq t k)) st
      = Ok st' /\ assign_inv M st'.
Proof.
  revert t st. induction k as [|k IH]; intros t st Htk Hinv; simpl.
  - exists st. split; auto. now replace M with t by lia.
  - destruct (assign_step_ok t st) as (st1 & -> & Hinv1); [lia|auto|].
    cbn [bind]. apply IH; auto. lia.
Qed.

Lemma assign_loop_spec :
  exists rs logs,
    fold_res assign_step
      (combine (seq 0 (length rows0)) (combine rows0 fpr)) (rows0, [])
      = Ok (rs, logs) /\ assign_inv M (rs, logs).
Proof.
  rewrite (combine_seq_enum rows0 fpr 0 [] 0).
  rewrite (map_ext_in _ (fun i => (i, (nth i rows0 [], nth i fpr 0))));
    [|intros i _; now rewrite Nat.sub_0_r].
  destruct (assign_loop_ok M 0 (rows0, [])) as ([rs logs] & Hrun & Hinv).
  - reflexivity.
  - split; [reflexivity|]. split; [reflexivity|]. intros i Hi; lia.
  - exists rs, logs. split; auto.
Qed.
End AssignLoop.

Lemma nth_map_sort_by (k : CellInfo -> Q) (l : list (list CellInfo)) (i : nat) :
  nth i (map (sort_by k) l) [] = sort_by k (nth i l []).
Proof.
  revert i. induction l as [|r t IH]; intros [|i]; simpl; auto.
Qed.

Lemma fold_res_ok_or_err {A B} (f : A -> B -> result A) (xs : list B) (a : A) (e : exc) :
  (forall s x, In x xs -> (exists s', f s x = Ok s') \/ f s x = Err e) ->
  (exists r, fold_res f xs a = Ok r) \/ fold_res f xs a = Err e.
Proof.
  revert a. induction xs as [|x t IH]; intros a Hstep; [left; exists a; reflexivity|].
  simpl. destruct (Hstep a x (or_introl eq_refl)) as [(s' & Hs')|Hs']; rewrite Hs'; cbn [bind];
    [|right; reflexivity].
  apply IH. intros; apply Hstep; now right.
Qed.

Lemma mcc_loop_ok_or_index (fuel : nat) (current : list CellInfo) (target : Z) :
  (length current < fuel)%nat ->
  (exists r, mcc_loop fuel current target = Ok r) \/
  mcc_loop fuel current target = Err IndexError.
Proof.
  revert current. induction fuel as [|fuel IH]; intros current Hf; [lia|].
  simpl. destruct (Z.leb_spec (Z.of_nat (length current)) target) as [Hle|Hgt].
  { left. exists current. reflexivity. }
  destruct (Nat.le_gt_cases 2 (length current)) as [H2|H2].
  - destruct (mcc_step_spec current H2) as (j & _ & _ & _ & Heq).
    rewrite Heq. cbn [bind]. apply IH.
    rewrite (mcc_step_length current _ H2 Heq). lia.
  - right. unfold mcc_step.
    replace (length current - 1)%nat with 0%nat by lia. cbn [seq fold_res bind snd].
    destruct current as [|c [|d t]]; [reflexivity|reflexivity|simpl in H2; lia].
Qed.

Lemma assign_step_ok_or_index (st : list (list CellInfo) * list log_line)
  (ire : nat * (list CellInfo * Z)) :
  (exists st', assign_step st ire = Ok st') \/ assign_step st ire = Err IndexError.
Proof.
  destruct st as [rows logs]. destruct ire as [i [row expected]]. unfold assign_step.
  destruct (expected <? Z.of_nat (length row)).
  - unfold merge_cells_to_count.
    destruct (mcc_loop_ok_or_index (S (length row)) row expected ltac:(lia))
      as [(m & Hm)|Hm]; rewrite Hm; cbn [bind]; [|right; reflexivity].
    unfold py_set. destruct (Nat.ltb i (length rows)); cbn [bind];
      [left; eexists; reflexivity|right; reflexivity].
  - destruct (Z.of_nat (length row) <? expected); left; eexists; reflexivity.
Qed.

Section AssignExact.
Variable rows0 : list (list CellInfo).
Variable fpr : list Z.
Hypothesis Hfpr : Forall (fun e => 1 <= e) fpr.

(** The line printed for row [i], if any. *)
Definition row_log (i : nat) : list log_line :=
  let row := nth i rows0 [] in
  let e := nth i fpr 0 in
  if e <? Z.of_nat (length row) then [LMerging i (length row) e]
  else if Z.of_nat (length row) <? e then [LWarning i (length row) e]
  else [].

(** Row [i] of the result, [g], once the loop has passed it. *)
Definition row_done (i : nat) (g : list CellInfo) : Prop :=
  (nth i fpr 0 < Z.of_nat (length (nth i rows0 [])) ->
   merge_cells_to_count (nth i rows0 []) (nth i fpr 0) = Ok g) /\
  (Z.of_nat (length (nth i rows0 [])) <= nth i fpr 0 -> g = nth i rows0 []).

Definition exact_inv (t : nat) (st : list (list CellInfo) * list log_line) : Prop :=
  let '(rs, logs) := st in
  length rs = length rows0 /\
  (forall i, (t <= i)%nat -> nth i rs [] = nth i rows0 []) /\
  (forall i, (i < t)%nat -> row_done i (nth i rs [])) /\
  logs = flat_map row_log (seq 0 t).

Lemma exact_step_ok (t : nat) (st : list (list CellInfo) * list log_line) :
  (t < Nat.min (length rows0) (length fpr))%nat -> exact_inv t st ->
  exists st', assign_step st (t, (nth t rows0 [], nth t fpr 0)) = Ok st' /\
              exact_inv (S t) st'.
Proof.
  intros Ht. destruct st as [rs logs]. intros (Hlen & Hrest & Hdone & Hlogs).
  assert (He : 1 <= nth t fpr 0).
  { rewrite Forall_forall in Hfpr. apply Hfpr, nth_In. lia. }
  assert (Hlogs' : forall l, row_log t = l -> logs ++ l = flat_map row_log (seq 0 (S t))).
  { intros l Hl. rewrite seq_S, flat_map_app, <- Hlogs. simpl. rewrite app_nil_r, Hl.
    reflexivity. }
  unfold assign_step.
  destruct (Z.ltb_spec (nth t fpr 0) (Z.of_nat (length (nth t rows0 [])))) as [Hgt|Hle].
  - destruct (merge_cells_to_count_ok (nth t rows0 []) (nth t fpr 0)) as (mrow & Hm & _ & _);
      [lia|lia|].
    rewrite Hm. cbn [bind]. unfold py_set.
    rewrite (proj2 (Nat.ltb_lt t (length rs))) by lia.
    cbn [bind]. eexists. split; [reflexivity|].
    split; [rewrite list_set_length; exact Hlen|]. split; [|split].
    + intros i Hi. rewrite nth_list_set by lia.
      destruct (Nat.eqb_spec i t); [lia|]. apply Hrest. lia.
    + intros i Hi. rewrite nth_list_set by lia.
      destruct (Nat.eqb_spec i t) as [->|Hne].
      * split; [intros _; exact Hm|intros; lia].
      * apply Hdone. lia.
    + apply Hlogs'. unfold row_log. rewrite (proj2 (Z.ltb_lt _ _) Hgt). reflexivity.
  - assert (Hkeep : forall l, row_log t = l ->
              exact_inv (S t) (rs, logs ++ l)).
    { intros l Hl. split; [exact Hlen|]. split; [intros i Hi; apply Hrest; lia|]. split.
      - intros i Hi. destruct (Nat.eq_dec i t) as [->|Hne].
        + rewrite Hrest by lia. split; [intros; lia|intros; reflexivity].
        + apply Hdone. lia.
      - apply Hlogs', Hl. }
    unfold row_log in Hkeep. rewrite (proj2 (Z.ltb_ge _ _) Hle) in Hkeep.
    destruct (Z.of_nat (length (nth t rows0 [])) <? nth t fpr 0).
    + eexists. split; [reflexivity|]. apply Hkeep. reflexivity.
    + exists (rs, logs). split; [reflexivity|].
      rewrite <- (app_nil_r logs). apply Hkeep. reflexivity.
Qed.

Lemma exact_loop_ok (k t : nat) (st : list (list CellInfo) * list log_line) :
  (t + k = Nat.min (length rows0) (length fpr))%nat -> exact_inv t st ->
  exists st',
    fold_res assign_step
      (map (fun i => (i, (nth i rows0 [], nth i fpr 0))) (seq t k)) st
      = Ok st' /\ exact_inv (Nat.min (length rows0) (length fpr)) st'.
Proof.
  revert t st. induction k as [|k IH]; intros t st Htk Hinv; simpl.
  - exists st. split; [reflexivity|]. rewrite <- Htk, Nat.add_0_r. exact Hinv.
  - destruct (exact_step_ok t st) as (st1 & -> & Hinv1); [lia|exact Hinv|].
    cbn [bind]. apply IH; [lia|exact Hinv1].
Qed.

Lemma exact_loop_spec :
  exists rs logs,
    fold_res assign_step
      (combine (seq 0 (length rows0)) (combine rows0 fpr)) (rows0, [])
      = Ok (rs, logs) /\ exact_inv (Nat.min (length rows0) (length fpr)) (rs, logs).
Proof.
  rewrite (combine_seq_enum rows0 fpr 0 [] 0).
  rewrite (map_ext_in _ (fun i => (i, (nth i rows0 [], nth i fpr 0))));
    [|intros i _; now rewrite Nat.sub_0_r].
  destruct (exact_loop_ok (Nat.min (length rows0) (length fpr)) 0 (rows0, []))
    as ([rs logs] & Hrun & Hinv).
  - reflexivity.
  - split; [reflexivity|]. split; [reflexivity|]. split; [intros i Hi; lia|reflexivity].
  - exists rs, logs. split; [exact Hrun|exact Hinv].
Qed.
End AssignExact.

(** *** C1 *)

(** C1 (as amended): [assign_cells_to_grid] raises a [ValueError] exactly
    when no cell was detected or when the number of rows formed by
    clustering the cells' [center_y] (gap > 200 px) differs from
    [expected_rows]. When every [frames_per_row] entry is at least 1 and
    neither holds, it returns normally. Let [rows] be the clustered rows,
    each sorted by [center_x]. Row [i] of the result is then
    [_merge_cells_to_count(rows[i], frames_per_row[i])], which has exactly
    [frames_per_row[i]] cells, when the row has more cells than that. Every
    other row is [rows[i]] itself: one with fewer cells than expected, one
    with exactly as many, and one past the end of [frames_per_row]. The
    printed lines are, in row order, one "merging" notice for each merged
    row and one "WARNING" for each row with too few cells. *)
Theorem assign_cells_to_grid_raises (cells : list CellInfo)
  (expected_rows : Z) (frames_per_row : list Z) :
  (assign_cells_to_grid cells expected_rows frames_per_row = Err ValueError
   <-> cells = [] \/
       Z.of_nat (length (row_clusters cells)) <> expected_rows) /\
  (Forall (fun e => 1 <= e) frames_per_row -> cells <> [] ->
   Z.of_nat (length (row_clusters cells)) = expected_rows ->
   let rows := map (sort_by center_x) (row_clusters cells) in
   exists grid logs,
     assign_cells_to_grid cells expected_rows frames_per_row = Ok (grid, logs) /\
     length grid = length rows /\
     (forall i, (i < length rows)%nat ->
        ((i < length frames_per_row)%nat ->
         nth i frames_per_row 0 < Z.of_nat (length (nth i rows [])) ->
         merge_cells_to_count (nth i rows []) (nth i frames_per_row 0) = Ok (nth i grid []) /\
         Z.of_nat (length (nth i grid [])) = nth i frames_per_row 0) /\
        ((length frames_per_row <= i)%nat \/
         Z.of_nat (length (nth i rows [])) <= nth i frames_per_row 0 ->
         nth i grid [] = nth i rows [])) /\
     logs = flat_map (fun i =>
              let row := nth i rows [] in
              let e := nth i frames_per_row 0 in
              if e <? Z.of_nat (length row) then [LMerging i (length row) e]
              else if Z.of_nat (length row) <? e then [LWarning i (length row) e]
              else [])
            (seq 0 (Nat.min (length rows) (length frames_per_row)))).
Proof.
  split.
  - destruct cells as [|c t].
    + split; [intros _; left; reflexivity|intros _; reflexivity].
    + unfold assign_cells_to_grid.
      destruct (Z.eqb_spec (Z.of_nat (length (row_clusters (c :: t)))) expected_rows)
        as [Heq|Hne]; cbn [negb].
      * split; [|intros [Hc|Hc]; [discriminate|contradiction]].
        intros Herr.
        destruct (fold_res_ok_or_err assign_step
                    (combine (seq 0 (length (map (sort_by center_x) (row_clusters (c :: t)))))
                       (combine (map (sort_by center_x) (row_clusters (c :: t))) frames_per_row))
                    (map (sort_by center_x) (row_clusters (c :: t)), []) IndexError)
          as [(r & Hr)|Hr].
        -- intros st ire _. apply assign_step_ok_or_index.
        -- rewrite Hr in Herr. discriminate.
        -- rewrite Hr in Herr. discriminate.
      * split; [intros _; right; exact Hne|intros _; reflexivity].
  - intros Hfpr Hne Heq rows.
    destruct cells as [|c t]; [contradiction|].
    unfold assign_cells_to_grid.
    rewrite (proj2 (Z.eqb_eq _ _) Heq). cbn [negb].
    destruct (exact_loop_spec rows frames_per_row Hfpr)
      as (rs & logs & Hrun & Hlen & Hrest & Hdone & Hlogs).
    fold rows. rewrite Hrun.
    exists rs, logs. split; [reflexivity|]. split; [exact Hlen|]. split; [|exact Hlogs].
    intros i Hi. split.
    + intros Hif Hgt.
      destruct (Hdone i ltac:(lia)) as [Hm _]. specialize (Hm Hgt).
      split; [exact Hm|].
      destruct (merge_cells_to_count_ok (nth i rows []) (nth i frames_per_row 0))
        as (m & Hm' & _ & Hml).
      * rewrite Forall_forall in Hfpr. apply Hfpr, nth_In. exact Hif.
      * exact Hgt.
      * rewrite Hm in Hm'. injection Hm' as <-. exact Hml.
    + intros [Hge|Hle].
      * apply Hrest. lia.
      * destruct (Nat.lt_ge_cases i (length frames_per_row)) as [Hif|Hge].
        -- destruct (Hdone i ltac:(lia)) as [_ Hk]. exact (Hk Hle).
        -- apply Hrest. lia.
Qed.

Definition cells5 : list CellInfo :=
  [mkCell 30 400 10 10 35 405; mkCell 0 0 10 10 5 5; mkCell 12 5 10 10 17 10;
   mkCell 0 410 10 10 5 415; mkCell 60 3 10 10 65 8].

(** Two rows of 3 and 2 cells expected to hold 2 and 3 frames: the first
    is merged, the second kept with a warning. *)
Lemma assign_cells_to_grid_raises_witness :
  Forall (fun e => 1 <= e) [2; 3] /\ cells5 <> [] /\
  Z.of_nat (length (row_clusters cells5)) = 2 /\
  exists grid,
    assign_cells_to_grid cells5 2 [2; 3] = Ok (grid, [LMerging 0 3 2; LWarning 1 2 3]).
Proof.
  split; [repeat constructor; lia|]. split; [discriminate|]. split; [reflexivity|].
  destruct (proj2 (assign_cells_to_grid_raises cells5 2 [2; 3])
              ltac:(repeat constructor; lia) ltac:(discriminate) ltac:(reflexivity))
    as (grid & logs & Hres & _ & _ & Hlogs).
  exists grid. rewrite Hres, Hlogs. reflexivity.
Defined.

(** C1 as stated fails: a single detected cell with two expected rows
    makes the assigner raise ([Row count mismatch]). *)
Lemma assign_cells_to_grid_raises_counterexample :
  [mkCell 0 0 10 10 5 5] <> [] /\
  assign_cells_to_grid [mkCell 0 0 10 10 5 5] 2 [1; 1] = Err ValueError.
Proof. split; [discriminate|reflexivity]. Qed.

(** ** Separator line finder *)

Lemma spaced_snoc (g x : Z) (l : list Z) :
  spaced g l -> (forall d, l <> [] -> last l d + g <= x) -> spaced g (l ++ [x]).
Proof.
  induction l as [|a t IH]; intros Hs Hl; [exact I|].
  destruct t as [|b t].
  - simpl. split; [apply (Hl 0); discriminate|exact I].
  - destruct Hs as [Hab Hs]. simpl. split; [exact Hab|].
    apply IH; [exact Hs|]. intros d _. apply (Hl d). discriminate.
Qed.

Lemma spaced_snoc_mono (g x y : Z) (l : list Z) :
  spaced g (l ++ [x]) -> x <= y -> spaced g (l ++ [y]).
Proof.
  induction l as [|a t IH]; intros Hs Hxy; [exact I|].
  destruct t as [|b t].
  - simpl in *. destruct Hs. split; [lia|exact I].
  - simpl in *. destruct Hs as [Hab Hs]. split; [exact Hab|]. apply IH; assumption.
Qed.

Lemma spaced_nth (g : Z) (l : list Z) :
  spaced g l -> forall i, (S i < length l)%nat -> nth i l 0 + g <= nth (S i) l 0.
Proof.
  induction l as [|a t IH]; intros Hs i Hi; [simpl in Hi; lia|].
  destruct t as [|b t]; [simpl in Hi; lia|].
  destruct Hs as [Hab Hs]. destruct i as [|i]; [exact Hab|].
  apply (IH Hs i). simpl in *. lia.
Qed.

Lemma last_in (l : list Z) (d : Z) : l <> [] -> In (last l d) l.
Proof.
  induction l as [|a t IH]; intros H; [congruence|].
  destruct t as [|b t]; [left; reflexivity|].
  right. apply IH. discriminate.
Qed.

(** Two maximal runs ending at the same position start at the same position. *)
Lemma run_start_unique (ab : list bool) (s s' e : Z) :
  0 <= s < e -> 0 <= s' < e ->
  (forall k, s <= k < e -> abit ab k = true) ->
  (forall k, s' <= k < e -> abit ab k = true) ->
  (s = 0 \/ abit ab (s - 1) = false) ->
  (s' = 0 \/ abit ab (s' - 1) = false) -> s = s'.
Proof.
  intros Hs Hs' Ht Ht' Hb Hb'.
  destruct (Z.lt_trichotomy s s') as [Hlt|[Heq|Hgt]]; [|exact Heq|].
  - destruct Hb' as [Hb'|Hb']; [lia|]. rewrite (Ht (s' - 1)) in Hb'; [discriminate|lia].
  - destruct Hb as [Hb|Hb]; [lia|]. rewrite (Ht' (s - 1)) in Hb; [discriminate|lia].
Qed.

Section RunCenters.

Variable ab : list bool.
Let n := Z.of_nat (length ab).

Definition flc_inv (k : Z) (st : list Z * bool * Z) : Prop :=
  let '(centers, in_run, start) := st in
  (forall c, In c centers <-> exists s e, e < k /\ is_run ab s e /\ c = (s + e) / 2) /\
  (in_run = true -> 0 <= start < k /\ (forall j, start <= j < k -> abit ab j = true) /\
                    (start = 0 \/ abit ab (start - 1) = false)) /\
  (in_run = false -> k = 0 \/ abit ab (k - 1) = false) /\
  spaced 1 centers /\ (forall c, In c centers -> c < k /\ (in_run = true -> c < start)) /\
  (centers <> [] \/ in_run = true <-> exists j, 0 <= j < k /\ abit ab j = true).

Lemma flc_inv_step (k : Z) (st : list Z * bool * Z) :
  0 <= k < n -> flc_inv k st -> flc_inv (k + 1) (flc_step ab st k).
Proof.
  destruct st as [[centers in_run] start].
  intros Hk (HA & HB & HC & HD & HD' & HE).
  unfold flc_step. destruct (nth (Z.to_nat k) ab false) eqn:Ea, in_run; cbn [andb negb].
  - (* above, in a run: unchanged *)
    destruct (HB eq_refl) as (Hst & Htr & Hbd).
    split; [|split; [|split; [|split; [|split]]]].
    + intros c. rewrite HA. split; intros (s & e & He & Hr & Hc); exists s, e; split; auto.
      * lia.
      * destruct (Z.eq_dec e k) as [->|Hne]; [|lia].
        destruct Hr as (_ & _ & _ & _ & [Hn|Hf]); [unfold n in *; lia|].
        unfold abit in Hf. congruence.
    + intros _. split; [lia|]. split; [|exact Hbd].
      intros j Hj. destruct (Z.eq_dec j k) as [->|Hne]; [exact Ea|]. apply Htr. lia.
    + discriminate.
    + exact HD.
    + intros c Hc. destruct (HD' c Hc) as [H1 H2]. split; [lia|exact H2].
    + split; intros _; [|right; reflexivity]. exists k. split; [lia|exact Ea].
  - (* above, run starts at k *)
    split; [|split; [|split; [|split; [|split]]]].
    + intros c. rewrite HA. split; intros (s & e & He & Hr & Hc); exists s, e; split; auto.
      * lia.
      * destruct (Z.eq_dec e k) as [->|Hne]; [|lia].
        destruct Hr as (_ & _ & _ & _ & [Hn|Hf]); [unfold n in *; lia|].
        unfold abit in Hf. congruence.
    + intros _. split; [lia|]. split.
      * intros j Hj. replace j with k by lia. exact Ea.
      * destruct (HC eq_refl) as [H0|H0]; [left; exact H0|right; exact H0].
    + discriminate.
    + exact HD.
    + intros c Hc. destruct (HD' c Hc) as [H1 _]. split; lia.
    + split; intros _; [|right; reflexivity]. exists k. split; [lia|exact Ea].
  - (* below, end of the run [start, k) *)
    destruct (HB eq_refl) as (Hst & Htr & Hbd).
    assert (Hrun : is_run ab start k).
    { unfold is_run. split; [lia|]. split; [unfold n in *; lia|].
      split; [exact Htr|]. split; [exact Hbd|right; exact Ea]. }
    split; [|split; [|split; [|split; [|split]]]].
    + intros c. rewrite in_app_iff, HA. split.
      * intros [(s & e & He & Hr & Hc)|[<-|[]]].
        -- exists s, e. split; [lia|auto].
        -- exists start, k. split; [lia|auto].
      * intros (s & e & He & Hr & Hc). destruct (Z.eq_dec e k) as [->|Hne].
        -- right. left. destruct Hr as (Hse & _ & Htr' & Hbd' & _).
           rewrite Hc. f_equal. f_equal.
           apply (run_start_unique ab start s k); auto; lia.
        -- left. exists s, e. split; [lia|auto].
    + discriminate.
    + intros _. right. replace (k + 1 - 1) with k by lia. exact Ea.
    + apply spaced_snoc; [exact HD|]. intros d Hne.
      destruct (HD' _ (last_in centers d Hne)) as [_ H2]. specialize (H2 eq_refl).
      apply Z.le_trans with start; [lia|]. apply Z.div_le_lower_bound; lia.
    + intros c Hc. apply in_app_iff in Hc. split; [|discriminate].
      destruct Hc as [Hc|[<-|[]]]; [destruct (HD' c Hc); lia|].
      apply Z.div_lt_upper_bound; lia.
    + split; intros _.
      * exists start. split; [lia|apply Htr; lia].
      * left. destruct centers; discriminate.
  - (* below, no run: unchanged *)
    split; [|split; [|split; [|split; [|split]]]].
    + intros c. rewrite HA. split; intros (s & e & He & Hr & Hc); exists s, e; split; auto.
      * lia.
      * destruct (Z.eq_dec e k) as [->|Hne]; [|lia].
        destruct Hr as ((Hs0 & Hsk) & _ & Htr & _ & _).
        destruct (HC eq_refl) as [H0|H0]; [lia|]. rewrite Htr in H0; [discriminate|lia].
    + discriminate.
    + intros _. right. replace (k + 1 - 1) with k by lia. exact Ea.
    + exact HD.
    + intros c Hc. destruct (HD' c Hc) as [H1 H2]. split; [lia|exact H2].
    + rewrite HE. split; intros (j & Hj & Hab).
      * exists j. split; [lia|exact Hab].
      * exists j. split; [|exact Hab]. destruct (Z.eq_dec j k) as [->|Hne]; [|lia].
        unfold abit in Hab. congruence.
Qed.

Lemma flc_loop_inv (k : nat) :
  (k <= length ab)%nat ->
  flc_inv (Z.of_nat k) (fold_left (flc_step ab) (map Z.of_nat (seq 0 k)) ([], false, 0)).
Proof.
  induction k as [|k IH]; intros Hk.
  - simpl. split; [|split; [|split; [|split; [|split]]]].
    + intros c. split; [intros []|]. intros (s & e & He & Hr & _).
      destruct Hr as (Hse & _). lia.
    + discriminate.
    + intros _. left. reflexivity.
    + exact I.
    + intros c [].
    + split; [intros [H|H]; [congruence|discriminate]|]. intros (j & Hj & _). lia.
  - rewrite seq_S, map_app, fold_left_app. cbn [fold_left map].
    replace (Z.of_nat (S k)) with (Z.of_nat (0 + k) + 1) by lia.
    apply flc_inv_step; [unfold n; lia|]. apply IH. lia.
Qed.

End RunCenters.

Lemma run_centers_spec (ratio : list Q) (threshold : Q) :
  let ab := above ratio threshold in
  (forall c, In c (run_centers ratio threshold) <->
             exists s e, is_run ab s e /\ c = (s + e) / 2) /\
  spaced 1 (run_centers ratio threshold) /\
  (run_centers ratio threshold = [] <->
   forall j, 0 <= j < Z.of_nat (length ab) -> abit ab j = false).
Proof.
  intros ab. unfold run_centers. fold ab.
  unfold zrange. rewrite Nat2Z.id.
  pose proof (flc_loop_inv ab (length ab) (le_n _)) as Hinv.
  destruct (fold_left (flc_step ab) (map Z.of_nat (seq 0 (length ab))) ([], false, 0))
    as [[centers in_run] start].
  destruct Hinv as (HA & HB & HC & HD & HD' & HE).
  set (n := Z.of_nat (length ab)) in *.
  assert (Hrun_le : forall s e, is_run ab s e -> e <= n) by (intros s e Hr; apply Hr).
  destruct in_run.
  - destruct (HB eq_refl) as (Hst & Htr & Hbd).
    assert (Hrun : is_run ab start n).
    { unfold is_run. split; [lia|]. split; [lia|].
      split; [exact Htr|]. split; [exact Hbd|left; reflexivity]. }
    split; [|split].
    + intros c. rewrite in_app_iff, HA. split.
      * intros [(s & e & He & Hr & Hc)|[<-|[]]].
        -- exists s, e. auto.
        -- exists start, n. auto.
      * intros (s & e & Hr & Hc). destruct (Z.eq_dec e n) as [->|Hne].
        -- right. left. destruct Hr as (Hse & _ & Htr' & Hbd' & _).
           rewrite Hc. f_equal. f_equal.
           apply (run_start_unique ab start s n); auto; lia.
        -- left. exists s, e. split; [|auto]. specialize (Hrun_le s e Hr). lia.
    + apply spaced_snoc; [exact HD|]. intros d Hne.
      destruct (HD' _ (last_in centers d Hne)) as [_ H2]. specialize (H2 eq_refl).
      apply Z.le_trans with start; [lia|]. apply Z.div_le_lower_bound; lia.
    + split; [intros H; destruct centers; discriminate|].
      intros Hno. exfalso. specialize (Htr start ltac:(lia)).
      rewrite Hno in Htr; [discriminate|lia].
  - split; [|split].
    + intros c. rewrite HA. split.
      * intros (s & e & He & Hr & Hc). exists s, e. auto.
      * intros (s & e & Hr & Hc). exists s, e. split; [|auto].
        destruct (Z.eq_dec e n) as [->|Hne]; [|specialize (Hrun_le s e Hr); lia].
        exfalso. destruct Hr as (Hse & _ & Htr & _ & _).
        destruct (HC eq_refl) as [H0|H0]; [lia|]. rewrite Htr in H0; [discriminate|lia].
    + exact HD.
    + split.
      * intros -> j Hj. destruct (abit ab j) eqn:Ej; [|reflexivity].
        exfalso. destruct (proj2 HE (ex_intro _ j (conj Hj Ej))) as [H|H]; congruence.
      * intros Hno. destruct centers as [|c t]; [reflexivity|].
        exfalso. assert (Hne : c :: t <> []) by discriminate.
        destruct (proj1 HE (or_introl Hne)) as (j & Hj & Ej).
        rewrite Hno in Ej; [discriminate|exact Hj].
Qed.

Lemma merge_centers_spaced (g : Z) (cs done : list Z) (last p : Z) :
  spaced g (done ++ [last]) -> last <= p -> spaced 1 (p :: cs) ->
  spaced g (merge_centers g done last cs) /\ merge_centers g done last cs <> [].
Proof.
  revert done last p. induction cs as [|c t IH]; intros done last p Hs Hlp Hc.
  - split; [exact Hs|]. simpl. destruct done; discriminate.
  - destruct Hc as [Hpc Ht]. simpl. destruct (Z.ltb_spec (c - last) g).
    + apply (IH done ((last + c) / 2) c); [|apply Z.div_le_upper_bound; lia|exact Ht].
      apply (spaced_snoc_mono g last); [exact Hs|]. apply Z.div_le_lower_bound; lia.
    + apply (IH (done ++ [last]) c c); [|lia|exact Ht].
      apply spaced_snoc; [exact Hs|]. intros d _. rewrite last_last. lia.
Qed.

Lemma above_all_false (ratio : list Q) (threshold : Q) :
  (forall j, 0 <= j < Z.of_nat (length (above ratio threshold)) ->
             abit (above ratio threshold) j = false) <->
  Forall (fun r => r <= threshold)%Q ratio.
Proof.
  unfold above, abit. rewrite length_map, Forall_forall. split.
  - intros H r Hr. apply In_nth with (d := 0%Q) in Hr. destruct Hr as (j & Hj & <-).
    specialize (H (Z.of_nat j) ltac:(lia)). rewrite Nat2Z.id in H.
    rewrite nth_indep with (d' := Qltb threshold 0) in H by (rewrite length_map; exact Hj).
    rewrite map_nth in H. apply Qltb_false. exact H.
  - intros H j Hj.
    rewrite nth_indep with (d' := Qltb threshold 0) by (rewrite length_map; lia).
    rewrite map_nth. apply Qltb_false. apply H. apply nth_In. lia.
Qed.

(** C7 (amended). [_find_line_centers(ratio, threshold)] with the default
    merge gap of 10 is a total function. The run centres it first collects
    are exactly the midpoints [(s + e) // 2] of the maximal runs [[s, e)] of
    positions whose ratio exceeds the threshold, in increasing order. The
    merge pass then scans them once from left to right: a centre less than
    10 px beyond the current last output line is folded into that line (the
    line becomes the floor average of the two), otherwise it starts a new
    line. The result is empty exactly when no ratio exceeds the threshold,
    and consecutive output lines are at least 10 px apart. *)
Theorem find_line_centers_spec (ratio : list Q) (threshold : Q) :
  let ab := above ratio threshold in
  let out := find_line_centers ratio threshold 10 in
  (forall c, In c (run_centers ratio threshold) <->
             exists s e, is_run ab s e /\ c = (s + e) / 2) /\
  (forall i, (S i < length (run_centers ratio threshold))%nat ->
             nth i (run_centers ratio threshold) 0 < nth (S i) (run_centers ratio threshold) 0) /\
  out = match run_centers ratio threshold with
        | [] => []
        | c0 :: t => merge_centers 10 [] c0 t
        end /\
  (out = [] <-> Forall (fun r => r <= threshold)%Q ratio) /\
  (forall i, (S i < length out)%nat -> nth i out 0 + 10 <= nth (S i) out 0).
Proof.
  intros ab out.
  destruct (run_centers_spec ratio threshold) as (HA & HD & HE).
  fold ab in HA, HE.
  assert (Hout : out = match run_centers ratio threshold with
                       | [] => []
                       | c0 :: t => merge_centers 10 [] c0 t
                       end).
  { unfold out, find_line_centers. destruct (run_centers ratio threshold) as [|c [|d t]]; reflexivity. }
  split; [exact HA|]. split.
  { intros i Hi. pose proof (spaced_nth 1 _ HD i Hi). lia. }
  split; [exact Hout|]. split.
  - rewrite <- above_all_false. fold ab. rewrite <- HE, Hout.
    destruct (run_centers ratio threshold) as [|c t]; [tauto|].
    destruct (merge_centers_spaced 10 t [] c c I (Z.le_refl c) HD) as [_ Hne].
    split; intros H; [contradiction|discriminate].
  - apply spaced_nth. rewrite Hout.
    destruct (run_centers ratio threshold) as [|c t]; [exact I|].
    apply (merge_centers_spaced 10 t [] c c I (Z.le_refl c) HD).
Qed.

(** C7 (as stated) fails: on [ratio19] with threshold 0.5 the maximal runs
    are [[0,1)], [[9,10)] and [[18,19)], with midpoints 0, 9 and 18. Each
    pair of adjacent detected centres is closer than 10 px, so merging
    adjacent centres closer than the merge gap gives a single line, but
    the function returns two lines, 4 and 18. *)
Lemma find_line_centers_counterexample :
  run_centers ratio19 (1 # 2) = [0; 9; 18] /\
  spec_line_count 10 (run_centers ratio19 (1 # 2)) = 1%nat /\
  find_line_centers ratio19 (1 # 2) 10 = [4; 18].
Proof. vm_compute. repeat split. Qed.

(** ** Best-fitting line subset *)

Lemma subseq_nil_l {A : Type} (l : list A) : subseq [] l.
Proof. induction l; constructor; assumption. Qed.

Lemma subseq_nil_r {A : Type} (s : list A) : subseq s [] -> s = [].
Proof. intros H. inversion H. reflexivity. Qed.

Lemma combinations_spec {A : Type} (l : list A) (k : nat) (c : list A) :
  In c (combinations l k) <-> subseq c l /\ length c = k.
Proof.
  revert k c. induction l as [|x t IH]; intros k c.
  - destruct k as [|k]; simpl.
    + split; [intros [<-|[]]; split; [constructor|reflexivity]|].
      intros [Hs _]. left. symmetry. apply subseq_nil_r. exact Hs.
    + split; [intros []|]. intros [Hs Hl]. apply subseq_nil_r in Hs. subst. discriminate.
  - destruct k as [|k]; cbn [combinations].
    + split; [intros [<-|[]]; split; [apply subseq_nil_l|reflexivity]|].
      intros [_ Hl]. destruct c; [left; reflexivity|discriminate].
    + rewrite in_app_iff, in_map_iff. split.
      * intros [(c' & <- & Hc')|Hc].
        -- apply IH in Hc'. destruct Hc' as [Hs Hl].
           split; [constructor; exact Hs|simpl; congruence].
        -- apply IH in Hc. destruct Hc as [Hs Hl].
           split; [apply subseq_skip; exact Hs|exact Hl].
      * intros [Hs Hl]. inversion Hs; subst.
        -- left. exists s. split; [reflexivity|]. apply IH.
           split; [assumption|simpl in Hl; lia].
        -- right. apply IH. split; assumption.
Qed.

Lemma subseq_firstn {A : Type} (k : nat) (l : list A) : subseq (firstn k l) l.
Proof.
  revert k. induction l as [|x t IH]; intros k.
  - rewrite firstn_nil. constructor.
  - destruct k as [|k]; simpl; [apply subseq_nil_l|constructor; apply IH].
Qed.

Lemma sbl_fold (total : Z) (init : list Z) (cs : list (list Z)) (bs : option Q) (b : list Z) :
  fold_left (sbl_step total) cs (None, init) = (bs, b) ->
  (cs = [] -> bs = None /\ b = init) /\
  (cs <> [] -> exists s, bs = Some s /\ s = combo_score total b /\ In b cs /\
                         forall c, In c cs -> (s <= combo_score total c)%Q).
Proof.
  revert bs b. induction cs as [|c cs IH] using rev_ind; intros bs b Hrun.
  - simpl in Hrun. injection Hrun as <- <-.
    split; [intros _; split; reflexivity|intros H; congruence].
  - rewrite fold_left_app in Hrun. cbn [fold_left] in Hrun.
    destruct (fold_left (sbl_step total) cs (None, init)) as [bs0 b0] eqn:E.
    destruct (IH bs0 b0 eq_refl) as [IH0 IH1].
    split; [intros H; destruct cs; discriminate|intros _].
    unfold sbl_step in Hrun.
    destruct cs as [|c0 cs'] eqn:Ecs.
    + destruct (IH0 eq_refl) as [-> ->]. injection Hrun as <- <-.
      exists (combo_score total c). split; [reflexivity|]. split; [reflexivity|].
      split; [left; reflexivity|]. intros c' [<-|[]]. apply Qle_refl.
    + rewrite <- Ecs in *.
      destruct (IH1 ltac:(rewrite Ecs; discriminate)) as (s & -> & Hs & Hin & Hmin).
      destruct (Qltb (combo_score total c) s) eqn:Elt; injection Hrun as <- <-.
      * apply Qltb_true in Elt.
        exists (combo_score total c). split; [reflexivity|]. split; [reflexivity|].
        split; [apply in_app_iff; right; left; reflexivity|].
        intros c' Hc'. apply in_app_iff in Hc'. destruct Hc' as [Hc'|[<-|[]]].
        -- apply Qlt_le_weak. apply Qlt_le_trans with s; [exact Elt|apply Hmin; exact Hc'].
        -- apply Qle_refl.
      * apply Qltb_false in Elt.
        exists s. split; [reflexivity|]. split; [exact Hs|].
        split; [apply in_app_iff; left; exact Hin|].
        intros c' Hc'. apply in_app_iff in Hc'. destruct Hc' as [Hc'|[<-|[]]].
        -- apply Hmin. exact Hc'.
        -- exact Elt.
Qed.

(** C8. For a non-negative [expected], [_select_best_lines] returns the
    candidates unchanged when there are at most [expected] of them.
    Otherwise it returns a subsequence of exactly [expected] candidates
    whose score is minimal over all such subsequences. The score is the
    population variance of the interval widths between consecutive points
    of [[0] + combo + [total]]. *)
Theorem select_best_lines_spec (candidates : list Z) (expected total : Z)
  (He : 0 <= expected) :
  (Z.of_nat (length candidates) <= expected ->
   select_best_lines candidates expected total = Ok candidates) /\
  (expected < Z.of_nat (length candidates) ->
   exists best, select_best_lines candidates expected total = Ok best /\
     subseq best candidates /\ Z.of_nat (length best) = expected /\
     forall combo, subseq combo candidates -> Z.of_nat (length combo) = expected ->
       (combo_score total best <= combo_score total combo)%Q).
Proof.
  unfold select_best_lines. split.
  - intros Hle. destruct (Z.eqb_spec (Z.of_nat (length candidates)) expected); [reflexivity|].
    destruct (Z.ltb_spec (Z.of_nat (length candidates)) expected); [reflexivity|lia].
  - intros Hlt.
    destruct (Z.eqb_spec (Z.of_nat (length candidates)) expected); [lia|].
    destruct (Z.ltb_spec (Z.of_nat (length candidates)) expected); [lia|].
    destruct (Z.ltb_spec expected 0); [lia|].
    set (k := Z.to_nat expected).
    destruct (fold_left (sbl_step total) (combinations candidates k) (None, firstn k candidates))
      as [bs b] eqn:Ef.
    destruct (sbl_fold total _ _ bs b Ef) as [_ Hf].
    assert (Hne : combinations candidates k <> []).
    { intros Hnil. assert (Hin : In (firstn k candidates) (combinations candidates k)).
      { apply combinations_spec. split; [apply subseq_firstn|].
        rewrite length_firstn. lia. }
      rewrite Hnil in Hin. exact Hin. }
    destruct (Hf Hne) as (s & _ & Hs & Hin & Hmin).
    apply combinations_spec in Hin. destruct Hin as [Hsub Hlen].
    exists b. split; [reflexivity|]. split; [exact Hsub|]. split; [unfold k in Hlen; lia|].
    intros combo Hc Hcl. rewrite <- Hs. apply Hmin. apply combinations_spec.
    split; [exact Hc|unfold k; lia].
Qed.

(** Candidates 3, 10, 12 and 20 on an axis of length 30, two lines
    expected: the result is 10, 20, whose intervals 10, 10, 10 have
    variance 0. *)
Lemma select_best_lines_spec_witness :
  select_best_lines [3; 10; 12; 20] 2 30 = Ok [10; 20] /\
  combo_score 30 [10; 20] == 0 /\
  forall combo, subseq combo [3; 10; 12; 20] -> length combo = 2%nat ->
    (0 <= combo_score 30 combo)%Q.
Proof.
  destruct (proj2 (select_best_lines_spec [3; 10; 12; 20] 2 30 ltac:(lia)) ltac:(simpl; lia))
    as (best & Hb & _ & _ & Hmin).
  assert (Hbest : best = [10; 20]) by (vm_compute in Hb; congruence).
  subst best. split; [exact Hb|]. split; [vm_compute; reflexivity|].
  intros combo Hs Hl.
  apply Qle_trans with (combo_score 30 [10; 20]); [vm_compute; discriminate|].
  apply Hmin; [exact Hs|rewrite Hl; reflexivity].
Defined.

(** ** Cell normalizer *)












Lemma py_round_float_finite (f : float) :
  is_finite f = true -> exists z, py_round_float f = Ok z.
Proof.
  intros H. unfold is_finite in H. unfold py_round_float, Prim2SF.
  destruct (is_nan f); [discriminate|].
  destruct (is_zero f); [eexists; reflexivity|].
  destruct (is_infinity f); [discriminate|].
  destruct (Z.frexp f) as [r ex].
  destruct (shr_fexp prec emax (Uint63.to_Z (normfr_mantissa r)) (ex - prec) loc_Exact)
    as [shr e'].
  destruct (shr_m shr); eexists; reflexivity.
Qed.
















(** * Further properties of the code *)

(** ** Generic loop lemmas *)

Lemma fold_res_seq_inv {A} (Q : nat -> A -> Prop) (f : A -> nat -> result A)
  (s len : nat) (a a' : A) :
  (forall k st st', (s <= k < s + len)%nat -> Q k st -> f st k = Ok st' -> Q (S k) st') ->
  Q s a -> fold_res f (seq s len) a = Ok a' -> Q (s + len)%nat a'.
Proof.
  revert s a. induction len as [|len IH]; intros s a Hstep Ha Hrun; simpl in Hrun.
  - injection Hrun as <-. rewrite Nat.add_0_r. exact Ha.
  - destruct (f a s) as [st|e] eqn:Hf; simpl in Hrun; [|discriminate].
    replace (s + S len)%nat with (S s + len)%nat by lia.
    apply (IH (S s) st); [|apply (Hstep s a st); auto; lia|exact Hrun].
    intros k st0 st1 Hk. apply Hstep. lia.
Qed.

Lemma fold_res_seq_ok {A} (Q : nat -> A -> Prop) (f : A -> nat -> result A)
  (s len : nat) (a : A) :
  (forall k st, (s <= k < s + len)%nat -> Q k st -> exists st', f st k = Ok st' /\ Q (S k) st') ->
  Q s a -> exists a', fold_res f (seq s len) a = Ok a' /\ Q (s + len)%nat a'.
Proof.
  revert s a. induction len as [|len IH]; intros s a Hstep Ha; simpl.
  - exists a. rewrite Nat.add_0_r. auto.
  - destruct (Hstep s a ltac:(lia) Ha) as (st & Hf & Hst). rewrite Hf. simpl.
    replace (s + S len)%nat with (S s + len)%nat by lia.
    apply IH; [|exact Hst]. intros k st0 Hk. apply Hstep. lia.
Qed.

Lemma getD_mget (D : matrix) (i j : nat) :
  Forall (fun row => length row = length D) D ->
  (i < length D)%nat -> (j < length D)%nat -> getD D i j = Ok (mget D i j).
Proof.
  intros Hsq Hi Hj. unfold getD, mget.
  rewrite (py_get_nth D i []) by exact Hi. cbn [bind].
  apply py_get_nth. rewrite Forall_forall in Hsq. rewrite Hsq; [exact Hj|].
  apply nth_In. exact Hi.
Qed.

(** ** round_up_to_multiple *)

(** For a positive [multiple], [round_up_to_multiple] returns the least
    multiple of [multiple] that is at least [value]; for [multiple = 0] it
    raises [ZeroDivisionError]. *)
Theorem round_up_to_multiple_spec (value multiple : Z) :
  (multiple = 0 -> round_up_to_multiple value multiple = Err ZeroDivisionError) /\
  (0 < multiple -> exists r, round_up_to_multiple value multiple = Ok r /\
     r mod multiple = 0 /\ value <= r /\ r < value + multiple /\
     forall r', r' mod multiple = 0 -> value <= r' -> r <= r').
Proof.
  unfold round_up_to_multiple. split.
  - intros ->. reflexivity.
  - intros Hm. rewrite (proj2 (Z.eqb_neq multiple 0)) by lia.
    eexists. split; [reflexivity|].
    pose proof (Z.div_mod (value + multiple - 1) multiple ltac:(lia)) as Hdm.
    pose proof (Z.mod_pos_bound (value + multiple - 1) multiple Hm) as Hb.
    split; [apply Z.mod_mul; lia|]. split; [lia|]. split; [lia|].
    intros r' Hr' Hv. pose proof (Z.div_mod r' multiple ltac:(lia)) as Hdm'.
    rewrite Hr', Z.add_0_r in Hdm'.
    set (q := (value + multiple - 1) / multiple) in *.
    set (q' := r' / multiple) in *.
    assert (q <= q') by nia. nia.
Qed.

Lemma round_up_to_multiple_spec_witness :
  round_up_to_multiple 318 32 = Ok 320 /\ 320 mod 32 = 0.
Proof.
  destruct (proj2 (round_up_to_multiple_spec 318 32) ltac:(lia)) as (r & Hr & Hmod & _).
  assert (r = 320) by (vm_compute in Hr; congruence). subst r. auto.
Defined.

(** ** order_frames on fewer than two frames *)

(** With fewer than two frames, [order_frames] raises [IndexError]:
    [find_farthest_pair] falls back to the pair (0, 1), which is then read
    out of range by [path_length]. *)
Theorem order_frames_too_few (fuel : nat) (D : matrix)
  (Hsq : Forall (fun row => length row = length D) D) (Hn : (length D <= 1)%nat) :
  order_frames fuel D = Err IndexError.
Proof.
  destruct D as [|row [|row' D']]; simpl in Hn; [reflexivity| |lia].
  inversion Hsq as [|? ? Hrow _]; subst. simpl in Hrow.
  destruct row as [|d [|d' r]]; simpl in Hrow; try lia. reflexivity.
Qed.

Lemma order_frames_too_few_witness :
  order_frames 5 [[0%Q]] = Err IndexError.
Proof. apply order_frames_too_few; repeat constructor. Defined.

(** ** Nearest-neighbour and 2-opt helpers *)

Lemma min_by_from_spec (D : matrix) (cur best : nat) (xs : list nat)
  (Hsq : Forall (fun row => length row = length D) D) (Hcur : (cur < length D)%nat)
  (Hxs : forall x, In x xs -> (x < length D)%nat) :
  exists r, min_by_from D cur best (mget D cur best) xs = Ok r /\
    (r = best \/ In r xs) /\ (mget D cur r <= mget D cur best)%Q /\
    forall x, In x xs -> (mget D cur r <= mget D cur x)%Q.
Proof.
  revert best. induction xs as [|x t IH]; intros best; simpl.
  - exists best. split; [reflexivity|]. split; [auto|]. split; [apply Qle_refl|].
    intros x [].
  - rewrite (getD_mget D cur x Hsq Hcur) by (apply Hxs; left; reflexivity).
    cbn [bind].
    assert (Ht : forall y, In y t -> (y < length D)%nat) by (intros y Hy; apply Hxs; right; exact Hy).
    destruct (Qltb (mget D cur x) (mget D cur best)) eqn:Hlt.
    + apply Qltb_true in Hlt.
      destruct (IH Ht x) as (r & Hr & Hin & Hle & Hmin).
      exists r. split; [exact Hr|]. split.
      * right. destruct Hin as [->|Hin]; [left; reflexivity|right; exact Hin].
      * split; [apply Qle_trans with (mget D cur x); [exact Hle|apply Qlt_le_weak, Hlt]|].
        intros y [<-|Hy]; [exact Hle|apply Hmin, Hy].
    + apply Qltb_false in Hlt.
      destruct (IH Ht best) as (r & Hr & Hin & Hle & Hmin).
      exists r. split; [exact Hr|]. split.
      * destruct Hin as [->|Hin]; [left; reflexivity|right; right; exact Hin].
      * split; [exact Hle|].
        intros y [<-|Hy]; [apply Qle_trans with (mget D cur best); assumption|apply Hmin, Hy].
Qed.

Lemma min_by_spec (D : matrix) (cur : nat) (xs : list nat)
  (Hsq : Forall (fun row => length row = length D) D) (Hcur : (cur < length D)%nat)
  (Hxs : forall x, In x xs -> (x < length D)%nat) (Hne : xs <> []) :
  exists r, min_by D cur xs = Ok r /\ In r xs /\
    forall x, In x xs -> (mget D cur r <= mget D cur x)%Q.
Proof.
  destruct xs as [|x t]; [contradiction|]. simpl.
  rewrite (getD_mget D cur x Hsq Hcur) by (apply Hxs; left; reflexivity).
  cbn [bind].
  destruct (min_by_from_spec D cur x t Hsq Hcur) as (r & Hr & Hin & Hle & Hmin).
  - intros y Hy. apply Hxs. right. exact Hy.
  - exists r. split; [exact Hr|]. split.
    + destruct Hin as [->|Hin]; [left; reflexivity|right; exact Hin].
    + intros y [<-|Hy]; [exact Hle|apply Hmin, Hy].
Qed.

Lemma nn_loop_greedy (D : matrix) (Hsq : Forall (fun row => length row = length D) D)
  (fuel cur : nat) (rem path : list nat) :
  (cur < length D)%nat -> NoDup rem -> (forall x, In x rem -> (x < length D)%nat) ->
  (length rem <= fuel)%nat ->
  exists rest, nn_loop fuel D cur rem path = Ok (path ++ rest) /\
    Permutation rest rem /\ greedy D (cur :: rest).
Proof.
  revert cur rem path. induction fuel as [|fuel IH]; intros cur rem path Hcur Hnd Hrem Hfuel.
  - destruct rem as [|x t]; [|simpl in Hfuel; lia].
    exists []. rewrite app_nil_r. split; [reflexivity|]. split; [constructor|].
    intros k m Hkm Hm. simpl in Hm. lia.
  - destruct rem as [|x t] eqn:Hr.
    + exists []. rewrite app_nil_r. split; [reflexivity|]. split; [constructor|].
      intros k m Hkm Hm. simpl in Hm. lia.
    + rewrite <- Hr in *. assert (Hne : rem <> []) by (rewrite Hr; discriminate).
      destruct (min_by_spec D cur rem Hsq Hcur Hrem Hne) as (r & Hmin & Hin & Hle).
      pose proof (perm_set_remove r rem Hnd Hin) as Hpr.
      pose proof (Permutation_length Hpr) as Hlen. simpl in Hlen.
      destruct (IH r (set_remove r rem) (path ++ [r])) as (rest & Hrun & Hperm & Hg).
      * apply Hrem, Hin.
      * apply NoDup_filter, Hnd.
      * intros y Hy. apply filter_In in Hy. apply Hrem, Hy.
      * lia.
      * exists (r :: rest). split; [|split].
        -- rewrite Hr. cbn [nn_loop]. rewrite <- Hr, Hmin. cbn [bind].
           rewrite Hrun, <- app_assoc. reflexivity.
        -- apply perm_trans with (r :: set_remove r rem); [constructor; exact Hperm|].
           apply Permutation_sym. exact Hpr.
        -- intros k m Hkm Hm. destruct k as [|k].
           ++ destruct m as [|[|m]]; [lia|lia|]. cbn [nth]. apply Hle.
              assert (Hy : In (nth m rest 0%nat) rest) by (apply nth_In; simpl in Hm; lia).
              apply (Permutation_in _ Hperm) in Hy. apply filter_In in Hy. apply Hy.
           ++ destruct m as [|m]; [lia|]. cbn [nth].
              apply (Hg k m); [lia|simpl in *; lia].
Qed.

Lemma nearest_neighbor_path_ok (D : matrix) (s e : nat)
  (Hsq : Forall (fun row => length row = length D) D)
  (Hs : (s < length D)%nat) (He : (e < length D)%nat) (Hse : s <> e) :
  exists mid, nearest_neighbor_path D s e = Ok (s :: mid ++ [e]) /\
    Permutation (s :: mid ++ [e]) (seq 0 (length D)) /\ greedy D (s :: mid).
Proof.
  unfold nearest_neighbor_path.
  set (rem := filter _ (seq 0 (length D))).
  destruct (nn_loop_greedy D Hsq (length rem) s rem [s]) as (mid & Hrun & _ & Hg).
  - exact Hs.
  - apply NoDup_filter, seq_NoDup.
  - intros y Hy. apply filter_In in Hy. destruct Hy as [Hy _]. apply in_seq in Hy. lia.
  - lia.
  - exists mid. rewrite Hrun. cbn [bind]. split; [reflexivity|]. split; [|exact Hg].
    apply (nearest_neighbor_path_perm D s e); auto.
    unfold nearest_neighbor_path. fold rem. rewrite Hrun. reflexivity.
Qed.

Lemma two_opt_inner_true (D : matrix) (i j : nat) (st st' : topt_state) :
  two_opt_inner D i st j = Ok st' -> snd st = true -> snd st' = true.
Proof.
  destruct st as [[best bl] imp]. unfold two_opt_inner.
  destruct (path_length D _) as [cl|e]; cbn [bind]; [|discriminate].
  destruct (Qltb cl bl); intros H; injection H as <-; auto.
Qed.

Lemma two_opt_outer_true (D : matrix) (i : nat) (st st' : topt_state) :
  two_opt_outer D st i = Ok st' -> snd st = true -> snd st' = true.
Proof.
  destruct st as [[best bl] imp]. unfold two_opt_outer. intros Hrun Ht.
  revert Hrun. apply (fold_res_inv (fun s : topt_state => snd s = true)); [|exact Ht].
  intros s0 j s1 _ Hs0 Hstep. exact (two_opt_inner_true D i j s0 s1 Hstep Hs0).
Qed.

Lemma two_opt_pass_stable (D : matrix) (best b' : list nat) (bl bl' : Q) :
  two_opt_pass D best bl = Ok (b', bl', false) ->
  b' = best /\ bl' = bl /\ topt_done D best bl (1 + (length best - 3)).
Proof.
  intros Hrun. unfold two_opt_pass in Hrun.
  set (N := length best) in *.
  set (Qo := fun k (st : topt_state) =>
               (st = (best, bl, false) /\ topt_done D best bl k) \/ snd st = true).
  assert (Hend : Qo (1 + (N - 3))%nat (b', bl', false)).
  { apply (fold_res_seq_inv Qo (two_opt_outer D) 1 (N - 3) (best, bl, false)); [|left; split; [reflexivity|]|exact Hrun].
    - intros k st st' Hk [[-> Hdone]|Ht] Hout.
      + unfold two_opt_outer in Hout. fold N in Hout.
        set (Qi := fun j (s : topt_state) =>
                     (s = (best, bl, false) /\
                      forall j', (k < j' < j)%nat -> (S j' < N)%nat ->
                        exists cl, path_length D (reverse_segment best k j') = Ok cl /\ (bl <= cl)%Q)
                     \/ snd s = true).
        assert (Hin : Qi (S k + (N - S (S k)))%nat st').
        { apply (fold_res_seq_inv Qi (two_opt_inner D k) (S k) (N - S (S k)) (best, bl, false));
            [|left; split; [reflexivity|intros j' Hj'; lia]|exact Hout].
          intros j s s' Hj [[-> Hprev]|Hts] Hstep.
          - unfold two_opt_inner in Hstep.
            destruct (path_length D (reverse_segment best k j)) as [cl|e] eqn:Hcl;
              cbn [bind] in Hstep; [|discriminate].
            destruct (Qltb cl bl) eqn:Hlt; injection Hstep as <-.
            + right. reflexivity.
            + left. split; [reflexivity|]. apply Qltb_false in Hlt.
              intros j' Hj' HjN. destruct (Nat.eq_dec j' j) as [->|Hne].
              * exists cl. auto.
              * apply Hprev; [lia|exact HjN].
          - right. exact (two_opt_inner_true D k j s s' Hstep Hts). }
        destruct Hin as [[-> Hrow]|Ht]; [|right; exact Ht].
        left. split; [reflexivity|].
        intros i j Hi Hik Hij HjN. destruct (Nat.eq_dec i k) as [->|Hne].
        * apply Hrow; [lia|exact HjN].
        * apply Hdone; auto. lia.
      + right. exact (two_opt_outer_true D k st st' Hout Ht).
    - intros i j Hi Hi1. lia. }
  destruct Hend as [[Heq Hdone]|Ht]; [|discriminate].
  injection Heq as -> ->. auto.
Qed.

Lemma two_opt_loop_local (D : matrix) (fuel : nat) (best p : list nat) (bl : Q) :
  path_length D best = Ok bl -> two_opt_loop fuel D best bl = Ok p ->
  exists l, path_length D p = Ok l /\
    forall i j, (1 <= i)%nat -> (i < j)%nat -> (S j < length p)%nat ->
      exists cl, path_length D (reverse_segment p i j) = Ok cl /\ (l <= cl)%Q.
Proof.
  revert best bl. induction fuel as [|fuel IH]; intros best bl Hpl Hrun;
    simpl in Hrun; [discriminate|].
  destruct (two_opt_pass D best bl) as [[[b' bl'] imp]|e] eqn:Hp;
    cbn [bind] in Hrun; [|discriminate].
  destruct imp.
  - destruct (two_opt_pass_inv D (fun _ => True) (fun _ _ _ _ _ _ _ => I) bl best bl _
                ltac:(repeat split; auto; apply Qle_refl) Hp) as (_ & _ & Hpl' & _).
    exact (IH b' bl' Hpl' Hrun).
  - injection Hrun as <-.
    destruct (two_opt_pass_stable D best b' bl bl' Hp) as (-> & -> & Hdone).
    exists bl. split; [exact Hpl|].
    intros i j Hi Hij Hj. apply Hdone; auto. lia.
Qed.

(** ** find_farthest_pair *)

Lemma ffp_inv_equiv (D : matrix) (i0 j0 i1 j1 : nat) (st : Q * (nat * nat)) :
  (forall a b, (a < b)%nat -> (b < length D)%nat -> (pair_before a b i0 j0 <-> pair_before a b i1 j1)) ->
  ffp_inv D i0 j0 st -> ffp_inv D i1 j1 st.
Proof.
  intros Heq. destruct st as [bd [bi bj]]. unfold ffp_inv.
  intros [(Hn & Hbd & Hi & Hj)|(Hij & Hjn & Hb & Hbd & Hmax & Hfirst)].
  - left. split; [|auto]. intros a b Hab Hb Hp. apply (Hn a b Hab Hb). apply Heq; auto.
  - right. split; [exact Hij|]. split; [exact Hjn|]. split; [apply Heq; auto|].
    split; [exact Hbd|]. split.
    + intros a b Hab Hbn Hp. apply Hmax; auto. apply Heq; auto.
    + intros a b Hab Hbn Hp. apply Hfirst; auto. apply Heq; auto.
Qed.

Lemma find_farthest_pair_max (D : matrix)
  (Hsq : Forall (fun row => length row = length D) D) (Hn : (2 <= length D)%nat)
  (Hnn : forall a b, (a < b)%nat -> (b < length D)%nat -> (0 <= mget D a b)%Q) :
  exists i j, find_farthest_pair D = Ok (i, j) /\ (i < j)%nat /\ (j < length D)%nat /\
    (forall a b, (a < b)%nat -> (b < length D)%nat -> (mget D a b <= mget D i j)%Q) /\
    (forall a b, (a < b)%nat -> (b < length D)%nat -> pair_before a b i j ->
       (mget D a b < mget D i j)%Q).
Proof.
  set (n := length D).
  assert (Hout : exists st, fold_res
            (fun st i => fold_res (ffp_inner D i) (seq (S i) (n - S i)) st)
            (seq 0 n) ((-1)%Q, (0%nat, 1%nat)) = Ok st /\ ffp_inv D (0 + n) 0 st).
  { apply (fold_res_seq_ok (fun k st => ffp_inv D k 0 st)).
    - intros i st Hi Hst.
      assert (Hst' : ffp_inv D i (S i) st).
      { apply (ffp_inv_equiv D i 0); [|exact Hst].
        intros a b Hab Hb. unfold pair_before. lia. }
      destruct (fold_res_seq_ok (fun j st => ffp_inv D i j st) (ffp_inner D i)
                  (S i) (n - S i) st) as (st' & Hrun & Hinv); [|exact Hst'|].
      + intros j [bd [bi bj]] Hj Hinv. unfold ffp_inner.
        rewrite (getD_mget D i j Hsq) by (unfold n in Hj; lia). cbn [bind].
        destruct (Qltb bd (mget D i j)) eqn:Hlt.
        * eexists. split; [reflexivity|]. apply Qltb_true in Hlt.
          right. split; [lia|]. split; [unfold n in Hj; lia|].
          split; [unfold pair_before; lia|]. split; [reflexivity|].
          destruct Hinv as [(Hnone & -> & -> & ->)|(Hij & Hjn & Hb & -> & Hmax & Hfirst)].
          -- split.
             ++ intros a b Hab Hbn Hp. destruct (Nat.eq_dec a i) as [->|Hai].
                ** destruct (Nat.eq_dec b j) as [->|Hbj]; [apply Qle_refl|].
                   exfalso. apply (Hnone i b Hab Hbn). unfold pair_before in *. lia.
                ** exfalso. apply (Hnone a b Hab Hbn). unfold pair_before in *. lia.
             ++ intros a b Hab Hbn Hp Hp'. exfalso. apply (Hnone a b Hab Hbn).
                unfold pair_before in *. lia.
          -- split.
             ++ intros a b Hab Hbn Hp. destruct (Nat.eq_dec a i) as [->|Hai];
                  [destruct (Nat.eq_dec b j) as [->|Hbj]; [apply Qle_refl|]|].
                ** apply Qlt_le_weak. apply Qle_lt_trans with (mget D bi bj); [|exact Hlt].
                   apply Hmax; auto; unfold pair_before in *; lia.
                ** apply Qlt_le_weak. apply Qle_lt_trans with (mget D bi bj); [|exact Hlt].
                   apply Hmax; auto; unfold pair_before in *; lia.
             ++ intros a b Hab Hbn Hp Hp'. apply Qle_lt_trans with (mget D bi bj); [|exact Hlt].
                apply Hmax; auto; unfold pair_before in *; lia.
        * eexists. split; [reflexivity|]. apply Qltb_false in Hlt.
          destruct Hinv as [(Hnone & -> & -> & ->)|(Hij & Hjn & Hb & -> & Hmax & Hfirst)].
          -- exfalso. assert (H0 : (0 <= mget D i j)%Q) by (apply Hnn; unfold n in Hj; lia).
             apply (Qlt_not_le (-1) (mget D i j)); [|exact Hlt].
             apply Qlt_le_trans with 0%Q; [reflexivity|exact H0].
          -- right. split; [exact Hij|]. split; [exact Hjn|].
             split; [unfold pair_before in *; lia|]. split; [reflexivity|]. split.
             ++ intros a b Hab Hbn Hp. destruct (Nat.eq_dec a i) as [->|Hai];
                  [destruct (Nat.eq_dec b j) as [->|Hbj]; [exact Hlt|]|];
                  apply Hmax; auto; unfold pair_before in *; lia.
             ++ intros a b Hab Hbn Hp Hp'. apply Hfirst; auto;
                unfold pair_before in *; lia.
      + exists st'. split; [exact Hrun|].
        apply (ffp_inv_equiv D i (S i + (n - S i))); [|exact Hinv].
        intros a b Hab Hb. unfold pair_before. unfold n in *. lia.
    - left. split; [|auto]. intros a b Hab Hb Hp. unfold pair_before in Hp. lia. }
  destruct Hout as ([bd [i j]] & Hrun & Hinv).
  unfold find_farthest_pair. fold n. rewrite Hrun. cbn [bind snd].
  destruct Hinv as [(Hnone & _)|(Hij & Hjn & Hb & Hbd & Hmax & Hfirst)].
  - exfalso. apply (Hnone 0%nat 1%nat); [lia|unfold n in *; lia|unfold pair_before; lia].
  - exists i, j. split; [reflexivity|]. split; [exact Hij|]. split; [exact Hjn|].
    subst bd. split.
    + intros a b Hab Hbn. apply Hmax; auto. unfold pair_before. lia.
    + intros a b Hab Hbn Hp. apply Hfirst; auto. unfold pair_before. lia.
Qed.

(** On a square matrix of at least two frames with non-negative entries,
    [find_farthest_pair] returns a pair [i < j] of largest distance
    [D[i][j]] over all pairs [a < b]; among several such pairs it returns
    the first in row-major order. *)
Theorem find_farthest_pair_spec (D : matrix)
  (Hsq : Forall (fun row => length row = length D) D) (Hn : (2 <= length D)%nat)
  (Hnn : forall a b, (a < b)%nat -> (b < length D)%nat -> (0 <= mget D a b)%Q) :
  exists i j, find_farthest_pair D = Ok (i, j) /\ (i < j)%nat /\ (j < length D)%nat /\
    (forall a b, (a < b)%nat -> (b < length D)%nat -> (mget D a b <= mget D i j)%Q) /\
    (forall a b, (a < b)%nat -> (b < length D)%nat -> pair_before a b i j ->
       (mget D a b < mget D i j)%Q).
Proof. exact (find_farthest_pair_max D Hsq Hn Hnn). Qed.

Lemma find_farthest_pair_spec_witness :
  find_farthest_pair D4 = Ok (2%nat, 3%nat) /\ (mget D4 2 3 == 9)%Q.
Proof.
  destruct (find_farthest_pair_spec D4 ltac:(repeat constructor) ltac:(simpl; lia))
    as (i & j & Hf & _ & _ & _ & _).
  - intros a b Hab Hb. simpl in Hb.
    destruct a as [|[|[|[|a]]]]; destruct b as [|[|[|[|b]]]]; try lia; vm_compute; discriminate.
  - assert (Hij : (i, j) = (2%nat, 3%nat)) by (vm_compute in Hf; congruence).
    injection Hij as -> ->. split; [exact Hf|reflexivity].
Defined.

(** ** nearest_neighbor_path *)

(** For two different in-range frames [start] and [end] of a square
    matrix, [nearest_neighbor_path] never raises: it returns a path that
    starts at [start], ends at [end] and visits every frame once, and each
    step before the final jump to [end] goes to a nearest frame among those
    not yet visited (other than [end]). *)
Theorem nearest_neighbor_path_greedy (D : matrix) (start end_ : nat)
  (Hsq : Forall (fun row => length row = length D) D)
  (Hs : (start < length D)%nat) (He : (end_ < length D)%nat) (Hse : start <> end_) :
  exists mid, nearest_neighbor_path D start end_ = Ok (start :: mid ++ [end_]) /\
    Permutation (start :: mid ++ [end_]) (seq 0 (length D)) /\ greedy D (start :: mid).
Proof. exact (nearest_neighbor_path_ok D start end_ Hsq Hs He Hse). Qed.

Lemma nearest_neighbor_path_greedy_witness :
  nearest_neighbor_path D4 2 3 = Ok [2; 0; 1; 3]%nat /\ greedy D4 [2; 0; 1]%nat.
Proof.
  destruct (nearest_neighbor_path_greedy D4 2 3 ltac:(repeat constructor)
              ltac:(simpl; lia) ltac:(simpl; lia) ltac:(discriminate))
    as (mid & Hp & _ & Hg).
  assert (Hv : nearest_neighbor_path D4 2 3 = Ok [2; 0; 1; 3]%nat) by reflexivity.
  rewrite Hv in Hp. injection Hp as Hm.
  change [0; 1; 3]%nat with ([0; 1] ++ [3])%nat in Hm.
  apply app_inj_tail in Hm. destruct Hm as [<- _]. split; [exact Hv|exact Hg].
Defined.

(** ** order_frames endpoints *)

(** On a square matrix, a path returned by [order_frames] starts and ends
    at the two frames [find_farthest_pair] returns. *)
Theorem order_frames_endpoints (fuel : nat) (D : matrix) (p : list nat)
  (Hsq : Forall (fun row => length row = length D) D)
  (Hrun : order_frames fuel D = Ok p) :
  exists i j, find_farthest_pair D = Ok (i, j) /\ hd_error p = Some i /\
    last p 0%nat = j.
Proof.
  destruct (Nat.le_gt_cases (length D) 1) as [Hsmall|Hbig].
  - exfalso. exact (order_frames_small fuel D p Hsmall Hsq Hrun).
  - unfold order_frames in Hrun.
    destruct (find_farthest_pair D) as [[a c]|e] eqn:Hf; cbn [bind fst snd] in Hrun;
      [|discriminate].
    destruct (find_farthest_pair_range D a c) as [Hac Hc]; [lia|exact Hf|].
    destruct (nearest_neighbor_path_ok D a c Hsq ltac:(lia) Hc ltac:(lia))
      as (mid & Hnn & _ & _).
    rewrite Hnn in Hrun. cbn [bind] in Hrun.
    set (path := a :: mid ++ [c]) in Hrun.
    pose proof Hrun as Hrun'. unfold two_opt_improve in Hrun'.
    destruct (path_length D path) as [l0|err] eqn:Hpl; cbn [bind] in Hrun';
      [|discriminate].
    set (R := fun b => hd_error b = Some a /\ forall d, last b d = c).
    assert (HR : forall best i j, (1 <= i)%nat -> (i < j)%nat ->
              (S j < length best)%nat -> R best -> R (reverse_segment best i j)).
    { intros best i j Hi Hij Hj [Hhd Hlast]. split.
      - rewrite <- Hhd. now apply (reverse_segment_ends best i j 0).
      - intros d. rewrite <- (Hlast d). now apply reverse_segment_ends. }
    destruct (two_opt_improve_inv D R HR l0 fuel path p) as ([Hhd Hlast] & _).
    + split; [reflexivity|]. intros d. unfold path.
      rewrite app_comm_cons. apply last_last.
    + exact Hpl.
    + exact Hrun.
    + exists a, c. auto.
Qed.

Lemma order_frames_endpoints_witness :
  order_frames 10 D4 = Ok [2; 0; 1; 3]%nat /\ find_farthest_pair D4 = Ok (2%nat, 3%nat).
Proof.
  assert (Hrun : order_frames 10 D4 = Ok [2; 0; 1; 3]%nat) by reflexivity.
  destruct (order_frames_endpoints 10 D4 _ ltac:(repeat constructor) Hrun)
    as (i & j & Hf & Hhd & Hl).
  simpl in Hhd, Hl. injection Hhd as <-. subst j. auto.
Defined.

(** ** 2-opt local optimum *)

(** A path returned by [two_opt_improve] is 2-opt optimal: no reversal of
    a segment [i .. j] with [1 <= i < j] and [j + 1 < len] makes it
    shorter, as [path_length] computes it. *)
Theorem two_opt_improve_local_optimum (fuel : nat) (D : matrix) (path p : list nat)
  (Hrun : two_opt_improve fuel D path = Ok p) :
  exists l, path_length D p = Ok l /\
    forall i j, (1 <= i)%nat -> (i < j)%nat -> (S j < length p)%nat ->
      exists cl, path_length D (reverse_segment p i j) = Ok cl /\ (l <= cl)%Q.
Proof.
  unfold two_opt_improve in Hrun.
  destruct (path_length D path) as [l0|e] eqn:Hpl; cbn [bind] in Hrun; [|discriminate].
  exact (two_opt_loop_local D fuel path p l0 Hpl Hrun).
Qed.

Lemma two_opt_improve_local_optimum_witness :
  two_opt_improve 10 D4 [2; 1; 0; 3]%nat = Ok [2; 0; 1; 3]%nat /\
  exists l, path_length D4 [2; 0; 1; 3]%nat = Ok l.
Proof.
  assert (Hrun : two_opt_improve 10 D4 [2; 1; 0; 3]%nat = Ok [2; 0; 1; 3]%nat)
    by reflexivity.
  split; [exact Hrun|].
  destruct (two_opt_improve_local_optimum 10 D4 _ _ Hrun) as (l & Hl & _).
  exists l. exact Hl.
Defined.

(** ** select_ping_pong *)

Lemma py_round_bounds (q : Q) (a b : Z) :
  (inject_Z a <= q)%Q -> (q <= inject_Z b)%Q -> a <= py_round q <= b.
Proof.
  intros Ha Hb. unfold py_round.
  assert (Hfa : a <= Qfloor q).
  { rewrite <- (Qfloor_Z a). apply Qfloor_resp_le. exact Ha. }
  assert (Hfb : Qfloor q <= b).
  { rewrite <- (Qfloor_Z b). apply Qfloor_resp_le. exact Hb. }
  pose proof (Qfloor_le q) as Hfl.
  assert (Hup : ((1 # 2) <= q - inject_Z (Qfloor q))%Q -> Qfloor q < b).
  { intros Hh. assert (Hlt : (inject_Z (Qfloor q) < inject_Z b)%Q) by lra.
    rewrite <- Zlt_Qlt in Hlt. exact Hlt. }
  destruct (Qcompare _ _) eqn:Hc.
  - apply Qeq_alt in Hc. destruct (Z.even _); [lia|].
    assert (Qfloor q < b) by (apply Hup; rewrite Hc; apply Qle_refl). lia.
  - lia.
  - apply Qgt_alt in Hc. assert (Qfloor q < b) by (apply Hup; apply Qlt_le_weak, Hc). lia.
Qed.

Lemma Qdivz_bounds (x m a : Z) :
  0 <= x -> x <= a * m -> 0 < m -> (0 <= Qdivz x m)%Q /\ (Qdivz x m <= inject_Z a)%Q.
Proof.
  intros Hx Hxa Hm. unfold Qdivz, Qdiv, Qmult, Qinv, inject_Z, Qle.
  destruct m as [|p|p]; [lia| |lia]. simpl. split; nia.
Qed.

Lemma py_index_in (l : list nat) (z : Z) :
  0 <= z -> z < Z.of_nat (length l) -> exists v, py_index l z = Ok v /\ In v l.
Proof.
  intros H0 H1. exists (nth (Z.to_nat z) l 0%nat).
  split; [apply py_index_nth; auto|apply nth_In; lia].
Qed.

Lemma py_index_last_in (l : list nat) :
  (1 <= length l)%nat -> exists v, py_index l (-1) = Ok v /\ In v l.
Proof.
  intros H. exists (nth (length l - 1) l 0%nat).
  split; [apply py_index_last; auto|apply nth_In; lia].
Qed.

Lemma py_round_index (l : list nat) (q : Q) :
  (0 <= q)%Q -> (q <= inject_Z (Z.of_nat (length l) - 1))%Q ->
  exists v, py_index l (py_round q) = Ok v /\ In v l.
Proof.
  intros H0 H1. destruct (py_round_bounds q 0 (Z.of_nat (length l) - 1) H0 H1).
  apply py_index_in; lia.
Qed.

Lemma zrange_In (b k : Z) : In k (zrange b) -> 0 <= k < b.
Proof.
  unfold zrange. intros Hk. apply in_map_iff in Hk.
  destruct Hk as (i & <- & Hi). apply in_seq in Hi. lia.
Qed.

Lemma fold_res_len {A B} (f : list A -> B -> result (list A)) (xs : list B)
  (a a' : list A) :
  (forall acc x acc', f acc x = Ok acc' -> (length acc' <= S (length acc))%nat) ->
  fold_res f xs a = Ok a' -> (length a' <= length a + length xs)%nat.
Proof.
  intros Hf. revert a. induction xs as [|x t IH]; intros a Hrun; simpl in Hrun.
  - injection Hrun as <-. simpl. lia.
  - destruct (f a x) as [a1|e] eqn:Hx; cbn [bind] in Hrun; [|discriminate].
    pose proof (Hf _ _ _ Hx). pose proof (IH a1 Hrun). simpl. lia.
Qed.

(** [select_ping_pong] never raises, whatever the list and the cycle
    length: it returns frames of [ordered] only, [ordered] itself when the
    list has at most [cycle_length] frames, and otherwise at most
    [cycle_length] frames (none for a negative [cycle_length]). *)
Theorem select_ping_pong_safe (ordered : list nat) (cycle_length : Z) :
  exists r, select_ping_pong ordered cycle_length = Ok r /\ incl r ordered /\
    (Z.of_nat (length ordered) <= cycle_length -> r = ordered) /\
    (cycle_length < Z.of_nat (length ordered) -> (length r <= Z.to_nat cycle_length)%nat).
Proof.
  unfold select_ping_pong. set (n := Z.of_nat (length ordered)).
  destruct (n <=? cycle_length) eqn:Hn.
  { exists ordered. apply Z.leb_le in Hn. split; [reflexivity|].
    split; [apply incl_refl|]. split; [auto|intros; lia]. }
  apply Z.leb_gt in Hn.
  assert (Hn0 : 0 <= n) by (unfold n; lia).
  destruct (cycle_length =? 3) eqn:H3.
  { apply Z.eqb_eq in H3. subst cycle_length.
    destruct (Qdivz_bounds (n - 1) 2 (n - 1)) as [Hm0 Hm1]; [lia|lia|lia|].
    destruct (py_index_in ordered 0) as (a & Ha & Ina); [lia|fold n; lia|].
    destruct (py_round_index ordered (Qdivz (n - 1) 2)) as (b & Hb & Inb); auto.
    destruct (py_index_last_in ordered) as (c & Hc & Inc); [unfold n in Hn; lia|].
    rewrite Ha, Hb, Hc. cbn [bind]. exists [a; b; c]. split; [reflexivity|].
    split; [intros x [<-|[<-|[<-|[]]]]; auto|]. split; [lia|]. simpl. lia. }
  destruct (cycle_length =? 4) eqn:H4.
  { apply Z.eqb_eq in H4. subst cycle_length.
    destruct (Qdivz_bounds (n - 1) 3 (n - 1)) as [Hm0 Hm1]; [lia|lia|lia|].
    destruct (Qdivz_bounds (2 * (n - 1)) 3 (n - 1)) as [Hm2 Hm3]; [lia|lia|lia|].
    destruct (py_index_in ordered 0) as (a & Ha & Ina); [lia|fold n; lia|].
    destruct (py_round_index ordered (Qdivz (n - 1) 3)) as (b1 & Hb1 & Inb1); auto.
    destruct (py_index_last_in ordered) as (c & Hc & Inc); [unfold n in Hn; lia|].
    destruct (py_round_index ordered (Qdivz (2 * (n - 1)) 3)) as (b2 & Hb2 & Inb2); auto.
    rewrite Ha, Hb1, Hc, Hb2. cbn [bind]. exists [a; b1; c; b2]. split; [reflexivity|].
    split; [intros x [<-|[<-|[<-|[<-|[]]]]]; auto|]. split; [lia|]. simpl. lia. }
  set (half := cycle_length / 2).
  pose proof (Z.div_mod cycle_length 2 ltac:(lia)) as Hdm.
  pose proof (Z.mod_pos_bound cycle_length 2 ltac:(lia)) as Hmb.
  fold half in Hdm.
  set (fout := fun (acc : list nat) (k : Z) =>
         let pos := if 1 <? half then py_round (Qdivz (k * (n - 1)) (half - 1)) else 0 in
         v <- py_index ordered pos ;; Ok (acc ++ [v])).
  destruct (fold_res_ok (fun acc => incl acc ordered) fout (zrange half) [])
    as (outbound & Hout & Hoincl).
  { intros acc k Hk Hacc. apply zrange_In in Hk. unfold fout.
    destruct (1 <? half) eqn:Hh.
    - apply Z.ltb_lt in Hh.
      destruct (Qdivz_bounds (k * (n - 1)) (half - 1) (n - 1)) as [Hq0 Hq1]; [nia|nia|lia|].
      destruct (py_round_index ordered _ Hq0 Hq1) as (v & Hv & Inv).
      rewrite Hv. cbn [bind]. eexists. split; [reflexivity|]. apply incl_app; [exact Hacc|].
      intros x [<-|[]]. exact Inv.
    - destruct (py_index_in ordered 0) as (v & Hv & Inv); [lia|fold n; lia|].
      rewrite Hv. cbn [bind]. eexists. split; [reflexivity|]. apply incl_app; [exact Hacc|].
      intros x [<-|[]]. exact Inv. }
  { intros x []. }
  assert (Holen : (length outbound <= Z.to_nat half)%nat).
  { pose proof (fold_res_len fout (zrange half) [] outbound) as Hl.
    unfold zrange in Hl. rewrite length_map, length_seq in Hl. simpl in Hl. apply Hl; [|exact Hout].
    intros acc k acc' Hf. unfold fout in Hf.
    destruct (py_index ordered _) as [v|e]; cbn [bind] in Hf; [|discriminate].
    injection Hf as <-. rewrite length_app. simpl. lia. }
  set (fin := fun (acc : list nat) (k : Z) =>
         let pos := py_round (inject_Z (n - 1) - Qdivz (k * (n - 1)) (cycle_length - half))%Q in
         idx <- py_index ordered pos ;;
         if existsb (Nat.eqb idx) outbound then Ok acc else Ok (acc ++ [idx])).
  destruct (fold_res_ok (fun acc => incl acc ordered) fin (zrange (cycle_length - half)) [])
    as (inbound & Hin & Hiincl).
  { intros acc k Hk Hacc. apply zrange_In in Hk. unfold fin.
    destruct (Qdivz_bounds (k * (n - 1)) (cycle_length - half) (n - 1)) as [Hq0 Hq1];
      [nia|nia|lia|].
    destruct (py_round_index ordered (inject_Z (n - 1) - Qdivz (k * (n - 1)) (cycle_length - half)))
      as (v & Hv & Inv); [lra|fold n; lra|].
    rewrite Hv. cbn [bind].
    destruct (existsb _ _); eexists; (split; [reflexivity|]); [exact Hacc|].
    apply incl_app; [exact Hacc|]. intros x [<-|[]]. exact Inv. }
  { intros x []. }
  assert (Hilen : (length inbound <= Z.to_nat (cycle_length - half))%nat).
  { pose proof (fold_res_len fin (zrange (cycle_length - half)) [] inbound) as Hl.
    unfold zrange in Hl. rewrite length_map, length_seq in Hl. simpl in Hl. apply Hl; [|exact Hin].
    intros acc k acc' Hf. unfold fin in Hf.
    destruct (py_index ordered _) as [v|e]; cbn [bind] in Hf; [|discriminate].
    destruct (existsb _ _); injection Hf as <-; [lia|]. rewrite length_app. simpl. lia. }
  fold fout. rewrite Hout. cbn [bind]. fold fin. rewrite Hin. cbn [bind].
  exists (outbound ++ inbound). split; [reflexivity|].
  split; [apply incl_app; assumption|]. split; [lia|].
  intros _. rewrite length_app. lia.
Qed.

(** ** _find_bright_bands *)

Lemma bands_ordered_snoc (l : list (Z * Z)) (b : Z * Z) :
  bands_ordered l -> (forall b', In b' l -> snd b' < fst b) -> bands_ordered (l ++ [b]).
Proof.
  induction l as [|b1 [|b2 t] IH]; intros Hl Hlt; simpl; auto.
  - split; [apply Hlt; left; reflexivity|exact I].
  - destruct Hl as [H12 Ht]. split; [exact H12|].
    apply IH; [exact Ht|]. intros b' Hb'. apply Hlt. right. exact Hb'.
Qed.

Section BrightBands.

Variable ab : list bool.
Variable min_size : Z.
Let n := Z.of_nat (length ab).

Definition fbb_inv (k : Z) (st : list (Z * Z) * bool * Z) : Prop :=
  let '(bands, in_band, start) := st in
  (forall s e, In (s, e) bands <-> e < k /\ is_run ab s e /\ min_size <= e - s) /\
  (in_band = true -> 0 <= start < k /\ (forall j, start <= j < k -> abit ab j = true) /\
                     (start = 0 \/ abit ab (start - 1) = false)) /\
  (in_band = false -> k = 0 \/ abit ab (k - 1) = false) /\
  bands_ordered bands /\
  (forall b, In b bands -> snd b < k /\ (in_band = true -> snd b < start)).

Lemma fbb_inv_step (k : Z) (st : list (Z * Z) * bool * Z) :
  0 <= k < n -> fbb_inv k st -> fbb_inv (k + 1) (fbb_step ab min_size st k).
Proof.
  destruct st as [[bands in_band] start].
  intros Hk (HA & HB & HC & HD & HD').
  unfold fbb_step. destruct (nth (Z.to_nat k) ab false) eqn:Ea, in_band; cbn [andb negb].
  - destruct (HB eq_refl) as (Hst & Htr & Hbd).
    split; [|split; [|split; [|split]]].
    + intros s e. rewrite HA. split; intros (He & Hr & Hm); (split; [|auto]).
      * lia.
      * destruct (Z.eq_dec e k) as [->|Hne]; [|lia].
        destruct Hr as (_ & _ & _ & _ & [Hn|Hf]); [unfold n in *; lia|].
        unfold abit in Hf. congruence.
    + intros _. split; [lia|]. split; [|exact Hbd].
      intros j Hj. destruct (Z.eq_dec j k) as [->|Hne]; [exact Ea|]. apply Htr. lia.
    + discriminate.
    + exact HD.
    + intros b Hb. destruct (HD' b Hb) as [H1 H2]. split; [lia|exact H2].
  - split; [|split; [|split; [|split]]].
    + intros s e. rewrite HA. split; intros (He & Hr & Hm); (split; [|auto]).
      * lia.
      * destruct (Z.eq_dec e k) as [->|Hne]; [|lia].
        destruct Hr as (_ & _ & _ & _ & [Hn|Hf]); [unfold n in *; lia|].
        unfold abit in Hf. congruence.
    + intros _. split; [lia|]. split.
      * intros j Hj. replace j with k by lia. exact Ea.
      * destruct (HC eq_refl) as [H0|H0]; [left; exact H0|right; exact H0].
    + discriminate.
    + exact HD.
    + intros b Hb. destruct (HD' b Hb) as [H1 _]. split; lia.
  - destruct (HB eq_refl) as (Hst & Htr & Hbd).
    assert (Hrun : is_run ab start k).
    { unfold is_run. split; [lia|]. split; [unfold n in *; lia|].
      split; [exact Htr|]. split; [exact Hbd|right; exact Ea]. }
    assert (Hnew : forall s e, is_run ab s e -> e = k -> s = start).
    { intros s e Hr ->. destruct Hr as (Hse & _ & Htr' & Hbd' & _).
      symmetry. apply (run_start_unique ab start s k); auto; lia. }
    destruct (min_size <=? k - start) eqn:Hm.
    + apply Z.leb_le in Hm. split; [|split; [|split; [|split]]].
      * intros s e. rewrite in_app_iff, HA. split.
        -- intros [(He & Hr & Hm')|[Heq|[]]].
           ++ split; [lia|auto].
           ++ injection Heq as <- <-. split; [lia|auto].
        -- intros (He & Hr & Hm'). destruct (Z.eq_dec e k) as [->|Hne].
           ++ right. left. rewrite (Hnew s k Hr eq_refl). reflexivity.
           ++ left. split; [lia|auto].
      * discriminate.
      * intros _. right. replace (k + 1 - 1) with k by lia. exact Ea.
      * apply bands_ordered_snoc; [exact HD|]. intros b Hb.
        destruct (HD' b Hb) as [_ H2]. simpl. exact (H2 eq_refl).
      * intros b Hb. apply in_app_iff in Hb. split; [|discriminate].
        destruct Hb as [Hb|[<-|[]]]; [destruct (HD' b Hb); lia|simpl; lia].
    + apply Z.leb_gt in Hm. split; [|split; [|split; [|split]]].
      * intros s e. rewrite HA. split.
        -- intros (He & Hr & Hm'). split; [lia|auto].
        -- intros (He & Hr & Hm'). destruct (Z.eq_dec e k) as [->|Hne].
           ++ exfalso. rewrite (Hnew s k Hr eq_refl) in Hm'. lia.
           ++ split; [lia|auto].
      * discriminate.
      * intros _. right. replace (k + 1 - 1) with k by lia. exact Ea.
      * exact HD.
      * intros b Hb. split; [|discriminate]. destruct (HD' b Hb). lia.
  - split; [|split; [|split; [|split]]].
    + intros s e. rewrite HA. split; intros (He & Hr & Hm); (split; [|auto]).
      * lia.
      * destruct (Z.eq_dec e k) as [->|Hne]; [|lia].
        destruct Hr as ((Hs0 & Hsk) & _ & Htr & _ & _).
        destruct (HC eq_refl) as [H0|H0]; [lia|]. rewrite Htr in H0; [discriminate|lia].
    + discriminate.
    + intros _. right. replace (k + 1 - 1) with k by lia. exact Ea.
    + exact HD.
    + intros b Hb. destruct (HD' b Hb) as [H1 H2]. split; [lia|exact H2].
Qed.

Lemma fbb_loop_inv (k : nat) :
  (k <= length ab)%nat ->
  fbb_inv (Z.of_nat k) (fold_left (fbb_step ab min_size) (map Z.of_nat (seq 0 k)) ([], false, 0)).
Proof.
  induction k as [|k IH]; intros Hk.
  - simpl. split; [|split; [|split; [|split]]].
    + intros s e. split; [intros []|]. intros (He & Hr & _).
      destruct Hr as (Hse & _). lia.
    + discriminate.
    + intros _. left. reflexivity.
    + exact I.
    + intros b [].
  - rewrite seq_S, map_app, fold_left_app. cbn [fold_left map].
    replace (Z.of_nat (S k)) with (Z.of_nat (0 + k) + 1) by lia.
    apply fbb_inv_step; [unfold n; lia|]. apply IH. lia.
Qed.

End BrightBands.

(** [_find_bright_bands] returns exactly the maximal runs [[s, e)] of
    positions whose value exceeds the threshold and whose length is at
    least [min_size], in increasing order, each band ending before the
    next one starts. *)
Theorem find_bright_bands_spec (projection : list Q) (threshold : Q) (min_size : Z) :
  let ab := above projection threshold in
  (forall s e, In (s, e) (find_bright_bands projection threshold min_size) <->
               is_run ab s e /\ min_size <= e - s) /\
  bands_ordered (find_bright_bands projection threshold min_size).
Proof.
  intros ab. unfold find_bright_bands. fold ab.
  unfold zrange. rewrite Nat2Z.id.
  pose proof (fbb_loop_inv ab min_size (length ab) (le_n _)) as Hinv.
  destruct (fold_left (fbb_step ab min_size) (map Z.of_nat (seq 0 (length ab))) ([], false, 0))
    as [[bands in_band] start].
  destruct Hinv as (HA & HB & HC & HD & HD').
  set (n := Z.of_nat (length ab)) in *.
  assert (Hrun_le : forall s e, is_run ab s e -> e <= n) by (intros s e Hr; apply Hr).
  destruct in_band; cbn [andb].
  - destruct (HB eq_refl) as (Hst & Htr & Hbd).
    assert (Hrun : is_run ab start n).
    { unfold is_run. split; [lia|]. split; [lia|].
      split; [exact Htr|]. split; [exact Hbd|left; reflexivity]. }
    assert (Hnew : forall s, is_run ab s n -> s = start).
    { intros s Hr. destruct Hr as (Hse & _ & Htr' & Hbd' & _).
      symmetry. apply (run_start_unique ab start s n); auto; lia. }
    destruct (min_size <=? n - start) eqn:Hm.
    + apply Z.leb_le in Hm. split.
      * intros s e. rewrite in_app_iff, HA. split.
        -- intros [(He & Hr & Hm')|[Heq|[]]]; [auto|].
           injection Heq as <- <-. auto.
        -- intros (Hr & Hm'). destruct (Z.eq_dec e n) as [->|Hne].
           ++ right. left. rewrite (Hnew s Hr). reflexivity.
           ++ left. specialize (Hrun_le s e Hr). split; [lia|auto].
      * apply bands_ordered_snoc; [exact HD|]. intros b Hb.
        destruct (HD' b Hb) as [_ H2]. simpl. exact (H2 eq_refl).
    + apply Z.leb_gt in Hm. split; [|exact HD].
      intros s e. rewrite HA. split.
      * intros (He & Hr & Hm'). auto.
      * intros (Hr & Hm'). destruct (Z.eq_dec e n) as [->|Hne].
        -- exfalso. rewrite (Hnew s Hr) in Hm'. lia.
        -- specialize (Hrun_le s e Hr). split; [lia|auto].
  - split; [|exact HD].
    intros s e. rewrite HA. split.
    + intros (He & Hr & Hm). auto.
    + intros (Hr & Hm). split; [|auto].
      destruct (Z.eq_dec e n) as [->|Hne]; [|specialize (Hrun_le s e Hr); lia].
      exfalso. destruct Hr as (Hse & _ & Htr & _ & _).
      destruct (HC eq_refl) as [H0|H0]; [lia|]. rewrite Htr in H0; [discriminate|lia].
Qed.

(** ** _uniform_grid *)

Lemma zrange_length (b : Z) : length (zrange b) = Z.to_nat b.
Proof. unfold zrange. rewrite length_map, length_seq. reflexivity. Qed.

Lemma zrange_nth (b : Z) (k : nat) (d : Z) :
  (k < Z.to_nat b)%nat -> nth k (zrange b) d = Z.of_nat k.
Proof.
  intros Hk. unfold zrange. rewrite (nth_indep _ d (Z.of_nat 0%nat)) by (rewrite length_map, length_seq; exact Hk).
  rewrite map_nth, seq_nth by exact Hk. reflexivity.
Qed.

Lemma hd_nth {A} (d : A) (l : list A) : hd d l = nth 0 l d.
Proof. destruct l; reflexivity. Qed.

Lemma nth_map_lt {A B} (f : A -> B) (l : list A) (k : nat) (da : A) (db : B) :
  (k < length l)%nat -> nth k (map f l) db = f (nth k l da).
Proof.
  intros Hk. rewrite (nth_indep _ db (f da)) by (rewrite length_map; exact Hk).
  apply map_nth.
Qed.

(** [_uniform_grid] raises [ZeroDivisionError] when [cols] or [rows] is 0.
    Otherwise it returns [rows] rows of [cols] cells each, all of size
    [img_w // cols] x [img_h // rows], and for a non-negative image size
    every cell lies inside the image. *)
Theorem uniform_grid_spec (rows cols img_w img_h : Z) :
  ((cols = 0 \/ rows = 0) -> uniform_grid rows cols img_w img_h = Err ZeroDivisionError) /\
  (cols <> 0 -> rows <> 0 ->
   exists g, uniform_grid rows cols img_w img_h = Ok g /\
     length g = Z.to_nat rows /\ Forall (fun row => length row = Z.to_nat cols) g /\
     Forall (Forall (fun c => w c = img_w / cols /\ h c = img_h / rows)) g /\
     (0 <= img_w -> 0 <= img_h ->
      Forall (Forall (fun c => 0 <= x c /\ x c + w c <= img_w /\
                               0 <= y c /\ y c + h c <= img_h)) g)).
Proof.
  unfold uniform_grid. split.
  - intros [->| ->]; [reflexivity|]. destruct (cols =? 0); reflexivity.
  - intros Hc Hr. rewrite (proj2 (Z.eqb_neq cols 0) Hc), (proj2 (Z.eqb_neq rows 0) Hr).
    eexists. split; [reflexivity|].
    split; [rewrite length_map; apply zrange_length|].
    split; [apply Forall_forall; intros row Hrow; apply in_map_iff in Hrow;
            destruct Hrow as (r & <- & _); rewrite length_map; apply zrange_length|].
    split.
    + apply Forall_forall. intros row Hrow. apply in_map_iff in Hrow.
      destruct Hrow as (r & <- & _). apply Forall_forall. intros c Hcell.
      apply in_map_iff in Hcell. destruct Hcell as (cc & <- & _). simpl. auto.
    + intros Hw Hh. apply Forall_forall. intros row Hrow. apply in_map_iff in Hrow.
      destruct Hrow as (r & <- & Hr'). apply zrange_In in Hr'.
      apply Forall_forall. intros c Hcell. apply in_map_iff in Hcell.
      destruct Hcell as (cc & <- & Hc'). apply zrange_In in Hc'. simpl.
      pose proof (Z.mul_div_le img_w cols ltac:(lia)).
      pose proof (Z.mul_div_le img_h rows ltac:(lia)).
      pose proof (Z.div_pos img_w cols Hw ltac:(lia)).
      pose proof (Z.div_pos img_h rows Hh ltac:(lia)).
      nia.
Qed.

Lemma uniform_grid_spec_witness :
  exists g, uniform_grid 2 3 300 200 = Ok g /\ length g = 2%nat.
Proof.
  destruct (proj2 (uniform_grid_spec 2 3 300 200) ltac:(lia) ltac:(lia))
    as (g & Hg & Hl & _).
  exists g. split; [exact Hg|exact Hl].
Defined.

(** ** _fill_positions *)

Lemma fill_positions_props (existing : list Q) (target cell_size total_size : Z) :
  ((length existing < 2)%nat -> target = 0 ->
   fill_positions existing target cell_size total_size = Err ZeroDivisionError) /\
  ((2 <= length existing)%nat \/ target <> 0 ->
   exists ps, fill_positions existing target cell_size total_size = Ok ps /\
     length ps = Z.to_nat target /\
     (existing <> [] -> 0 < target -> (hd 0 ps == hd 0 existing)%Q) /\
     ((2 <= length existing)%nat -> (length existing <= Z.to_nat target)%nat ->
      (nth (length existing - 1) ps 0 == nth (length existing - 1) existing 0)%Q)).
Proof.
  unfold fill_positions. split.
  - intros Hl ->. rewrite (proj2 (Z.leb_gt 2 _)) by lia. reflexivity.
  - intros Hcase.
    assert (Hsp : exists sp, (if 2 <=? Z.of_nat (length existing) then
                   last_v <- py_index existing (-1) ;; first_v <- py_index existing 0 ;;
                   Ok ((last_v - first_v) / inject_Z (Z.of_nat (length existing) - 1))%Q
                 else if target =? 0 then Err ZeroDivisionError
                 else Ok (Qdivz total_size target)) = Ok sp /\
               ((2 <= length existing)%nat ->
                sp = ((nth (length existing - 1) existing 0 - nth 0 existing 0)
                      / inject_Z (Z.of_nat (length existing) - 1))%Q)).
    { destruct (2 <=? Z.of_nat (length existing)) eqn:H2.
      - apply Z.leb_le in H2.
        rewrite (py_index_last existing 0%Q) by lia.
        rewrite (py_index_nth existing 0 0%Q) by lia. cbn [bind].
        eexists. split; [reflexivity|]. intros _. reflexivity.
      - apply Z.leb_gt in H2. destruct Hcase as [Hc|Hc]; [lia|].
        rewrite (proj2 (Z.eqb_neq target 0) Hc). eexists. split; [reflexivity|].
        intros Hc'. lia. }
    destruct Hsp as (sp & Hsp & Hspv). rewrite Hsp. cbn [bind].
    set (first := match existing with v :: _ => v | [] => (sp / 2)%Q end).
    eexists. split; [reflexivity|].
    assert (Hnth : forall k, (k < Z.to_nat target)%nat ->
              nth k (map (fun i => first + inject_Z i * sp)%Q (zrange target)) 0%Q =
              (first + inject_Z (Z.of_nat k) * sp)%Q).
    { intros k Hk.
      rewrite (nth_map_lt _ _ k 0) by (rewrite zrange_length; exact Hk).
      rewrite zrange_nth by exact Hk. reflexivity. }
    split; [rewrite length_map; apply zrange_length|]. split.
    + intros Hne Ht. destruct existing as [|v t]; [contradiction|].
      rewrite hd_nth, Hnth by lia. simpl. unfold first. ring.
    + intros H2 Hle. rewrite Hnth by lia. rewrite (Hspv H2).
      destruct existing as [|v t]; [simpl in H2; lia|]. unfold first. cbn [nth].
      replace (Z.of_nat (length (v :: t) - 1)) with (Z.of_nat (length (v :: t)) - 1) by lia.
      assert (Hnz : ~ (inject_Z (Z.of_nat (length (v :: t)) - 1) == 0)%Q).
      { unfold Qeq, inject_Z. cbn [Qnum Qden]. lia. }
      field. exact Hnz.
Qed.

(** [_fill_positions] raises [ZeroDivisionError] exactly when fewer than two
    positions are known and [target] is 0. Otherwise it returns [target]
    positions (none for a negative [target]); the first is [existing[0]]
    when there is one, and, with at least two known positions and
    [target >= len(existing)], the position at index [len(existing) - 1]
    is [existing[-1]] (in exact arithmetic): the known spacing is extended. *)
Theorem fill_positions_spec (existing : list Q) (target cell_size total_size : Z) :
  ((length existing < 2)%nat -> target = 0 ->
   fill_positions existing target cell_size total_size = Err ZeroDivisionError) /\
  ((2 <= length existing)%nat \/ target <> 0 ->
   exists ps, fill_positions existing target cell_size total_size = Ok ps /\
     length ps = Z.to_nat target /\
     (existing <> [] -> 0 < target -> (hd 0 ps == hd 0 existing)%Q) /\
     ((2 <= length existing)%nat -> (length existing <= Z.to_nat target)%nat ->
      (nth (length existing - 1) ps 0 == nth (length existing - 1) existing 0)%Q)).
Proof. exact (fill_positions_props existing target cell_size total_size). Qed.

Lemma fill_positions_spec_witness :
  exists ps, fill_positions [10; 30]%Q 4 0 0 = Ok ps /\ length ps = 4%nat.
Proof.
  destruct (proj2 (fill_positions_spec [10; 30]%Q 4 0 0) ltac:(left; simpl; lia))
    as (ps & Hps & Hl & _).
  exists ps. split; [exact Hps|exact Hl].
Defined.

(** ** _cluster_positions *)

Lemma insertQ_perm (v : Q) (l : list Q) : Permutation (insertQ v l) (v :: l).
Proof.
  induction l as [|u t IH]; simpl; [reflexivity|].
  destruct (Qltb v u); [reflexivity|].
  apply perm_trans with (u :: v :: t); [constructor; exact IH|constructor].
Qed.

Lemma insertQ_hdrel (a v : Q) (l : list Q) :
  HdRel Qle a l -> (a <= v)%Q -> HdRel Qle a (insertQ v l).
Proof.
  intros Hl Hav. destruct l as [|u t]; simpl; [constructor; exact Hav|].
  destruct (Qltb v u); constructor; [exact Hav|]. inversion Hl. assumption.
Qed.

Lemma insertQ_sorted (v : Q) (l : list Q) : Sorted Qle l -> Sorted Qle (insertQ v l).
Proof.
  induction 1 as [|u t Ht IH Hhd]; simpl; [repeat constructor|].
  destruct (Qltb v u) eqn:Hlt.
  - apply Qltb_true in Hlt. constructor; [constructor; assumption|].
    constructor. apply Qlt_le_weak. exact Hlt.
  - apply Qltb_false in Hlt. constructor; [exact IH|].
    apply insertQ_hdrel; assumption.
Qed.

Lemma sortQ_spec (l : list Q) : Sorted Qle (sortQ l) /\ Permutation (sortQ l) l.
Proof.
  unfold sortQ.
  assert (H : forall acc, Sorted Qle acc ->
            Sorted Qle (fold_left (fun acc v => insertQ v acc) l acc) /\
            Permutation (fold_left (fun acc v => insertQ v acc) l acc) (l ++ acc)).
  { induction l as [|v t IH]; intros acc Hacc; simpl; [split; [exact Hacc|reflexivity]|].
    destruct (IH (insertQ v acc) (insertQ_sorted v acc Hacc)) as [Hs Hp].
    split; [exact Hs|]. rewrite Hp. rewrite (insertQ_perm v acc).
    apply Permutation_sym, Permutation_middle. }
  destruct (H [] (Sorted_nil _)) as [Hs Hp]. rewrite app_nil_r in Hp. auto.
Qed.

Lemma fold_left_Qplus_acc (l : list Q) (acc : Q) :
  (fold_left Qplus l acc == acc + fold_left Qplus l 0)%Q.
Proof.
  revert acc. induction l as [|y t IH]; intros acc; simpl; [ring|].
  pose proof (IH (acc + y)%Q). pose proof (IH (0 + y)%Q). lra.
Qed.

Lemma sumQ_bounds (c : list Q) (a b : Q) :
  (forall v, In v c -> a <= v <= b)%Q ->
  (inject_Z (Z.of_nat (length c)) * a <= sumQ c)%Q /\
  (sumQ c <= inject_Z (Z.of_nat (length c)) * b)%Q.
Proof.
  unfold sumQ. induction c as [|v t IH]; intros Hb; cbn [fold_left length].
  { change (inject_Z (Z.of_nat 0)) with 0%Q. split; lra. }
  pose proof (fold_left_Qplus_acc t (0 + v)%Q) as Hacc.
  destruct IH as [H1 H2]; [intros u Hu; apply Hb; right; exact Hu|].
  destruct (Hb v (or_introl eq_refl)) as [Hv1 Hv2].
  rewrite Nat2Z.inj_succ. unfold Z.succ. rewrite inject_Z_plus.
  change (inject_Z 1) with 1%Q.
  split; lra.
Qed.

Lemma np_mean_between (c : list Q) (a b : Q) :
  c <> [] -> (forall v, In v c -> a <= v <= b)%Q -> (a <= np_mean c <= b)%Q.
Proof.
  intros Hne Hb. destruct (sumQ_bounds c a b Hb) as [H1 H2]. unfold np_mean.
  assert (Hpos : (0 < inject_Z (Z.of_nat (length c)))%Q).
  { destruct c as [|v t]; [contradiction|]. unfold Qlt, inject_Z. cbn [Qnum Qden length]. lia. }
  split.
  - apply Qle_shift_div_l; [exact Hpos|]. rewrite Qmult_comm. exact H1.
  - apply Qle_shift_div_r; [exact Hpos|]. rewrite Qmult_comm. exact H2.
Qed.

Lemma Sorted_app_inv {A} (R : A -> A -> Prop) (l1 l2 : list A) :
  Sorted R (l1 ++ l2) -> Sorted R l1 /\ Sorted R l2.
Proof.
  induction l1 as [|a t IH]; simpl; intros H; [split; [constructor|exact H]|].
  inversion H as [|? ? Ht Hhd]; subst. destruct (IH Ht) as [H1 H2].
  split; [|exact H2]. constructor; [exact H1|].
  destruct t as [|b t']; [constructor|]. inversion Hhd. constructor. assumption.
Qed.

Lemma sorted_hd_last (c : list Q) (v : Q) :
  Sorted Qle c -> In v c -> (hd 0 c <= v <= last c 0)%Q.
Proof.
  intros Hs. apply Sorted_StronglySorted in Hs; [|intros x y z; apply Qle_trans].
  induction Hs as [|a t Ht IH Hall]; intros Hv; [destruct Hv|].
  rewrite Forall_forall in Hall.
  destruct t as [|b t'].
  - destruct Hv as [<-|[]]. simpl. split; apply Qle_refl.
  - replace (last (a :: b :: t') 0%Q) with (last (b :: t') 0%Q) by reflexivity.
    assert (Hlast : In (last (b :: t') 0%Q) (b :: t')).
    { clear. revert b. induction t' as [|c t'' IH]; intros b; [left; reflexivity|].
      right. apply IH. }
    destruct Hv as [<-|Hv].
    + simpl. split; [apply Qle_refl|]. apply Hall. exact Hlast.
    + split; [apply Hall; exact Hv|]. apply IH. exact Hv.
Qed.

Lemma gapped_snoc (l : list (list Q)) (c d : list Q) :
  gapped (l ++ [c]) -> (last c 0 + 100 < hd 0 d)%Q -> gapped ((l ++ [c]) ++ [d]).
Proof.
  induction l as [|c1 t IH]; intros Hg Hcd.
  - simpl. split; [exact Hcd|exact I].
  - destruct t as [|c2 t'].
    + simpl in *. destruct Hg as [H1 _]. split; [exact H1|]. split; [exact Hcd|exact I].
    + simpl in Hg. destruct Hg as [H12 Ht]. split; [exact H12|]. exact (IH Ht Hcd).
Qed.

Lemma gapped_replace_last (l : list (list Q)) (c c' : list Q) :
  gapped (l ++ [c]) -> hd 0%Q c' = hd 0%Q c -> gapped (l ++ [c']).
Proof.
  induction l as [|c1 t IH]; intros Hg Heq.
  - exact I.
  - destruct t as [|c2 t'].
    + simpl in *. destruct Hg as [H1 _]. rewrite Heq. split; [exact H1|exact I].
    + simpl in Hg. destruct Hg as [H12 Ht]. split; [exact H12|]. exact (IH Ht Heq).
Qed.

Lemma cluster_gaps_spec (rest : list Q) :
  forall (prev : Q) (cur : list Q) (done : list (list Q)), cur <> [] -> last cur 0%Q = prev ->
  Forall (fun c => c <> []) done -> gapped (done ++ [cur]) ->
  let r := cluster_gaps prev cur done rest in
  concat r = concat done ++ cur ++ rest /\ Forall (fun c => c <> []) r /\ gapped r.
Proof.
  induction rest as [|v t IH]; intros prev cur done Hne Hlast Hdone Hg; simpl.
  - rewrite concat_app. simpl. rewrite !app_nil_r.
    split; [reflexivity|]. split; [|exact Hg].
    apply Forall_app. split; [exact Hdone|]. constructor; [exact Hne|constructor].
  - destruct (Qltb 100 (v - prev)) eqn:Hgap.
    + apply Qltb_true in Hgap.
      destruct (IH v [v] (done ++ [cur])) as (Hc & Hf & Hg').
      * discriminate.
      * reflexivity.
      * apply Forall_app. split; [exact Hdone|]. constructor; [exact Hne|constructor].
      * apply gapped_snoc; [exact Hg|]. simpl. rewrite Hlast. lra.
      * split; [|split; assumption]. rewrite Hc, concat_app. simpl.
        rewrite app_nil_r, <- !app_assoc. reflexivity.
    + destruct (IH v (cur ++ [v]) done) as (Hc & Hf & Hg').
      * intros E. apply app_eq_nil in E. destruct E as [_ E]. discriminate.
      * apply last_last.
      * exact Hdone.
      * apply (gapped_replace_last done cur); [exact Hg|].
        destruct cur as [|a cur']; [contradiction|reflexivity].
      * split; [|split; assumption]. rewrite Hc, <- app_assoc. reflexivity.
Qed.

Lemma gapped_means (r : list (list Q)) :
  Forall (fun c => c <> []) r -> gapped r -> Sorted Qle (concat r) ->
  Sorted (fun a b => a + 100 < b)%Q (map np_mean r).
Proof.
  induction r as [|c1 t IH]; intros Hf Hg Hs; simpl; [constructor|].
  inversion Hf as [|? ? Hc1 Hft]; subst. simpl in Hs.
  destruct (Sorted_app_inv _ _ _ Hs) as [Hs1 Hst].
  constructor.
  - apply IH; [exact Hft| |exact Hst]. destruct t; [exact I|apply Hg].
  - destruct t as [|c2 t']; [constructor|]. simpl. constructor.
    destruct Hg as [Hgap _]. inversion Hft as [|? ? Hc2 _]; subst.
    simpl in Hst. destruct (Sorted_app_inv _ _ _ Hst) as [Hs2 _].
    destruct (np_mean_between c1 (hd 0%Q c1) (last c1 0%Q) Hc1) as [_ Hm1].
    { intros v Hv. apply sorted_hd_last; assumption. }
    destruct (np_mean_between c2 (hd 0%Q c2) (last c2 0%Q) Hc2) as [Hm2 _].
    { intros v Hv. apply sorted_hd_last; assumption. }
    lra.
Qed.

Lemma nonempty_concat_length {A} (r : list (list A)) :
  Forall (fun c => c <> []) r -> (length r <= length (concat r))%nat.
Proof.
  induction 1 as [|c t Hc _ IH]; simpl; [lia|].
  rewrite length_app. destruct c; [contradiction|]. simpl. lia.
Qed.

Lemma cluster_positions_props (values : list Q) (expected : Z) :
  (Z.of_nat (length values) <= expected ->
   cluster_positions values expected = Ok (sortQ values) /\
   Sorted Qle (sortQ values) /\ Permutation (sortQ values) values) /\
  (values = [] -> expected < 0 -> cluster_positions values expected = Err IndexError) /\
  (values <> [] -> expected < Z.of_nat (length values) ->
   exists reps, cluster_positions values expected = Ok reps /\ reps <> [] /\
     (length reps <= length values)%nat /\ Sorted (fun a b => a + 100 < b)%Q reps).
Proof.
  destruct (sortQ_spec values) as [Hs Hp].
  pose proof (Permutation_length Hp) as Hlen.
  unfold cluster_positions. rewrite Hlen. split; [|split].
  - intros Hle. rewrite (proj2 (Z.leb_le _ _) Hle). auto.
  - intros -> Hneg. cbn [length Z.of_nat]. rewrite (proj2 (Z.leb_gt 0 expected) Hneg).
    reflexivity.
  - intros Hne Hlt. rewrite (proj2 (Z.leb_gt _ _) Hlt).
    destruct (sortQ values) as [|v0 t] eqn:Hsv.
    { apply Permutation_nil in Hp. contradiction. }
    cbn [py_get nth_error bind tl].
    destruct (cluster_gaps_spec t v0 [v0] []) as (Hc & Hf & Hg);
      [discriminate|reflexivity|constructor|exact I|].
    set (r := cluster_gaps v0 [v0] [] t) in *.
    exists (map np_mean r). split; [reflexivity|]. split.
    + intros E. apply map_eq_nil in E. rewrite E in Hc. discriminate.
    + split.
      * rewrite length_map. rewrite <- Hlen.
        replace (length (v0 :: t)) with (length (concat r)) by (rewrite Hc; reflexivity).
        apply nonempty_concat_length. exact Hf.
      * apply gapped_means; [exact Hf|exact Hg|]. rewrite Hc. exact Hs.
Qed.

(** [_cluster_positions(values, expected)] returns the sorted values when
    there are at most [expected] of them; it raises [IndexError] only for
    no values and a negative [expected]; otherwise it returns between one
    and [len(values)] cluster means, each more than 100 above the previous
    one (exact arithmetic). *)
Theorem cluster_positions_spec (values : list Q) (expected : Z) :
  (Z.of_nat (length values) <= expected ->
   cluster_positions values expected = Ok (sortQ values) /\
   Sorted Qle (sortQ values) /\ Permutation (sortQ values) values) /\
  (values = [] -> expected < 0 -> cluster_positions values expected = Err IndexError) /\
  (values <> [] -> expected < Z.of_nat (length values) ->
   exists reps, cluster_positions values expected = Ok reps /\ reps <> [] /\
     (length reps <= length values)%nat /\ Sorted (fun a b => a + 100 < b)%Q reps).
Proof. exact (cluster_positions_props values expected). Qed.

Lemma cluster_positions_spec_witness :
  exists reps, cluster_positions [500; 40; 60; 300]%Q 2 = Ok reps /\ (length reps <= 4)%nat.
Proof.
  destruct (proj2 (proj2 (cluster_positions_spec [500; 40; 60; 300]%Q 2))
              ltac:(discriminate) ltac:(simpl; lia))
    as (reps & Hr & _ & Hl & _).
  exists reps. split; [exact Hr|exact Hl].
Defined.

(** ** _infer_grid_from_cells *)

Lemma cluster_positions_ok (values : list Q) (expected : Z) :
  values <> [] -> exists r, cluster_positions values expected = Ok r.
Proof.
  intros Hne. destruct (cluster_positions_props values expected) as (Hle & _ & Hgt).
  destruct (Z_le_gt_dec (Z.of_nat (length values)) expected) as [H|H].
  - exists (sortQ values). apply (Hle H).
  - destruct (Hgt Hne ltac:(lia)) as (reps & Hr & _). exists reps. exact Hr.
Qed.

Lemma fill_or_keep (ys : list Q) (expected cell total : Z) :
  0 <= expected ->
  exists ys', (if Z.of_nat (length ys) <? expected
               then fill_positions ys expected cell total else Ok ys) = Ok ys' /\
    length (py_take ys' expected) = Z.to_nat expected.
Proof.
  intros He. destruct (Z.of_nat (length ys) <? expected) eqn:Hlt.
  - apply Z.ltb_lt in Hlt.
    destruct (proj2 (fill_positions_props ys expected cell total) ltac:(right; lia))
      as (ps & Hps & Hlen & _).
    exists ps. split; [exact Hps|]. unfold py_take.
    rewrite (proj2 (Z.ltb_ge expected 0)) by lia. rewrite length_firstn. lia.
  - apply Z.ltb_ge in Hlt. exists ys. split; [reflexivity|]. unfold py_take.
    rewrite (proj2 (Z.ltb_ge expected 0)) by lia. rewrite length_firstn. lia.
Qed.

(** For a non-empty list of detected cells and non-negative expected
    counts, [_infer_grid_from_cells] never raises and returns exactly
    [expected_rows] rows of [expected_cols] cells. Every cell has the
    median width and height of the detected cells (truncated by [int]) and
    non-negative coordinates. *)
Theorem infer_grid_from_cells_spec (cells : list CellInfo) (expected_rows expected_cols : Z)
  (img_width img_height : Z)
  (Hne : cells <> []) (Hr : 0 <= expected_rows) (Hc : 0 <= expected_cols) :
  exists mw mh g,
    int_median (map (fun c => inject_Z (w c)) cells) = Ok mw /\
    int_median (map (fun c => inject_Z (h c)) cells) = Ok mh /\
    infer_grid_from_cells cells expected_rows expected_cols img_width img_height = Ok g /\
    length g = Z.to_nat expected_rows /\
    Forall (fun row => length row = Z.to_nat expected_cols) g /\
    Forall (Forall (fun c => w c = mw /\ h c = mh /\ 0 <= x c /\ 0 <= y c)) g.
Proof.
  destruct cells as [|c0 t]; [contradiction|].
  assert (Hmw : exists mw, int_median (map (fun c => inject_Z (w c)) (c0 :: t)) = Ok mw)
    by (eexists; reflexivity).
  assert (Hmh : exists mh, int_median (map (fun c => inject_Z (h c)) (c0 :: t)) = Ok mh)
    by (eexists; reflexivity).
  destruct Hmw as (mw & Hmw). destruct Hmh as (mh & Hmh).
  destruct (cluster_positions_ok (map center_y (c0 :: t)) expected_rows) as (ys & Hys).
  { discriminate. }
  destruct (cluster_positions_ok (map center_x (c0 :: t)) expected_cols) as (xs & Hxs).
  { discriminate. }
  destruct (fill_or_keep ys expected_rows mh img_height Hr) as (ys' & Hys' & Hly).
  destruct (fill_or_keep xs expected_cols mw img_width Hc) as (xs' & Hxs' & Hlx).
  exists mw, mh. eexists. split; [exact Hmw|]. split; [exact Hmh|]. split.
  { unfold infer_grid_from_cells. cbv beta iota.
    rewrite Hmw, Hmh. cbn [bind]. rewrite Hys, Hxs. cbn [bind].
    rewrite Hys'. cbn [bind]. rewrite Hxs'. cbn [bind]. reflexivity. }
  split; [rewrite length_map; exact Hly|]. split.
  - apply Forall_forall. intros row Hrow. apply in_map_iff in Hrow.
    destruct Hrow as (ry & <- & _). rewrite length_map. exact Hlx.
  - apply Forall_forall. intros row Hrow. apply in_map_iff in Hrow.
    destruct Hrow as (ry & <- & _). apply Forall_forall. intros c Hcell.
    apply in_map_iff in Hcell. destruct Hcell as (cx & <- & _). cbn [w h x y].
    split; [reflexivity|]. split; [reflexivity|]. lia.
Qed.

Lemma infer_grid_from_cells_spec_witness :
  exists g, infer_grid_from_cells
              [mkCell 10 10 50 60 35 40; mkCell 200 12 52 60 226 42] 2 3 400 300 = Ok g /\
            length g = 2%nat.
Proof.
  destruct (infer_grid_from_cells_spec
              [mkCell 10 10 50 60 35 40; mkCell 200 12 52 60 226 42] 2 3 400 300
              ltac:(discriminate) ltac:(lia) ltac:(lia))
    as (mw & mh & g & _ & _ & Hg & Hl & _).
  exists g. split; [exact Hg|exact Hl].
Defined.

(** ** compute_cell_rects *)

Lemma fold_res_snoc {A B} (f : list A -> B -> result (list A)) (v : B -> A)
  (xs : list B) (acc : list A) :
  (forall l b, In b xs -> f l b = Ok (l ++ [v b])) ->
  fold_res f xs acc = Ok (acc ++ map v xs).
Proof.
  revert acc. induction xs as [|b t IH]; intros acc Hf; simpl.
  - now rewrite app_nil_r.
  - rewrite (Hf acc b (or_introl eq_refl)). cbn [bind].
    rewrite IH by (intros; apply Hf; now right).
    now rewrite <- app_assoc.
Qed.

Lemma bounds_length (l : list Z) (a b : Z) :
  Z.of_nat (length ([a] ++ l ++ [b])) - 1 = Z.of_nat (length l) + 1.
Proof. rewrite !length_app. cbn [length]. lia. Qed.

(** [compute_cell_rects] never raises: it returns
    [min(expected_rows, len(row_seps) + 1)] rows (none when negative) of
    [min(expected_cols, len(col_seps) + 1)] cells, the cell [(r, c)] being
    the box between the bounds [r], [r + 1] and [c], [c + 1] of
    [[0] + seps + [size]], shrunk by the 3-pixel margin on every side (so
    neighbouring cells are 6 pixels apart). *)
Theorem compute_cell_rects_spec (img_h img_w : Z) (row_seps col_seps : list Z)
  (expected_rows expected_cols : Z) :
  let y_bounds := [0] ++ row_seps ++ [img_h] in
  let x_bounds := [0] ++ col_seps ++ [img_w] in
  let nr := Z.min expected_rows (Z.of_nat (length row_seps) + 1) in
  let nc := Z.min expected_cols (Z.of_nat (length col_seps) + 1) in
  compute_cell_rects img_h img_w row_seps col_seps expected_rows expected_cols =
  Ok (map (fun r =>
         map (fun c =>
                (nthz x_bounds c + 3, nthz y_bounds r + 3,
                 nthz x_bounds (c + 1) - nthz x_bounds c - 6,
                 nthz y_bounds (r + 1) - nthz y_bounds r - 6))
           (zrange nc))
       (zrange nr)).
Proof.
  cbv zeta. unfold compute_cell_rects. cbv zeta. rewrite !bounds_length.
  set (yb := [0] ++ row_seps ++ [img_h]). set (xb := [0] ++ col_seps ++ [img_w]).
  match goal with |- _ = Ok ?m => rewrite <- (app_nil_l m) end.
  apply fold_res_snoc. intros grid r Hr. apply zrange_In in Hr.
  unfold ccr_row. unfold xb. rewrite bounds_length. fold xb.
  erewrite fold_res_snoc; [reflexivity|].
  intros row c Hc. apply zrange_In in Hc.
  assert (Hy : Z.of_nat (length yb) = Z.of_nat (length row_seps) + 2)
    by (unfold yb; rewrite !length_app; cbn [length]; lia).
  assert (Hx : Z.of_nat (length xb) = Z.of_nat (length col_seps) + 2)
    by (unfold xb; rewrite !length_app; cbn [length]; lia).
  unfold ccr_cell.
  rewrite (py_index_nth yb r 0) by lia. cbn [bind].
  rewrite (py_index_nth yb (r + 1) 0) by lia. cbn [bind].
  rewrite (py_index_nth xb c 0) by lia. cbn [bind].
  rewrite (py_index_nth xb (c + 1) 0) by lia. cbn [bind].
  unfold nthz. do 4 f_equal; lia.
Qed.

(** ** extract_orochi.py: line centres and grid split *)

(** The line finder of extract_orochi.py (which does not merge close
    lines) returns exactly the midpoints [(s + e) // 2] of the maximal runs
    [[s, e)] of positions whose ratio exceeds the threshold, in strictly
    increasing order, and returns no line exactly when no position is above
    the threshold. *)
Theorem orochi_find_line_centers_spec (ratio : list Q) (threshold : Q) :
  let ab := above ratio threshold in
  (forall c, In c (Orochi.find_line_centers ratio threshold) <->
             exists s e, is_run ab s e /\ c = (s + e) / 2) /\
  spaced 1 (Orochi.find_line_centers ratio threshold) /\
  (Orochi.find_line_centers ratio threshold = [] <->
   forall j, 0 <= j < Z.of_nat (length ab) -> abit ab j = false).
Proof.
  exact (run_centers_spec ratio threshold).
Qed.

Lemma In_zrange (b k : Z) : 0 <= k < b -> In k (zrange b).
Proof.
  intros Hk. unfold zrange. apply in_map_iff. exists (Z.to_nat k).
  split; [lia|]. apply in_seq. lia.
Qed.






(** ** extract_orochi.py: clean_cyan_residue *)

(** [clean_cyan_residue] is idempotent, never changes a colour channel,
    and changes an alpha only to 0. *)
Theorem clean_cyan_residue_spec (img : image) (threshold : Z) :
  Orochi.clean_cyan_residue (Orochi.clean_cyan_residue img threshold) threshold =
  Orochi.clean_cyan_residue img threshold /\
  iw (Orochi.clean_cyan_residue img threshold) = iw img /\
  ih (Orochi.clean_cyan_residue img threshold) = ih img /\
  Forall2 (Forall2 (fun p q => pr q = pr p /\ pg q = pg p /\ pb q = pb p /\
                               (pa q = pa p \/ pa q = 0)))
    (rows img) (rows (Orochi.clean_cyan_residue img threshold)).
Proof.
  unfold Orochi.clean_cyan_residue, map_px. cbn [iw ih rows].
  split; [|split; [reflexivity|split; [reflexivity|]]].
  - f_equal. rewrite map_map. apply map_ext. intros row.
    rewrite map_map. apply map_ext. intros p.
    destruct (Orochi.cyan_mask threshold p) eqn:Hc; [|rewrite Hc; reflexivity].
    unfold Orochi.cyan_mask at 1. cbn [pr pg pb pa].
    rewrite (proj2 (Z.ltb_ge 0 0)) by lia. rewrite andb_false_r. reflexivity.
  - induction (rows img) as [|row t IH]; constructor; [|exact IH].
    induction row as [|p t' IH']; constructor; [|exact IH'].
    destruct (Orochi.cyan_mask threshold p); cbn [pr pg pb pa]; auto.
Qed.

(** ** tight_crop *)












(** ** Pasting frames side by side *)


Lemma getpx_out (im : image) (x y : Z) :
  ~ (0 <= x < iw im /\ 0 <= y < ih im) -> getpx im x y = px0.
Proof.
  intros Hn. unfold getpx.
  destruct ((0 <=? x) && (x <? iw im) && (0 <=? y) && (y <? ih im)) eqn:E; [|reflexivity].
  exfalso. apply Hn. rewrite !andb_true_iff, Z.leb_le, Z.ltb_lt, Z.leb_le, Z.ltb_lt in E. lia.
Qed.



Section FoldPaste.

Context {B : Type} (f : image -> B -> image) (idx : B -> Z) (fr : B -> image) (w h : Z).
Hypothesis Hf : forall s b, f s b = paste_mask s (fr b) (idx b * w) 0.



Hypothesis Hw : 0 < w.


End FoldPaste.






Lemma pasted_px_clear (p : px) : pa p = 0 -> pasted_px p = px0.
Proof.
  intros Ha. destruct p as [r g b a]. cbn [pa] in Ha. subst a.
  unfold pasted_px, blend_px, blend. cbn [pr pg pb pa px0]. rewrite !Z.mul_0_r. reflexivity.
Qed.





(** ** extract_orochi.py: flip_sheet *)







(** ** phase56_normalize_assemble.py: _dominant_edge_color *)

Lemma sum_ch_bounds (f : px -> Z) (l : list px) (lo hi : Z) :
  (forall p, In p l -> lo <= f p <= hi) ->
  Z.of_nat (length l) * lo <= sum_ch f l <= Z.of_nat (length l) * hi.
Proof.
  induction l as [|p t IH]; intros Hb; [cbn; lia|].
  cbn [sum_ch fold_right length]. fold (sum_ch f t).
  rewrite Nat2Z.inj_succ, !Z.mul_succ_l.
  pose proof (Hb p (or_introl eq_refl)). pose proof (IH (fun q Hq => Hb q (or_intror Hq))).
  lia.
Qed.

Lemma avg_bounds (f : px -> Z) (l : list px) (lo hi : Z) :
  l <> [] -> (forall p, In p l -> lo <= f p <= hi) ->
  lo <= sum_ch f l / Z.of_nat (length l) <= hi.
Proof.
  intros Hne Hb. destruct (sum_ch_bounds f l lo hi Hb) as [H1 H2].
  assert (Hn : 0 < Z.of_nat (length l)) by (destruct l; [congruence|cbn [length]; lia]).
  split.
  - apply Z.div_le_lower_bound; lia.
  - apply Z.div_le_upper_bound; lia.
Qed.

(** On an image of positive width, [_dominant_edge_color] never raises: the
    pixels it averages are opaque ([alpha > 128]) border pixels, it
    returns opaque black when there is none, and otherwise an opaque colour
    each of whose channels lies between the least and the greatest value of
    that channel over those pixels (a uniform border gives its own
    colour). *)
Theorem dominant_edge_color_spec (im : image) (Hw : 0 < iw im) :
  exists edge, edge_pixels im = Ok edge /\ Forall (fun p => 128 < pa p) edge /\
  exists r g b, dominant_edge_color im = Ok (r, g, b, 255) /\
    (edge = [] -> r = 0 /\ g = 0 /\ b = 0) /\
    (forall lo hi, edge <> [] -> (forall p, In p edge -> lo <= pr p <= hi) -> lo <= r <= hi) /\
    (forall lo hi, edge <> [] -> (forall p, In p edge -> lo <= pg p <= hi) -> lo <= g <= hi) /\
    (forall lo hi, edge <> [] -> (forall p, In p edge -> lo <= pb p <= hi) -> lo <= b <= hi).
Proof.
  destruct (fold_res_ok (Forall (fun p => 128 < pa p))
     (fun acc (ip : Z * px) =>
        let '(i, p) := ip in
        if iw im =? 0 then Err ZeroDivisionError
        else
          let x := i mod iw im in
          let y := i / iw im in
          if (x =? 0) || (x =? iw im - 1) || (y =? 0) || (y =? ih im - 1) then
            if 128 <? pa p then Ok (acc ++ [p]) else Ok acc
          else Ok acc)
     (combine (zrange (Z.of_nat (length (concat (rows im))))) (concat (rows im))) [])
    as (edge & He & Hall).
  { intros acc [i p] _ Hacc. rewrite (proj2 (Z.eqb_neq (iw im) 0)) by lia.
    cbv zeta.
    destruct ((i mod iw im =? 0) || (i mod iw im =? iw im - 1) || (i / iw im =? 0) ||
              (i / iw im =? ih im - 1)); [|eexists; split; [reflexivity|exact Hacc]].
    destruct (128 <? pa p) eqn:Ha; (eexists; split; [reflexivity|]); [|exact Hacc].
    apply Forall_app. split; [exact Hacc|]. constructor; [|constructor].
    apply Z.ltb_lt. exact Ha. }
  { constructor. }
  change (edge_pixels im = Ok edge) in He.
  exists edge. split; [exact He|]. split; [exact Hall|].
  unfold dominant_edge_color. rewrite He. cbn [bind].
  destruct edge as [|p0 t].
  - exists 0, 0, 0. split; [reflexivity|]. split; [auto|].
    split; [|split]; intros lo hi Hne; congruence.
  - eexists _, _, _. split; [reflexivity|]. split; [discriminate|].
    split; [|split]; intros lo hi Hne Hb; apply avg_bounds; assumption.
Qed.

Lemma dominant_edge_color_spec_witness :
  0 < iw edge_img /\ dominant_edge_color edge_img = Ok (20, 20, 20, 255).
Proof.
  split; [cbn; lia|].
  destruct (dominant_edge_color_spec edge_img ltac:(cbn; lia))
    as (edge & He & _ & r & g & b & Hd & _).
  rewrite Hd. assert (Hv : dominant_edge_color edge_img = Ok (20, 20, 20, 255))
    by reflexivity.
  rewrite Hd in Hv. exact Hv.
Defined.

Lemma alpha_getbbox_scan (im : image) :
  alpha_getbbox im = fold_left (bbox_step im) (scan_points im) None.
Proof.
  unfold alpha_getbbox, scan_points. generalize (@None (Z * Z * Z * Z)).
  generalize (zrange (iw im)) as xs.
  induction (zrange (ih im)) as [|y ys IH]; intros xs acc; [reflexivity|].
  cbn [flat_map fold_left]. rewrite fold_left_app, <- IH. apply f_equal.
  clear IH. revert acc. induction xs as [|x xs IHx]; intros a; [reflexivity|].
  cbn [map fold_left]. rewrite <- IHx. reflexivity.
Qed.

Lemma bbox_inv_step (im : image) (L : list (Z * Z)) acc (p : Z * Z) :
  bbox_inv im L acc -> bbox_inv im (L ++ [p]) (bbox_step im acc p).
Proof.
  destruct p as [x y]. intros Hinv.
  assert (Hin : forall q, In q L -> In q (L ++ [(x, y)]))
    by (intros q Hq; apply in_or_app; left; exact Hq).
  assert (Hnew : In (x, y) (L ++ [(x, y)])) by (apply in_or_app; right; left; reflexivity).
  assert (Hcase : forall a b, In (a, b) (L ++ [(x, y)]) -> In (a, b) L \/ (a = x /\ b = y)).
  { intros a b Hab. apply in_app_or in Hab. destruct Hab as [H|[H|[]]]; [left; exact H|].
    right. inversion H. split; reflexivity. }
  unfold bbox_step. destruct (Z.eqb_spec (pa (getpx im x y)) 0) as [Hz|Hnz].
  - destruct acc as [[[[x0 y0] x1] y1]|]; cbn in Hinv |- *.
    + destruct Hinv as (Hall & [a [Ha Hpa]] & [b [Hb Hpb]] & [c [Hc Hpc]] & [d [Hd Hpd]]).
      split; [|split; [|split; [|split]]].
      * intros a' b' Hab Hne. destruct (Hcase _ _ Hab) as [H|[-> ->]];
          [exact (Hall _ _ H Hne)|contradiction].
      * exists a. split; [apply Hin; exact Ha|exact Hpa].
      * exists b. split; [apply Hin; exact Hb|exact Hpb].
      * exists c. split; [apply Hin; exact Hc|exact Hpc].
      * exists d. split; [apply Hin; exact Hd|exact Hpd].
    + intros a b Hab. destruct (Hcase _ _ Hab) as [H|[-> ->]]; [exact (Hinv _ _ H)|exact Hz].
  - destruct acc as [[[[x0 y0] x1] y1]|]; cbn in Hinv |- *.
    + destruct Hinv as (Hall & [a [Ha Hpa]] & [b [Hb Hpb]] & [c [Hc Hpc]] & [d [Hd Hpd]]).
      split; [|split; [|split; [|split]]].
      * intros a' b' Hab Hne. destruct (Hcase _ _ Hab) as [H|[-> ->]]; [|lia].
        specialize (Hall _ _ H Hne). lia.
      * destruct (Z.min_spec x0 x) as [[_ ->]|[_ ->]].
        -- exists a. split; [apply Hin; exact Ha|exact Hpa].
        -- exists y. split; [exact Hnew|exact Hnz].
      * destruct (Z.max_spec x1 (x + 1)) as [[_ ->]|[_ ->]].
        -- exists y. replace (x + 1 - 1) with x by lia. split; [exact Hnew|exact Hnz].
        -- exists b. split; [apply Hin; exact Hb|exact Hpb].
      * destruct (Z.min_spec y0 y) as [[_ ->]|[_ ->]].
        -- exists c. split; [apply Hin; exact Hc|exact Hpc].
        -- exists x. split; [exact Hnew|exact Hnz].
      * destruct (Z.max_spec y1 (y + 1)) as [[_ ->]|[_ ->]].
        -- exists x. replace (y + 1 - 1) with y by lia. split; [exact Hnew|exact Hnz].
        -- exists d. split; [apply Hin; exact Hd|exact Hpd].
    + replace (x + 1 - 1) with x by lia. replace (y + 1 - 1) with y by lia.
      split; [|split; [|split; [|split]]].
      * intros a b Hab Hne. destruct (Hcase _ _ Hab) as [H|[-> ->]].
        -- exfalso. exact (Hne (Hinv _ _ H)).
        -- lia.
      * exists y. split; [exact Hnew|exact Hnz].
      * exists y. split; [exact Hnew|exact Hnz].
      * exists x. split; [exact Hnew|exact Hnz].
      * exists x. split; [exact Hnew|exact Hnz].
Qed.

Lemma bbox_inv_fold (im : image) (M L : list (Z * Z)) acc :
  bbox_inv im L acc -> bbox_inv im (L ++ M) (fold_left (bbox_step im) M acc).
Proof.
  revert L acc. induction M as [|p M IH]; intros L acc Hinv.
  - rewrite app_nil_r. exact Hinv.
  - cbn [fold_left]. replace (L ++ p :: M) with ((L ++ [p]) ++ M)
      by (rewrite <- app_assoc; reflexivity).
    apply IH. apply bbox_inv_step. exact Hinv.
Qed.

Lemma scan_points_In (im : image) (x y : Z) :
  In (x, y) (scan_points im) <-> 0 <= x < iw im /\ 0 <= y < ih im.
Proof.
  unfold scan_points. rewrite in_flat_map. split.
  - intros [y' [Hy Hx]]. apply in_map_iff in Hx. destruct Hx as [x' [Heq Hx]].
    inversion Heq; subst. split; apply zrange_In; assumption.
  - intros [Hx Hy]. exists y. split; [apply In_zrange; exact Hy|].
    apply in_map_iff. exists x. split; [reflexivity|apply In_zrange; exact Hx].
Qed.

(** [content_bbox(img)] (phase56_normalize_assemble.py): with no pixel of
    non-zero alpha it is the whole image [(0, 0, width, height)];
    otherwise it is the tightest box [(x0, y0, x1, y1)], right and bottom
    exclusive: it lies inside the image, is not empty, holds every pixel
    of non-zero alpha, and each of its four sides touches one. *)
Theorem content_bbox_spec (im : image) :
  ((forall x y, pa (getpx im x y) = 0) -> content_bbox im = (0, 0, iw im, ih im)) /\
  ((exists x y, pa (getpx im x y) <> 0) ->
   exists x0 y0 x1 y1, content_bbox im = (x0, y0, x1, y1) /\
     0 <= x0 < x1 /\ x1 <= iw im /\ 0 <= y0 < y1 /\ y1 <= ih im /\
     (forall x y, pa (getpx im x y) <> 0 -> x0 <= x < x1 /\ y0 <= y < y1) /\
     (exists y, pa (getpx im x0 y) <> 0) /\
     (exists y, pa (getpx im (x1 - 1) y) <> 0) /\
     (exists x, pa (getpx im x y0) <> 0) /\
     (exists x, pa (getpx im x (y1 - 1)) <> 0)).
Proof.
  assert (Hinv : bbox_inv im (scan_points im) (alpha_getbbox im)).
  { rewrite alpha_getbbox_scan. apply (bbox_inv_fold im (scan_points im) [] None).
    intros x y []. }
  assert (Hrange : forall x y, pa (getpx im x y) <> 0 -> In (x, y) (scan_points im)).
  { intros x y Hne. apply scan_points_In.
    assert (H : (0 <= x < iw im /\ 0 <= y < ih im) \/ ~ (0 <= x < iw im /\ 0 <= y < ih im))
      by lia.
    destruct H as [H|H]; [exact H|].
    exfalso. apply Hne. rewrite (getpx_out im x y H). reflexivity. }
  unfold content_bbox. split.
  - intros Hz. destruct (alpha_getbbox im) as [[[[x0 y0] x1] y1]|]; [|reflexivity].
    exfalso. destruct Hinv as (_ & [a [_ Ha]] & _). exact (Ha (Hz _ _)).
  - intros [x [y Hne]]. destruct (alpha_getbbox im) as [[[[x0 y0] x1] y1]|].
    + destruct Hinv as (Hall & [a [Ha Hpa]] & [b [Hb Hpb]] & [c [Hc Hpc]] & [d [Hd Hpd]]).
      apply scan_points_In in Ha, Hb, Hc, Hd.
      pose proof (Hall _ _ (Hrange _ _ Hpa) Hpa).
      pose proof (Hall _ _ (Hrange _ _ Hpb) Hpb).
      pose proof (Hall _ _ (Hrange _ _ Hpc) Hpc).
      pose proof (Hall _ _ (Hrange _ _ Hpd) Hpd).
      exists x0, y0, x1, y1. split; [reflexivity|].
      split; [lia|]. split; [lia|]. split; [lia|]. split; [lia|].
      split; [intros a' b' Hab; exact (Hall _ _ (Hrange _ _ Hab) Hab)|].
      split; [exists a; exact Hpa|]. split; [exists b; exact Hpb|].
      split; [exists c; exact Hpc|]. exists d; exact Hpd.
    + exfalso. exact (Hne (Hinv _ _ (Hrange _ _ Hne))).
Qed.

(** [_detect_tile_grid] (phase1_extract.py), for positive expected counts
    and whatever the brightness profiles: it never raises and returns
    [expected_rows] rows of [expected_cols] cells. Every row uses the same
    column bands [(xs, xe)], and every cell of a row has the same row band
    [(ys, ye)]. The row bands are the detected bright bands when there
    are exactly [expected_rows] of them, and otherwise the equal split
    [(i * (h // expected_rows), (i + 1) * (h // expected_rows))]. *)
Theorem detect_tile_grid_spec (h_proj : list Q) (v_proj : Z -> Z -> list Q)
    (h w expected_rows expected_cols : Z)
    (Hr : 0 < expected_rows) (Hc : 0 < expected_cols) :
  exists row_bands best_cols,
    Z.of_nat (length row_bands) = expected_rows /\
    Z.of_nat (length best_cols) = expected_cols /\
    (Z.of_nat (length (find_bright_bands h_proj (inject_Z 60) 50)) = expected_rows ->
     row_bands = find_bright_bands h_proj (inject_Z 60) 50) /\
    (Z.of_nat (length (find_bright_bands h_proj (inject_Z 60) 50)) <> expected_rows ->
     row_bands = map (fun i => (i * (h / expected_rows), (i + 1) * (h / expected_rows)))
                   (zrange expected_rows)) /\
    detect_tile_grid h_proj v_proj h w expected_rows expected_cols =
      Ok (map (fun '(ys, ye) =>
                 map (fun '(xs, xe) =>
                        mkCell xs ys (xe - xs) (ye - ys) (Qdivz (xs + xe) 2) (Qdivz (ys + ye) 2))
                   best_cols)
              row_bands).
Proof.
  unfold detect_tile_grid.
  set (detected := find_bright_bands h_proj (inject_Z 60) 50).
  assert (Hrows : exists row_bands,
    Z.of_nat (length row_bands) = expected_rows /\
    (Z.of_nat (length detected) = expected_rows -> row_bands = detected) /\
    (Z.of_nat (length detected) <> expected_rows ->
     row_bands = map (fun i => (i * (h / expected_rows), (i + 1) * (h / expected_rows)))
                   (zrange expected_rows)) /\
    (if Z.of_nat (length detected) =? expected_rows then Ok detected
     else if expected_rows =? 0 then Err ZeroDivisionError
     else let band_h := h / expected_rows in
          Ok (map (fun i => (i * band_h, (i + 1) * band_h)) (zrange expected_rows)))
    = Ok row_bands).
  { destruct (Z.eqb_spec (Z.of_nat (length detected)) expected_rows) as [E|E].
    - exists detected. split; [exact E|].
      split; [intros _; reflexivity|]. split; [intros E'; contradiction|reflexivity].
    - destruct (Z.eqb_spec expected_rows 0) as [E0|E0]; [lia|].
      eexists. split; [|split; [intros E'; contradiction|split; [intros _; reflexivity|reflexivity]]].
      rewrite length_map, zrange_length. lia. }
  destruct Hrows as [row_bands [Hlr [Hdet [Hsplit Hrb]]]]. cbv zeta in Hrb |- *. rewrite Hrb. cbn [bind].
  set (picked := pick_best_cols v_proj expected_cols row_bands []).
  assert (Hcols : exists best_cols,
    Z.of_nat (length best_cols) = expected_cols /\
    (if Z.of_nat (length picked) =? expected_cols then Ok picked
     else match picked with
          | (first_x, _) :: _ =>
              let spacing := np_median (map (fun '(s, e) => inject_Z (e - s)) picked) in
              Ok (map (fun i =>
                         (Qtrunc (inject_Z first_x + inject_Z i * (spacing + inject_Z 20)),
                          Qtrunc (inject_Z first_x + inject_Z i * (spacing + inject_Z 20)
                                  + spacing)))
                    (zrange expected_cols))
          | [] =>
              if expected_cols =? 0 then Err ZeroDivisionError
              else let band_w := w / expected_cols in
                   Ok (map (fun i => (i * band_w, (i + 1) * band_w)) (zrange expected_cols))
          end) = Ok best_cols).
  { destruct (Z.eqb_spec (Z.of_nat (length picked)) expected_cols) as [E|E].
    - exists picked. split; [exact E|reflexivity].
    - destruct picked as [|[first_x x1] t].
      + destruct (Z.eqb_spec expected_cols 0) as [E0|E0]; [lia|].
        eexists. split; [|reflexivity]. rewrite length_map, zrange_length. lia.
      + eexists. split; [|reflexivity]. rewrite length_map, zrange_length. lia. }
  destruct Hcols as [best_cols [Hlc Hcb]]. cbv zeta in Hcb |- *. rewrite Hcb. cbn [bind].
  exists row_bands, best_cols. split; [exact Hlr|]. split; [exact Hlc|].
  split; [exact Hdet|]. split; [exact Hsplit|reflexivity].
Qed.

Lemma detect_tile_grid_spec_witness :
  0 < 1 /\ 0 < 2 /\
  detect_tile_grid tile_h_proj (fun _ _ => []) 50 100 1 2 =
    Ok [[mkCell 0 0 50 50 (Qdivz 50 2) (Qdivz 50 2);
         mkCell 50 0 50 50 (Qdivz 150 2) (Qdivz 50 2)]].
Proof.
  split; [lia|]. split; [lia|].
  destruct (detect_tile_grid_spec tile_h_proj (fun _ _ => []) 50 100 1 2
              ltac:(lia) ltac:(lia)) as (rb & cb & _ & _ & _ & _ & Hd).
  assert (Hv : detect_tile_grid tile_h_proj (fun _ _ => []) 50 100 1 2 =
    Ok [[mkCell 0 0 50 50 (Qdivz 50 2) (Qdivz 50 2);
         mkCell 50 0 50 50 (Qdivz 150 2) (Qdivz 50 2)]]) by reflexivity.
  rewrite Hd in Hv |- *. exact Hv.
Defined.

Lemma subseq_refl {A : Type} (l : list A) : subseq l l.
Proof. induction l; constructor; assumption. Qed.

Lemma subseq_In {A : Type} (s l : list A) (a : A) : subseq s l -> In a s -> In a l.
Proof.
  intros Hs. induction Hs as [|x s l Hs IH|x s l Hs IH]; intros Ha.
  - exact Ha.
  - destruct Ha as [->|Ha]; [left; reflexivity|right; exact (IH Ha)].
  - right. exact (IH Ha).
Qed.

Lemma filter_subseq {A : Type} (f : A -> bool) (l : list A) : subseq (filter f l) l.
Proof.
  induction l as [|a t IH]; [constructor|]. simpl.
  destruct (f a); constructor; exact IH.
Qed.

Lemma spaced_head (g x : Z) (l : list Z) :
  0 <= g -> spaced g (x :: l) -> forall y, In y l -> x + g <= y.
Proof.
  intros Hg. revert x. induction l as [|a t IH]; intros x Hs y Hy; [destruct Hy|].
  destruct Hs as [Hxa Hs]. destruct Hy as [->|Hy]; [exact Hxa|].
  specialize (IH a Hs y Hy). lia.
Qed.

Lemma spaced_tail (g x : Z) (l : list Z) : spaced g (x :: l) -> spaced g l.
Proof. destruct l as [|a t]; [intros _; exact I|intros [_ H]; exact H]. Qed.

Lemma spaced_subseq (g : Z) (s l : list Z) :
  0 <= g -> subseq s l -> spaced g l -> spaced g s.
Proof.
  intros Hg Hs. induction Hs as [|x s l Hs IH|x s l Hs IH]; intros Hl.
  - exact I.
  - pose proof (IH (spaced_tail _ _ _ Hl)) as Hs'.
    destruct s as [|y s]; [exact I|]. split; [|exact Hs'].
    apply (spaced_head g x l Hg Hl). apply (subseq_In _ _ _ Hs). left. reflexivity.
  - exact (IH (spaced_tail _ _ _ Hl)).
Qed.

Lemma select_best_lines_ok (candidates : list Z) (expected total : Z) :
  0 <= expected ->
  exists best, select_best_lines candidates expected total = Ok best /\
    subseq best candidates /\
    Z.of_nat (length best) = Z.min expected (Z.of_nat (length candidates)) /\
    (Z.of_nat (length candidates) <= expected -> best = candidates).
Proof.
  intros He. unfold select_best_lines.
  destruct (Z.eqb_spec (Z.of_nat (length candidates)) expected) as [E|E].
  { exists candidates. split; [reflexivity|]. split; [apply subseq_refl|].
    split; [lia|reflexivity]. }
  destruct (Z.ltb_spec (Z.of_nat (length candidates)) expected) as [L|L].
  { exists candidates. split; [reflexivity|]. split; [apply subseq_refl|].
    split; [lia|reflexivity]. }
  destruct (Z.ltb_spec expected 0); [lia|].
  set (k := Z.to_nat expected).
  destruct (fold_left (sbl_step total) (combinations candidates k) (None, firstn k candidates))
    as [bs b] eqn:Ef.
  destruct (sbl_fold total _ _ bs b Ef) as [_ Hf].
  assert (Hne : combinations candidates k <> []).
  { intros Hnil. assert (Hin : In (firstn k candidates) (combinations candidates k)).
    { apply combinations_spec. split; [apply subseq_firstn|].
      rewrite length_firstn. lia. }
    rewrite Hnil in Hin. exact Hin. }
  destruct (Hf Hne) as (sc & _ & _ & Hin & _).
  apply combinations_spec in Hin. destruct Hin as [Hsub Hlen].
  exists b. split; [reflexivity|]. split; [exact Hsub|].
  split; [unfold k in Hlen; lia|intros; lia].
Qed.

Lemma orochi_find_line_centers_spaced (ratio : list Q) (threshold : Q) :
  spaced 1 (Orochi.find_line_centers ratio threshold).
Proof. exact (proj1 (proj2 (run_centers_spec ratio threshold))). Qed.

(** [detect_red_lines] (extract_orochi.py), for non-negative expected
    counts and whatever the red-pixel ratios, given the margins
    [margin_h = int(h * 0.05)] and [margin_w = int(w * 0.05)] that the
    image's height [h] and width [w] give: it never raises. The
    horizontal lines it returns are taken in order from the line centres
    of the rows (ratio above [0.3]) that lie strictly between [margin_h]
    and [h - margin_h], and they are strictly increasing. There are
    [min(expected_h, n)] of them, [n] being the number of such interior
    centres, and they are all of those centres when [n <= expected_h].
    The same holds for the vertical lines with the width. *)
Theorem detect_red_lines_spec (h_ratio v_ratio : list Q)
    (expected_h expected_v margin_h margin_w : Z)
    (Hmh : py_int_float (PrimFloat.mul (float_of_Z (Z.of_nat (length h_ratio)))
                           0x1.999999999999ap-5%float) = Ok margin_h)
    (Hmw : py_int_float (PrimFloat.mul (float_of_Z (Z.of_nat (length v_ratio)))
                           0x1.999999999999ap-5%float) = Ok margin_w)
    (Heh : 0 <= expected_h) (Hev : 0 <= expected_v) :
  let h := Z.of_nat (length h_ratio) in
  let w := Z.of_nat (length v_ratio) in
  let h_internal := filter (fun y => (margin_h <? y) && (y <? h - margin_h))
                      (Orochi.find_line_centers h_ratio Orochi.float_0_3) in
  let v_internal := filter (fun x => (margin_w <? x) && (x <? w - margin_w))
                      (Orochi.find_line_centers v_ratio Orochi.float_0_3) in
  exists h_lines v_lines,
    Orochi.detect_red_lines h_ratio v_ratio expected_h expected_v = Ok (h_lines, v_lines) /\
    subseq h_lines h_internal /\ subseq v_lines v_internal /\
    spaced 1 h_lines /\ spaced 1 v_lines /\
    Z.of_nat (length h_lines) = Z.min expected_h (Z.of_nat (length h_internal)) /\
    Z.of_nat (length v_lines) = Z.min expected_v (Z.of_nat (length v_internal)) /\
    (Z.of_nat (length h_internal) <= expected_h -> h_lines = h_internal) /\
    (Z.of_nat (length v_internal) <= expected_v -> v_lines = v_internal).
Proof.
  intros h w h_internal v_internal. unfold Orochi.detect_red_lines. cbv zeta.
  rewrite Hmh, Hmw. cbn [bind]. fold h w. fold h_internal v_internal.
  destruct (select_best_lines_ok h_internal expected_h h Heh) as (hl & Ehl & Shl & Lhl & Fhl).
  destruct (select_best_lines_ok v_internal expected_v w Hev) as (vl & Evl & Svl & Lvl & Fvl).
  rewrite Ehl. cbn [bind]. rewrite Evl. cbn [bind].
  exists hl, vl. split; [reflexivity|].
  split; [exact Shl|]. split; [exact Svl|].
  split; [apply (spaced_subseq 1 hl h_internal); [lia|exact Shl|]|].
  { apply (spaced_subseq 1 _ _ ltac:(lia) (filter_subseq _ _)).
    apply orochi_find_line_centers_spaced. }
  split; [apply (spaced_subseq 1 vl v_internal); [lia|exact Svl|]|].
  { apply (spaced_subseq 1 _ _ ltac:(lia) (filter_subseq _ _)).
    apply orochi_find_line_centers_spaced. }
  split; [exact Lhl|]. split; [exact Lvl|]. split; [exact Fhl|exact Fvl].
Qed.

(** On a 40 x 40 image both margins are [int(40 * 0.05) = 2]: row 1 is a
    border line, row 20 is kept, and of the columns 10, 20 and 30 the
    first two are chosen (all three pairs score the same). *)
Lemma detect_red_lines_spec_witness :
  py_int_float (PrimFloat.mul (float_of_Z (Z.of_nat (length red_h_ratio)))
                  0x1.999999999999ap-5%float) = Ok 2 /\
  py_int_float (PrimFloat.mul (float_of_Z (Z.of_nat (length red_v_ratio)))
                  0x1.999999999999ap-5%float) = Ok 2 /\
  Orochi.detect_red_lines red_h_ratio red_v_ratio 1 2 = Ok ([20], [10; 20]).
Proof.
  split; [vm_compute; reflexivity|]. split; [vm_compute; reflexivity|].
  destruct (detect_red_lines_spec red_h_ratio red_v_ratio 1 2 2 2
              ltac:(vm_compute; reflexivity) ltac:(vm_compute; reflexivity)
              ltac:(lia) ltac:(lia)) as (hl & vl & Ed & _).
  assert (Hv : Orochi.detect_red_lines red_h_ratio red_v_ratio 1 2 = Ok ([20], [10; 20]))
    by (vm_compute; reflexivity).
  rewrite Ed in Hv |- *. exact Hv.
Defined.
